(** * conv64: multiplication of polynomials over Z/2^64 by a radix-3 FFT

    A shallow embedding of [src/conv64.cpp] and the proofs of its contracts.

    The program is embedded as it is written: the ring R = Z/2^64 is [Zmod]
    at 2^64 (every operation wraps around), [struct T] is a record of two
    such words, a [T*] is an address into a memory [nat -> T], and every
    routine of class [Conv64] is a function on memories that follows the
    statements of its source, loop by loop.  The recursion of [fftdif],
    [fftdit] and [mul] and the [while] loops take a fuel argument; each
    correctness statement gives a fuel that suffices.

    Indices and sizes inside the routines are natural numbers.  The source
    computes them in [uint64_t]; they agree as long as the scratch buffer of
    3n + 6m cells of 16 bytes can be addressed at all, and beyond that no
    call can get its memory.  The size arithmetic of [multiply], which the
    caller can drive to wrap around, is modelled with its wrap-around.

    [multiply] is embedded twice: on lists, for the vector it returns, and
    on a heap, where a vector is an address and a size and every store names
    the address it writes, for what a call changes.

    The file has three parts: the program, the vocabulary in which its
    contracts are written (sums, the monomial action modulo x^m - omega^tau,
    the reference transforms and products), and the proofs, ending with the
    contracts of the public routines. *)

From Stdlib Require Import ZArith Lia List Ring Zmod Bool Arith PeanoNat.
Import ListNotations.

(** * The ring R = Z/2^64 and its extension T = R[omega]/(omega^2+omega+1) *)

Definition M64 : Z := 18446744073709551616.

(** [uint64_t]: integers modulo 2^64, every operation wraps around. *)
Abbreviation u64 := (Zmod M64).

Definition u64_of (z : Z) : u64 := Zmod.of_Z M64 z.

Declare Scope u64_scope.
Delimit Scope u64_scope with u64.
Bind Scope u64_scope with Zmod.
Infix "+" := Zmod.add : u64_scope.
Infix "-" := Zmod.sub : u64_scope.
Infix "*" := Zmod.mul : u64_scope.
Notation "- x" := (Zmod.opp x) : u64_scope.
Notation "0" := (@Zmod.zero M64) : u64_scope.
Notation "1" := (@Zmod.one M64) : u64_scope.

(** [struct T { uint64_t a, b; }], the element a + b*omega. *)
Record T : Set := mkT { a : u64; b : u64 }.

(** The converting constructor [T(uint64_t x) : a(x), b(0)]. *)
Definition T_of (x : u64) : T := mkT x 0%u64.

(** The default constructor [T() : a(0), b(0)]. *)
Definition T0 : T := mkT 0%u64 0%u64.
Definition T1 : T := T_of 1%u64.

Definition conj (u : T) : T := mkT (a u - b u)%u64 (- b u)%u64.
Definition Topp (u : T) : T := mkT (- a u)%u64 (- b u)%u64.

Definition OMEGA : T := mkT 0%u64 1%u64.
Definition OMEGA2 : T := mkT (u64_of (-1)) (u64_of (-1)).
Definition INV3 : T := mkT (u64_of 12297829382473034411) 0%u64.

Definition Tadd (u v : T) : T := mkT (a u + a v)%u64 (b u + b v)%u64.
Definition Tsub (u v : T) : T := mkT (a u - a v)%u64 (b u - b v)%u64.
Definition Tmul (u v : T) : T :=
  mkT (a u * a v - b u * b v)%u64 (b u * a v + a u * b v - b u * b v)%u64.

(** The compound assignments, statement by statement, on operands that are
    two objects (as in every call of the program; see [Tmul_assign_at] for
    [x *= x]). *)
Definition Tadd_assign (u v : T) : T :=
  let u := mkT (a u + a v)%u64 (b u) in
  mkT (a u) (b u + b v)%u64.
Definition Tsub_assign (u v : T) : T :=
  let u := mkT (a u - a v)%u64 (b u) in
  mkT (a u) (b u - b v)%u64.
Definition Tmul_assign (u v : T) : T :=
  let tmp := a u in
  let u := mkT (a u * a v - b u * b v)%u64 (b u) in
  mkT (a u) (b u * a v + tmp * b v - b u * b v)%u64.

Declare Scope T_scope.
Delimit Scope T_scope with T.
Bind Scope T_scope with T.
Infix "+" := Tadd : T_scope.
Infix "-" := Tsub : T_scope.
Infix "*" := Tmul : T_scope.
Notation "- x" := (Topp x) : T_scope.
Notation "0" := T0 : T_scope.
Notation "1" := T1 : T_scope.

(** * Memory, loops and partiality *)

(** A [T*] is an address; memory maps addresses to cells. *)
Definition mem : Type := nat -> T.

Definition upd (M : mem) (x : nat) (v : T) : mem :=
  fun y => if Nat.eqb y x then v else M y.

Notation "M .[ x ]" := (M x%nat)
  (at level 1, x at level 200, left associativity, only parsing).

(** The compound assignments on two objects u and v of the memory, which may
    be one and the same object: every statement reads v as the statements
    before it have left it. *)
Definition Tadd_assign_at (u v : nat) (M : mem) : mem :=
  let M := upd M u (mkT (a (M u) + a (M v))%u64 (b (M u))) in
  upd M u (mkT (a (M u)) (b (M u) + b (M v))%u64).
Definition Tsub_assign_at (u v : nat) (M : mem) : mem :=
  let M := upd M u (mkT (a (M u) - a (M v))%u64 (b (M u))) in
  upd M u (mkT (a (M u)) (b (M u) - b (M v))%u64).
Definition Tmul_assign_at (u v : nat) (M : mem) : mem :=
  let tmp := a (M u) in
  let M := upd M u (mkT (a (M u) * a (M v) - b (M u) * b (M v))%u64 (b (M u))) in
  upd M u (mkT (a (M u)) (b (M u) * a (M v) + tmp * b (M v) - b (M u) * b (M v))%u64).

(** [for (i = 0; i < n; ++i) body]. *)
Fixpoint for_loop {A : Type} (n : nat) (body : nat -> A -> A) (s : A) : A :=
  match n with
  | O => s
  | S k => body k (for_loop k body s)
  end.

(** [for (i = lo; i < hi; ++i) body]. *)
Definition for_range {A : Type} (lo hi : nat) (body : nat -> A -> A) (s : A) : A :=
  for_loop (hi - lo) (fun k => body (lo + k)) s.

(** The same loop with a body that may fail to return. *)
Fixpoint for_loop_opt {A : Type} (n : nat) (body : nat -> A -> option A) (s : A)
  : option A :=
  match n with
  | O => Some s
  | S k => match for_loop_opt k body s with
           | Some s' => body k s'
           | None => None
           end
  end.

(** [while (cond) body], cut after [fuel] tests of the condition. *)
Fixpoint while_loop {A : Type} (fuel : nat) (cond : A -> bool) (body : A -> A) (s : A)
  : option A :=
  match fuel with
  | O => None
  | S f => if cond s then while_loop f cond body (body s) else Some s
  end.

Notation "x <- e ;; f" := (match e with Some x => f | None => None end)
  (at level 61, e at next level, right associativity).

(** * The routines of class Conv64 *)

(** [twiddle(p, m, t, to)]: x^t * p in T[x]/(x^m - omega), 0 <= t <= 3m. *)
Definition twiddle (p m t to : nat) (M : mem) : mem :=
  if (t =? 0) || (t =? 3 * m) then
    for_loop m (fun j M => upd M (to + j) (M.[p + j])) M
  else
    let '(tt_, mult) :=
      if t <? m then (t, T1)
      else if t <? 2 * m then (t - m, OMEGA)
      else (t - 2 * m, OMEGA2) in
    let M := for_loop tt_ (fun j M =>
               upd M (to + j) (M.[p + (m - tt_ + j)] * OMEGA * mult)) M in
    for_range tt_ m (fun j M => upd M (to + j) (M.[p + (j - tt_)] * mult)) M.

(** The butterfly of [fftdif] for one i: the loop over j and the two twiddles. *)
Definition dif_butterfly (tmp p m r pos1 pos2 i : nat) (M : mem) : mem :=
  let M := for_loop m (fun j M =>
    let M := upd M (tmp + j)
      (M.[p + (i*m + j)] + M.[p + (pos1 + i*m + j)] + M.[p + (pos2 + i*m + j)]) in
    let M := upd M (tmp + (m + j))
      (M.[p + (i*m + j)] + OMEGA * M.[p + (pos1 + i*m + j)]
                         + OMEGA2 * M.[p + (pos2 + i*m + j)]) in
    let M := upd M (tmp + (2*m + j))
      (M.[p + (i*m + j)] + OMEGA2 * M.[p + (pos1 + i*m + j)]
                         + OMEGA * M.[p + (pos2 + i*m + j)]) in
    upd M (p + (i*m + j)) (M.[tmp + j])) M in
  let M := twiddle (tmp + m) m (3*i*m/r) (p + pos1 + i*m) M in
  twiddle (tmp + 2*m) m (6*i*m/r) (p + pos2 + i*m) M.

Fixpoint fftdif (fuel : nat) (tmp p m r : nat) (M : mem) : option mem :=
  match fuel with
  | O => None
  | S fuel' =>
    if r =? 1 then Some M else
    let rr := r / 3 in
    let pos1 := m * rr in
    let pos2 := 2 * m * rr in
    let M := for_loop rr (dif_butterfly tmp p m r pos1 pos2) M in
    M <- fftdif fuel' tmp p m rr M ;;
    M <- fftdif fuel' tmp (p + pos1) m rr M ;;
    fftdif fuel' tmp (p + pos2) m rr M
  end.

(** The butterfly of [fftdit] for one i. *)
Definition dit_butterfly (tmp p m r pos1 pos2 i : nat) (M : mem) : mem :=
  let M := twiddle (p + pos1 + i*m) m (3*m - 3*i*m/r) (tmp + m) M in
  let M := twiddle (p + pos2 + i*m) m (3*m - 6*i*m/r) (tmp + 2*m) M in
  for_loop m (fun j M =>
    let M := upd M (tmp + j) (M.[p + (i*m + j)]) in
    let M := upd M (p + (i*m + j))
      (M.[tmp + j] + M.[tmp + (m + j)] + M.[tmp + (2*m + j)]) in
    let M := upd M (p + (i*m + pos1 + j))
      (M.[tmp + j] + OMEGA2 * M.[tmp + (m + j)] + OMEGA * M.[tmp + (2*m + j)]) in
    upd M (p + (i*m + pos2 + j))
      (M.[tmp + j] + OMEGA * M.[tmp + (m + j)] + OMEGA2 * M.[tmp + (2*m + j)])) M.

Fixpoint fftdit (fuel : nat) (tmp p m r : nat) (M : mem) : option mem :=
  match fuel with
  | O => None
  | S fuel' =>
    if r =? 1 then Some M else
    let rr := r / 3 in
    let pos1 := m * rr in
    let pos2 := 2 * m * rr in
    M <- fftdit fuel' tmp p m rr M ;;
    M <- fftdit fuel' tmp (p + pos1) m rr M ;;
    M <- fftdit fuel' tmp (p + pos2) m rr M ;;
    Some (for_loop rr (dit_butterfly tmp p m r pos1 pos2) M)
  end.

(** [T inv = 1; for (i = 1; i < r; i *= 3) inv *= INV3;] *)
Definition inv_pow (fuel r : nat) : option T :=
  s <- while_loop fuel (fun s : nat * T => fst s <? r)
         (fun s => (fst s * 3, Tmul_assign (snd s) INV3)) (1, T1) ;;
  Some (snd s).

(** The grade-school branch of [mul] (n <= 27). *)
Definition mul_base (p q n to : nat) (M : mem) : mem :=
  let M := for_loop n (fun i M => upd M (to + i) 0) M in
  for_loop n (fun i M =>
    let M := for_loop (n - i) (fun j M =>
               upd M (to + (i + j)) (Tadd_assign (M.[to + (i + j)]) (M.[p + i] * M.[q + j]))) M in
    for_range (n - i) n (fun j M =>
      upd M (to + (i + j - n))
        (Tadd_assign (M.[to + (i + j - n)]) (M.[p + i] * M.[q + j] * OMEGA))) M) M.

(** The last part of [mul]: Chinese remaindering and the division by 3. *)
Definition mul_crt (q n m r to : nat) (M : mem) : mem :=
  let M := for_loop n (fun i M => upd M (to + i) 0) M in
  let M := for_loop r (fun i M =>
    for_loop m (fun j M =>
      let M := upd M (to + (i*m + j))
        (Tadd_assign (M.[to + (i*m + j)])
           ((1 - OMEGA) * M.[to + (n + i*m + j)]
            + (1 - OMEGA2) * conj (M.[q + (i*m + j)]))) in
      if i*m + m + j <? n then
        upd M (to + (i*m + m + j))
          (Tadd_assign (M.[to + (i*m + m + j)])
             ((OMEGA2 - OMEGA) * (M.[to + (n + i*m + j)] - conj (M.[q + (i*m + j)]))))
      else
        upd M (to + (i*m + m + j - n))
          (Tadd_assign (M.[to + (i*m + m + j - n)])
             ((1 - OMEGA2) * (M.[to + (n + i*m + j)] - conj (M.[q + (i*m + j)]))))) M) M in
  for_loop n (fun i M => upd M (to + i) (Tmul_assign (M.[to + i]) INV3)) M.

(** The head of the recursive branch of [mul]: the split n = m * r and the
    constant [inv]. *)
Definition mul_split (fuel n : nat) : option (nat * nat * T) :=
  m <- while_loop fuel (fun m => m * m <? n) (fun m => m * 3) 1 ;;
  let r := n / m in
  inv <- inv_pow fuel r ;;
  Some (m, r, inv).

(** [mul(p, q, n, to)]: the product in T[x]/(x^n - omega). *)
Fixpoint mul (fuel : nat) (tmp p q n to : nat) (M : mem) : option mem :=
  match fuel with
  | O => None
  | S fuel' =>
    if n <=? 27 then Some (mul_base p q n to M) else
    s <- mul_split fuel' n ;;
    let '(m, r, inv) := s in
    (* the product in (T[x]/(x^m - omega))[y]/(y^r - omega) *)
    let M := for_loop r (fun i M =>
      let M := twiddle (p + m*i) m (m/r*i) (to + m*i) M in
      twiddle (q + m*i) m (m/r*i) (to + n + m*i) M) M in
    M <- fftdif fuel' tmp to m r M ;;
    M <- fftdif fuel' tmp (to + n) m r M ;;
    M <- for_loop_opt r (fun i M =>
           mul fuel' tmp (to + m*i) (to + n + m*i) m (to + 2*n + m*i) M) M ;;
    M <- fftdit fuel' tmp (to + 2*n) m r M ;;
    let M := for_loop n (fun i M =>
      upd M (to + (2*n + i)) (Tmul_assign (M.[to + (2*n + i)]) inv)) M in
    let M := for_loop r (fun i M =>
      twiddle (to + 2*n + m*i) m (3*m - m/r*i) (to + n + m*i) M) M in
    (* the product in (T[x]/(x^m - omega^2))[y]/(y^r - omega) *)
    let M := for_loop r (fun i M =>
      let M := for_loop m (fun j M =>
        let M := upd M (p + (m*i + j)) (conj (M.[p + (m*i + j)])) in
        upd M (q + (m*i + j)) (conj (M.[q + (m*i + j)]))) M in
      let M := twiddle (p + m*i) m (2*m/r*i) (to + m*i) M in
      twiddle (q + m*i) m (2*m/r*i) (p + m*i) M) M in
    M <- fftdif fuel' tmp to m r M ;;
    M <- fftdif fuel' tmp p m r M ;;
    M <- for_loop_opt r (fun i M =>
           mul fuel' tmp (to + m*i) (p + m*i) m (to + 2*n + m*i) M) M ;;
    M <- fftdit fuel' tmp (to + 2*n) m r M ;;
    let M := for_loop n (fun i M =>
      upd M (to + (2*n + i)) (Tmul_assign (M.[to + (2*n + i)]) inv)) M in
    let M := for_loop r (fun i M =>
      twiddle (to + 2*n + m*i) m (3*m - 2*m/r*i) (q + m*i) M) M in
    Some (mul_crt q n m r to M)
  end.

(** The Chinese remaindering of [multiply_cyclic_raw]; [pp] holds the product
    in the omega branch. *)
Definition cyclic_crt (pp n m r to : nat) (M : mem) : mem :=
  let M := for_loop n (fun i M => upd M (to + i) 0) M in
  for_loop r (fun i M =>
    for_loop m (fun j M =>
      let M := upd M (to + (i*m + j))
        (Tadd_assign (M.[to + (i*m + j)])
           ((1 - OMEGA) * M.[pp + (i*m + j)]
            + (1 - OMEGA2) * conj (M.[pp + (i*m + j)]))) in
      if i*m + m + j <? n then
        upd M (to + (i*m + m + j))
          (Tadd_assign (M.[to + (i*m + m + j)])
             ((OMEGA2 - OMEGA) * (M.[pp + (i*m + j)] - conj (M.[pp + (i*m + j)]))))
      else
        upd M (to + (i*m + m + j - n))
          (Tadd_assign (M.[to + (i*m + m + j - n)])
             ((OMEGA2 - OMEGA) * (M.[pp + (i*m + j)] - conj (M.[pp + (i*m + j)]))))) M) M.

(** [multiply_cyclic_raw] up to the Chinese remaindering: the memory in which
    [to[0..n)] holds three times the product.  The buffer [buf] is freshly
    allocated, every cell built by [T()]; it starts at address 0. *)
Definition multiply_cyclic_mem (fuel : nat) (p q : list u64) (n : nat)
  : option (nat * mem) :=
  m <- while_loop fuel (fun m => m * m <=? n) (fun m => m * 3) 1 ;;
  let m := m / 3 in
  let r := n / m in
  inv <- inv_pow fuel r ;;
  let buf := 0 in
  let M : mem := fun _ => T0 in
  let pp := buf in
  let qq := buf + n in
  let to := buf + 2*n in
  let tmp := buf + 3*n + 3*m in
  let M := for_loop n (fun i M =>
    let M := upd M (pp + i) (T_of (nth i p 0%u64)) in
    upd M (qq + i) (T_of (nth i q 0%u64))) M in
  M <- fftdif fuel tmp pp m r M ;;
  M <- fftdif fuel tmp qq m r M ;;
  M <- for_loop_opt r (fun i M => mul fuel tmp (pp + i*m) (qq + i*m) m (to + i*m) M) M ;;
  M <- fftdit fuel tmp to m r M ;;
  let M := for_loop n (fun i M => upd M (pp + i) (M.[to + i] * inv)) M in
  Some (to, cyclic_crt pp n m r to M).

(** [multiply_cyclic_raw(p, q, n, target)]: the contents of [target[0..n)]. *)
Definition multiply_cyclic_raw (fuel : nat) (p q : list u64) (n : nat)
  : option (list u64) :=
  tM <- multiply_cyclic_mem fuel p q n ;;
  Some (map (fun i => a ((snd tM).[fst tM + i] * INV3)) (seq 0 n)).

(** [vector::resize]: cut to [n] elements or fill up with value-initialised ones. *)
Definition resize {A : Type} (d : A) (n : nat) (l : list A) : list A :=
  firstn n l ++ repeat d (n - length l).

(** [size_t] arithmetic of [multiply], which wraps around. *)
Definition wrap64 (z : Z) : Z := z mod M64.

(** The locals of [multiply] next to its two arguments. *)
Record frame : Type := mkFrame {
  arg_p : list Z;
  arg_q : list Z;
  loc_pp : list u64;
  loc_qq : list u64;
  loc_res : list Z
}.

Definition multiply_frame (fuel : nat) (f : frame) : option frame :=
  let psize := Z.of_nat (length (arg_p f)) in
  let qsize := Z.of_nat (length (arg_q f)) in
  let f := mkFrame (arg_p f) (arg_q f) (map u64_of (arg_p f)) (loc_qq f) (loc_res f) in
  let f := mkFrame (arg_p f) (arg_q f) (loc_pp f) (map u64_of (arg_q f)) (loc_res f) in
  s <- while_loop fuel (fun s => s <? wrap64 (wrap64 (psize + qsize) - 1))%Z
         (fun s => wrap64 (s * 3)) 1%Z ;;
  let f := mkFrame (arg_p f) (arg_q f) (resize 0%u64 (Z.to_nat s) (loc_pp f))
             (resize 0%u64 (Z.to_nat s) (loc_qq f)) (loc_res f) in
  target <- multiply_cyclic_raw fuel (loc_pp f) (loc_qq f) (length (loc_pp f)) ;;
  let f := mkFrame (arg_p f) (arg_q f) (loc_pp f) (loc_qq f) (map Zmod.signed target) in
  Some (mkFrame (arg_p f) (arg_q f) (loc_pp f) (loc_qq f)
          (resize 0%Z (Z.to_nat (wrap64 (wrap64 (psize + qsize) - 1))) (loc_res f))).

(** [multiply(p, q)]: the returned vector. *)
Definition multiply (fuel : nat) (p q : list Z) : option (list Z) :=
  f <- multiply_frame fuel (mkFrame p q [] [] []) ;;
  Some (loc_res f).

(** * [multiply] on the heap *)











(** * The vocabulary of the specifications *)

(** The element 3 of T, as the Chinese remaindering produces it. *)
Definition T3 : T := (1 + 1 + 1)%T.

(** Powers of omega, by the exponent modulo 3. *)
Definition wpow (e : Z) : T :=
  match (e mod 3)%Z with
  | 0%Z => 1%T
  | 1%Z => OMEGA
  | _ => OMEGA2
  end.

(** Natural numbers in T. *)
Definition Tnat (n : nat) : T := T_of (u64_of (Z.of_nat n)).

(** The sum of f 0, ..., f (n-1) in T. *)
Fixpoint Tsum (n : nat) (f : nat -> T) : T :=
  match n with
  | O => 0%T
  | S k => (Tsum k f + f k)%T
  end.

(** A block u_0 .. u_(m-1) stands for the polynomial sum_j u_j x^j.  Its
    coefficient function is continued to all of Z by the rule x^m = omega^tau:
    [ext tau m u k] is the coefficient that x^(-k) * u has at x^0. *)
Definition ext (tau : Z) (m : nat) (u : nat -> T) (k : Z) : T :=
  (wpow (- tau * (k / Z.of_nat m)) * u (Z.to_nat (k mod Z.of_nat m)))%T.

(** x^t * u modulo x^m - omega^tau, for every integer t. *)
Definition shift (tau : Z) (m : nat) (t : Z) (u : nat -> T) : nat -> T :=
  fun j => ext tau m u (Z.of_nat j - t).

(** The product of two blocks modulo x^m - omega^tau. *)
Definition pmul (tau : Z) (m : nat) (u v : nat -> T) : nat -> T :=
  fun k => Tsum m (fun i => u i * ext tau m v (Z.of_nat k - Z.of_nat i))%T.

(** The cells from address p on, as a block. *)
Definition rd (M : mem) (p : nat) : nat -> T := fun j => M (p + j).

(** The i-th block of length m of a buffer. *)
Definition blk (m : nat) (X : nat -> T) (i : nat) : nat -> T := fun j => X (i * m + j).

(** What the loop of [fftdif] leaves in the third d of the buffer
    (d = 0, 1, 2), at offset K = i*m + j of that third. *)
Definition dif_bfly (m r : nat) (X : nat -> T) (d : nat) : nat -> T := fun K =>
  let rr := r / 3 in
  let i := K / m in
  let j := K mod m in
  let x0 := fun j => X (i * m + j) in
  let x1 := fun j => X (m * rr + i * m + j) in
  let x2 := fun j => X (2 * m * rr + i * m + j) in
  match d with
  | 0 => (x0 j + x1 j + x2 j)%T
  | 1 => shift 1 m (Z.of_nat (3 * i * m / r)) (fun j => x0 j + OMEGA * x1 j + OMEGA2 * x2 j)%T j
  | _ => shift 1 m (Z.of_nat (6 * i * m / r)) (fun j => x0 j + OMEGA2 * x1 j + OMEGA * x2 j)%T j
  end.

(** [fftdif] on a buffer of 3^k blocks. *)
Fixpoint dif_spec (k m : nat) (X : nat -> T) : nat -> T :=
  match k with
  | O => X
  | S k' => fun K =>
      let N := m * 3 ^ k' in
      dif_spec k' m (dif_bfly m (3 * 3 ^ k') X (K / N)) (K mod N)
  end.

(** What the loop of [fftdit] computes from the buffer Z. *)
Definition dit_bfly (m r : nat) (Z : nat -> T) : nat -> T := fun K =>
  let rr := r / 3 in
  let d := K / (m * rr) in
  let i := (K mod (m * rr)) / m in
  let j := K mod m in
  let t0 := Z (i * m + j) in
  let t1 := shift 1 m (Z.of_nat (3 * m - 3 * i * m / r)) (fun j => Z (m * rr + i * m + j)) j in
  let t2 := shift 1 m (Z.of_nat (3 * m - 6 * i * m / r)) (fun j => Z (2 * m * rr + i * m + j)) j in
  match d with
  | 0 => (t0 + t1 + t2)%T
  | 1 => (t0 + OMEGA2 * t1 + OMEGA * t2)%T
  | _ => (t0 + OMEGA * t1 + OMEGA2 * t2)%T
  end.

(** [fftdit] on a buffer of 3^k blocks. *)
Fixpoint dit_spec (k m : nat) (Y : nat -> T) : nat -> T :=
  match k with
  | O => Y
  | S k' =>
      let N := m * 3 ^ k' in
      dit_bfly m (3 * 3 ^ k')
        (fun K => dit_spec k' m (fun K' => Y (K / N * N + K')) (K mod N))
  end.

(** The frequency that ends at position pos of the 3-reversed output. *)
Fixpoint freq (k pos : nat) : nat :=
  match k with
  | O => 0
  | S k' => 3 * freq k' (pos mod 3 ^ k') + pos / 3 ^ k'
  end.

(** The value of the polynomial sum_i X_i y^i at y = x^E, in T[x]/(x^m - omega). *)
Definition evalY (m r : nat) (X : nat -> T) (E : Z) : nat -> T :=
  fun j => Tsum r (fun i => shift 1 m (E * Z.of_nat i) (blk m X i) j).

(** A buffer Y of r blocks of length m is the polynomial sum_l Y_l y^l; its
    block function is continued to all integers l by the rule
    y^r = omega^sigma. *)
Definition bext (sigma : Z) (m r : nat) (Y : nat -> T) (l : Z) : nat -> T :=
  fun j => ext sigma (r * m) Y (l * Z.of_nat m + Z.of_nat j).

(** The product in (T[x]/(x^m - omega^tau))[y]/(y^r - omega^sigma). *)
Definition yconv (sigma tau : Z) (m r : nat) (X Y : nat -> T) : nat -> T :=
  fun K => Tsum r (fun i =>
    pmul tau m (blk m X i) (bext sigma m r Y (Z.of_nat (K / m) - Z.of_nat i)) (K mod m)).

(** Twisting the blocks by powers of x^c, where x^(c*r) = omega^sigma, carries
    the cyclic product in y over to the product modulo y^r - omega^sigma. *)
Definition twist (m : nat) (c : Z) (X : nat -> T) : nat -> T :=
  fun K => shift 1 m (c * Z.of_nat (K / m)) (blk m X (K / m)) (K mod m).

(** The product of two blocks as polynomials has degree below 2m: [lo] holds
    the coefficients of x^j and [hi] those of x^(m+j), j < m. *)
Definition lo (m : nat) (u v : nat -> T) : nat -> T :=
  fun j => Tsum m (fun i => if i <=? j then u i * v (j - i)%nat else 0)%T.

(** The coefficients of x^(m+j). *)
Definition hi (m : nat) (u v : nat -> T) : nat -> T :=
  fun j => Tsum m (fun i => if i <=? j then 0 else u i * v (j + m - i)%nat)%T.

(** The same halves for the product of two polynomials in y, with y^r = omega^sigma. *)
Definition Lsum (sigma : Z) (m r : nat) (X Y : nat -> T) (k : Z) : nat -> T :=
  fun j => Tsum r (fun i => lo m (blk m X i) (bext sigma m r Y (k - Z.of_nat i)) j).

(** The high halves likewise. *)
Definition Hsum (sigma : Z) (m r : nat) (X Y : nat -> T) (k : Z) : nat -> T :=
  fun j => Tsum r (fun i => hi m (blk m X i) (bext sigma m r Y (k - Z.of_nat i)) j).

(** The n-th power in T, multiplying on the right as [inv *= INV3] does. *)
Fixpoint Tpow (u : T) (n : nat) : T :=
  match n with
  | O => 1%T
  | S k => (Tpow u k * u)%T
  end.

(** The n cells from x on and the k cells from y on do not overlap. *)
Definition disj (x n y k : nat) : Prop := x + n <= y \/ y + k <= x.

(** Round (i, j) of the Chinese remaindering loops of [mul] and
    [multiply_cyclic_raw], with the three added values as parameters. *)
Definition crt_body (n m to : nat) (g1 g2 g3 : nat -> nat -> mem -> T)
  (i j : nat) (M : mem) : mem :=
  let M := upd M (to + (i*m + j)) (Tadd_assign (M.[to + (i*m + j)]) (g1 i j M)) in
  if i*m + m + j <? n then
    upd M (to + (i*m + m + j)) (Tadd_assign (M.[to + (i*m + m + j)]) (g2 i j M))
  else
    upd M (to + (i*m + m + j - n)) (Tadd_assign (M.[to + (i*m + m + j - n)]) (g3 i j M)).

(** What round (i, j) adds to the cell x. *)
Definition crt_contrib (n m to : nat) (f1 f2 f3 : nat -> nat -> T) (i j x : nat) : T :=
  ((if x =? to + (i*m + j) then f1 i j else 0)
   + (if i*m + m + j <? n
      then (if x =? to + (i*m + m + j) then f2 i j else 0)
      else (if x =? to + (i*m + m + j - n) then f3 i j else 0)))%T.

(** The cells [mul] may use from [to] on, for n = 3^a: the result and, in
    the recursive branch, 2n + 3m cells of scratch space (m = 3^ceil(a/2)). *)
Definition mul_cells (a : nat) : nat :=
  if a <=? 3 then 3 ^ a else 3 * 3 ^ a + 3 * 3 ^ ((a + 1) / 2).

(** The cells [mul] may use from [tmp] on. *)
Definition mul_tmp_cells (a : nat) : nat :=
  if a <=? 3 then 0 else 3 * 3 ^ ((a + 1) / 2).

(** Two regions that share no cell. *)
Definition sep (x n y k : nat) : Prop := n = 0 \/ k = 0 \/ x + n <= y \/ y + k <= x.

(** [mul] is right for n = 3^a with this much fuel. *)
Definition mul_ok (a fuel : nat) : Prop :=
  forall tmp p q to (M : mem),
    sep p (3 ^ a) q (3 ^ a) -> sep p (3 ^ a) to (mul_cells a) -> sep q (3 ^ a) to (mul_cells a) ->
    sep tmp (mul_tmp_cells a) p (3 ^ a) -> sep tmp (mul_tmp_cells a) q (3 ^ a) ->
    sep tmp (mul_tmp_cells a) to (mul_cells a) ->
    exists M', mul fuel tmp p q (3 ^ a) to M = Some M'
      /\ (forall K, K < 3 ^ a -> M' (to + K) = pmul 1 (3 ^ a) (rd M p) (rd M q) K)
      /\ (forall x, ~ (p <= x < p + 3 ^ a) -> ~ (q <= x < q + 3 ^ a) ->
            ~ (to <= x < to + mul_cells a) -> ~ (tmp <= x < tmp + mul_tmp_cells a) ->
            M' x = M x).

(** A vector of R as a polynomial over T. *)
Definition embed (l : list u64) : nat -> T := fun i => T_of (nth i l 0%u64).

(** The sum of f 0, ..., f (n-1) in Z. *)
Fixpoint Zsum (n : nat) (f : nat -> Z) : Z :=
  match n with
  | O => 0
  | S k => Zsum k f + f k
  end.

(** The k-th coefficient of the product of p and q in Z[x]: the sum of
    p[i] * q[j] over i + j = k (entries past the end of a vector count as 0). *)
Definition lin_conv (p q : list Z) (k : nat) : Z :=
  Zsum (S k) (fun i => nth i p 0 * nth (k - i) q 0)%Z.

(** What [multiply] returns on vectors that are not empty. *)
Definition product (p q : list Z) : list Z :=
  map (fun k => Zmod.signed (u64_of (lin_conv p q k))) (seq 0 (length p + length q - 1)).

(** The K-th coefficient of p * q reduced modulo x^n - omega: the products
    with i + j = K, and omega times those with i + j = K + n. *)
Definition mulmod (n : nat) (P Q : nat -> T) (K : nat) : T :=
  Tsum n (fun i => Tsum n (fun j =>
    (if i + j =? K then P i * Q j else 0)
    + (if i + j =? K + n then OMEGA * (P i * Q j) else 0)))%T.

(** An element of T without omega component. *)
Definition pure (u : T) : Prop := b u = 0%u64.

(** The monomial x^t as a block. *)
Definition monomial (t : nat) : nat -> T := fun i => if i =? t then 1%T else 0%T.


(** A memory for the examples: cell x holds x. *)
Definition count_mem : mem := fun x => T_of (u64_of (Z.of_nat x)).

(** The sum of f 0, ..., f (n-1) in R. *)
Fixpoint usum (n : nat) (f : nat -> u64) : u64 :=
  match n with
  | O => 0%u64
  | S k => (usum k f + f k)%u64
  end.

(** The K-th coefficient of p * q modulo x^n - 1 over R: the sum of
    p[i] * q[j] over the i, j < n with i + j = K modulo n. *)
Definition cyc_conv (n : nat) (p q : list u64) (K : nat) : u64 :=
  usum n (fun i => usum n (fun j =>
    if (i + j) mod n =? K then (nth i p 0 * nth j q 0)%u64 else 0%u64)).

(** * T is a commutative ring *)

Add Ring u64_ring : (Zmod.ring_theory M64).

Lemma Tadd_assign_eq u v : Tadd_assign u v = Tadd u v.
Proof. reflexivity. Qed.

Lemma Tmul_assign_eq u v : Tmul_assign u v = Tmul u v.
Proof. reflexivity. Qed.

Ltac T_crush :=
  intros;
  repeat match goal with u : T |- _ =>
    let x := fresh "x" in let y := fresh "y" in destruct u as [x y] end;
  unfold Tadd, Tsub, Tmul, Topp, conj, T0, T1, OMEGA; unfold T_of; cbn [a b];
  f_equal; ring.

Lemma T_ring_theory : ring_theory T0 T1 Tadd Tmul Tsub Topp (@eq T).
Proof.
  constructor; T_crush.
Qed.

Add Ring T_ring : T_ring_theory.

Lemma OMEGA2_eq : OMEGA2 = (OMEGA * OMEGA)%T.
Proof. reflexivity. Qed.

Lemma OMEGA2_opp : OMEGA2 = (- (1 + OMEGA))%T.
Proof. reflexivity. Qed.

Lemma OMEGA_cube : (OMEGA * OMEGA * OMEGA)%T = 1%T.
Proof. reflexivity. Qed.

Lemma OMEGA_OMEGA2 : (OMEGA * OMEGA2)%T = 1%T.
Proof. reflexivity. Qed.

Lemma OMEGA2_OMEGA2 : (OMEGA2 * OMEGA2)%T = OMEGA.
Proof. reflexivity. Qed.

Lemma OMEGA_sum : (1 + OMEGA + OMEGA2)%T = 0%T.
Proof. reflexivity. Qed.

Lemma T3_INV3 : (T3 * INV3)%T = 1%T.
Proof. reflexivity. Qed.

Lemma conj_add u v : conj (u + v) = (conj u + conj v)%T.
Proof. T_crush. Qed.

Lemma conj_sub u v : conj (u - v) = (conj u - conj v)%T.
Proof. T_crush. Qed.

Lemma conj_mul u v : conj (u * v) = (conj u * conj v)%T.
Proof. T_crush. Qed.

Lemma conj_conj u : conj (conj u) = u.
Proof. T_crush. Qed.

Lemma conj_0 : conj 0 = 0%T.
Proof. reflexivity. Qed.

Lemma conj_1 : conj 1 = 1%T.
Proof. reflexivity. Qed.

Lemma conj_OMEGA : conj OMEGA = OMEGA2.
Proof. reflexivity. Qed.

Lemma conj_OMEGA2 : conj OMEGA2 = OMEGA.
Proof. reflexivity. Qed.

Lemma conj_T_of x : conj (T_of x) = T_of x.
Proof. unfold conj, T_of; cbn [a b]. f_equal; ring. Qed.

Lemma wpow_cases e :
  ((e mod 3 = 0)%Z /\ wpow e = 1%T) \/ ((e mod 3 = 1)%Z /\ wpow e = OMEGA)
  \/ ((e mod 3 = 2)%Z /\ wpow e = OMEGA2).
Proof.
  pose proof (Z.mod_pos_bound e 3 ltac:(lia)).
  assert (H1 : (e mod 3 = 0 \/ e mod 3 = 1 \/ e mod 3 = 2)%Z) by lia.
  unfold wpow. destruct H1 as [H1|[H1|H1]]; rewrite H1; auto.
Qed.

Lemma wpow_mod e1 e2 : (e1 mod 3 = e2 mod 3)%Z -> wpow e1 = wpow e2.
Proof. unfold wpow. intros ->. reflexivity. Qed.

Lemma wpow_add e1 e2 : wpow (e1 + e2) = (wpow e1 * wpow e2)%T.
Proof.
  destruct (wpow_cases e1) as [[H1 ->]|[[H1 ->]|[H1 ->]]];
  destruct (wpow_cases e2) as [[H2 ->]|[[H2 ->]|[H2 ->]]];
  unfold wpow; rewrite Z.add_mod, H1, H2 by lia; reflexivity.
Qed.

Lemma wpow_0 : wpow 0 = 1%T.
Proof. reflexivity. Qed.

Lemma wpow_1 : wpow 1 = OMEGA.
Proof. reflexivity. Qed.

Lemma wpow_2 : wpow 2 = OMEGA2.
Proof. reflexivity. Qed.

Lemma wpow_3 k : wpow (3 * k) = 1%T.
Proof. rewrite (wpow_mod (3*k) 0); auto. rewrite Z.mul_comm, Z.mod_mul by lia. reflexivity. Qed.

Lemma wpow_opp e : (wpow e * wpow (- e))%T = 1%T.
Proof. rewrite <- wpow_add. replace (e + - e)%Z with 0%Z by lia. reflexivity. Qed.

Lemma conj_wpow e : conj (wpow e) = wpow (2 * e).
Proof.
  destruct (wpow_cases e) as [[H1 ->]|[[H1 ->]|[H1 ->]]];
  unfold wpow; rewrite Z.mul_mod, H1 by lia; reflexivity.
Qed.

Lemma wpow_lit3 : wpow 3 = 1%T.
Proof. reflexivity. Qed.

(** Evaluate [wpow] at closed exponents between 0 and 3. *)
Ltac wpow_eval :=
  repeat match goal with
  | |- context [wpow ?e] =>
      let e' := eval vm_compute in e in progress change (wpow e) with (wpow e')
  end;
  rewrite ?wpow_0, ?wpow_1, ?wpow_2, ?wpow_lit3.

(** Identities that need omega^2 + omega + 1 = 0: name every foreign subterm,
    then compare components. *)
Ltac T_atoms :=
  repeat match goal with
  | |- context [?t] =>
      lazymatch type of t with T => idtac | _ => fail end;
      lazymatch t with
      | Tadd _ _ => fail | Tmul _ _ => fail | Tsub _ _ => fail | Topp _ => fail
      | conj _ => fail | T0 => fail | T1 => fail | OMEGA => fail | OMEGA2 => fail
      | INV3 => fail | T_of _ => fail | mkT _ _ => fail
      | _ => idtac
      end;
      tryif is_var t then fail else (let x := fresh "t" in generalize t; intro x)
  end.

Ltac T_omega := rewrite ?OMEGA2_eq; T_atoms; T_crush.


(** * Finite sums in T *)

Lemma Tsum_ext n f g : (forall i, i < n -> f i = g i) -> Tsum n f = Tsum n g.
Proof.
  induction n as [|n IH]; intros H; cbn; [reflexivity|].
  rewrite IH, H by auto with arith. reflexivity.
Qed.

Lemma Tsum_zero n f : (forall i, i < n -> f i = 0%T) -> Tsum n f = 0%T.
Proof.
  induction n as [|n IH]; intros H; cbn; [reflexivity|].
  rewrite IH, H by auto with arith. ring.
Qed.

Lemma Tsum_add n f g : Tsum n (fun i => f i + g i)%T = (Tsum n f + Tsum n g)%T.
Proof. induction n as [|n IH]; cbn; [ring|]. rewrite IH. ring. Qed.

Lemma Tsum_sub n f g : Tsum n (fun i => f i - g i)%T = (Tsum n f - Tsum n g)%T.
Proof. induction n as [|n IH]; cbn; [ring|]. rewrite IH. ring. Qed.

Lemma Tsum_mul_l n c f : Tsum n (fun i => c * f i)%T = (c * Tsum n f)%T.
Proof. induction n as [|n IH]; cbn; [ring|]. rewrite IH. ring. Qed.

Lemma Tsum_mul_r n c f : Tsum n (fun i => f i * c)%T = (Tsum n f * c)%T.
Proof. induction n as [|n IH]; cbn; [ring|]. rewrite IH. ring. Qed.

Lemma Tsum_conj n f : conj (Tsum n f) = Tsum n (fun i => conj (f i)).
Proof. induction n as [|n IH]; cbn; [reflexivity|]. rewrite conj_add, IH. reflexivity. Qed.

Lemma Tsum_swap n m (f : nat -> nat -> T) :
  Tsum n (fun i => Tsum m (fun j => f i j)) = Tsum m (fun j => Tsum n (fun i => f i j)).
Proof.
  induction n as [|n IH]; cbn.
  - symmetry. apply Tsum_zero. reflexivity.
  - rewrite IH, <- Tsum_add. reflexivity.
Qed.

Lemma Tsum_app n m f : Tsum (n + m) f = (Tsum n f + Tsum m (fun i => f (n + i)%nat))%T.
Proof.
  induction m as [|m IH].
  - rewrite Nat.add_0_r. cbn. ring.
  - rewrite Nat.add_succ_r. cbn. rewrite IH. ring.
Qed.

Lemma Tsum_delta n j0 f :
  j0 < n -> Tsum n (fun j => if j =? j0 then f j else 0%T) = f j0.
Proof.
  induction n as [|n IH]; intros H; [lia|]. cbn.
  destruct (Nat.eqb_spec n j0) as [->|Hne].
  - rewrite Tsum_zero; [ring|].
    intros i Hi. destruct (Nat.eqb_spec i j0); [lia|reflexivity].
  - rewrite IH by lia. ring.
Qed.

Lemma Tsum_flatten r m f :
  Tsum (r * m) f = Tsum r (fun i => Tsum m (fun j => f (i * m + j))).
Proof.
  induction r as [|r IH]; cbn [Tsum]; [reflexivity|].
  replace (S r * m) with (r * m + m) by lia.
  rewrite Tsum_app, IH. reflexivity.
Qed.

Lemma Tsum_S_l n f : Tsum (S n) f = (f 0%nat + Tsum n (fun i => f (S i)))%T.
Proof.
  change (S n) with (1 + n). rewrite Tsum_app. cbn [Tsum]. 
  cbn [Nat.add]. ring.
Qed.

Lemma Tsum_rev n f : Tsum n f = Tsum n (fun i => f (n - 1 - i)).
Proof.
  induction n as [|n IH]; [reflexivity|].
  rewrite (Tsum_S_l n (fun i => f (S n - 1 - i))). cbn [Tsum]. rewrite IH.
  replace (S n - 1 - 0) with n by lia.
  replace (Tsum n (fun i => f (S n - 1 - S i))) with (Tsum n (fun i => f (n - 1 - i))).
  - ring.
  - apply Tsum_ext. intros i Hi. f_equal. lia.
Qed.

(** A function on Z of period n has the same sum over every window of
    length n. *)
Lemma Tsum_window_step n (F : Z -> T) :
  (forall k, F (k + Z.of_nat n)%Z = F k) ->
  forall s, Tsum n (fun i => F (Z.of_nat i + s + 1)%Z) = Tsum n (fun i => F (Z.of_nat i + s)%Z).
Proof.
  intros HF s.
  assert (E : forall n', (Tsum n' (fun i => F (Z.of_nat i + s + 1)%Z) + F s
                         = Tsum n' (fun i => F (Z.of_nat i + s)%Z) + F (Z.of_nat n' + s)%Z)%T).
  { induction n' as [|n' IH]; cbn [Tsum].
    - cbn. ring.
    - replace (Z.of_nat (S n') + s)%Z with (Z.of_nat n' + s + 1)%Z by lia.
      transitivity ((Tsum n' (fun i => F (Z.of_nat i + s + 1)%Z) + F s)
                    + F (Z.of_nat n' + s + 1)%Z)%T; [ring|].
      rewrite IH. ring. }
  specialize (E n). replace (Z.of_nat n + s)%Z with (s + Z.of_nat n)%Z in E by lia.
  rewrite HF in E.
  transitivity ((Tsum n (fun i => F (Z.of_nat i + s + 1)%Z) + F s) - F s)%T; [ring|].
  rewrite E. ring.
Qed.

Lemma Tsum_window_nat n (F : Z -> T) :
  (forall k, F (k + Z.of_nat n)%Z = F k) ->
  forall (c : nat) s, Tsum n (fun i => F (Z.of_nat i + s + Z.of_nat c)%Z)
                      = Tsum n (fun i => F (Z.of_nat i + s)%Z).
Proof.
  intros HF c. induction c as [|c IH]; intros s.
  - apply Tsum_ext. intros. f_equal. lia.
  - rewrite <- (IH s).
    transitivity (Tsum n (fun i => F (Z.of_nat i + (s + Z.of_nat c) + 1)%Z)).
    { apply Tsum_ext. intros. f_equal. lia. }
    rewrite (Tsum_window_step n F HF (s + Z.of_nat c)).
    apply Tsum_ext. intros. f_equal. lia.
Qed.

Lemma Tsum_window n (F : Z -> T) :
  (forall k, F (k + Z.of_nat n)%Z = F k) ->
  forall s, Tsum n (fun i => F (Z.of_nat i + s)%Z) = Tsum n (fun i => F (Z.of_nat i)).
Proof.
  intros HF s. destruct (Z_le_gt_dec 0 s) as [Hs|Hs].
  - transitivity (Tsum n (fun i => F (Z.of_nat i + 0 + Z.of_nat (Z.to_nat s))%Z)).
    { apply Tsum_ext. intros. f_equal. lia. }
    rewrite (Tsum_window_nat n F HF (Z.to_nat s) 0).
    apply Tsum_ext. intros. f_equal. lia.
  - rewrite <- (Tsum_window_nat n F HF (Z.to_nat (- s)) s).
    apply Tsum_ext. intros. f_equal. lia.
Qed.

(** The same sum read backwards from c. *)
Lemma Tsum_reflect n (F : Z -> T) :
  (forall k, F (k + Z.of_nat n)%Z = F k) ->
  forall c, Tsum n (fun i => F (c - Z.of_nat i)%Z) = Tsum n (fun i => F (Z.of_nat i)).
Proof.
  intros HF c. rewrite Tsum_rev.
  rewrite <- (Tsum_window n F HF (c - Z.of_nat n + 1)).
  apply Tsum_ext. intros i Hi. f_equal. lia.
Qed.

Lemma Tnat_S n : Tnat (S n) = (Tnat n + 1)%T.
Proof.
  unfold Tnat, T1, Tadd; unfold T_of; cbn [a b]. f_equal; try ring.
  unfold u64_of. rewrite Nat2Z.inj_succ, <- Z.add_1_r.
  rewrite Zmod.of_Z_add. reflexivity.
Qed.

Lemma Tnat_0 : Tnat 0 = 0%T.
Proof. reflexivity. Qed.

Lemma Tnat_add n m : Tnat (n + m) = (Tnat n + Tnat m)%T.
Proof.
  induction m as [|m IH].
  - rewrite Nat.add_0_r, Tnat_0. ring.
  - rewrite Nat.add_succ_r, !Tnat_S, IH. ring.
Qed.

Lemma Tnat_mul n m : Tnat (n * m) = (Tnat n * Tnat m)%T.
Proof.
  induction n as [|n IH].
  - cbn [Nat.mul]. rewrite Tnat_0. ring.
  - cbn [Nat.mul]. rewrite Tnat_add, IH, Tnat_S. ring.
Qed.

Lemma Tsum_const n c : Tsum n (fun _ => c) = (Tnat n * c)%T.
Proof.
  induction n as [|n IH]; cbn [Tsum].
  - rewrite Tnat_0. ring.
  - rewrite IH, Tnat_S. ring.
Qed.


(** * Blocks as elements of T[x]/(x^m - omega^tau) *)

Section Blocks.
Variable tau : Z.
Variable m : nat.
Hypothesis m_pos : 0 < m.

Lemma ext_small u k : (0 <= k < Z.of_nat m)%Z -> ext tau m u k = u (Z.to_nat k).
Proof.
  intros H. unfold ext. rewrite Z.div_small, Z.mod_small by lia.
  rewrite Z.mul_0_r, wpow_0. ring.
Qed.

Lemma ext_nat u j : j < m -> ext tau m u (Z.of_nat j) = u j.
Proof. intros H. rewrite ext_small by lia. rewrite Nat2Z.id. reflexivity. Qed.

Lemma ext_period u k q :
  ext tau m u (k + q * Z.of_nat m) = (wpow (- tau * q) * ext tau m u k)%T.
Proof.
  unfold ext. rewrite Z.div_add, Z.mod_add by lia.
  replace (- tau * (k / Z.of_nat m + q))%Z with (- tau * q + - tau * (k / Z.of_nat m))%Z by lia.
  rewrite wpow_add. ring.
Qed.

Lemma ext_congr u v k : (forall j, j < m -> u j = v j) -> ext tau m u k = ext tau m v k.
Proof.
  intros H. unfold ext. rewrite H; [reflexivity|].
  pose proof (Z.mod_pos_bound k (Z.of_nat m) ltac:(lia)). lia.
Qed.

Lemma ext_add u v k :
  ext tau m (fun j => u j + v j)%T k = (ext tau m u k + ext tau m v k)%T.
Proof. unfold ext. ring. Qed.

Lemma ext_sub u v k :
  ext tau m (fun j => u j - v j)%T k = (ext tau m u k - ext tau m v k)%T.
Proof. unfold ext. ring. Qed.

Lemma ext_scale c u k : ext tau m (fun j => c * u j)%T k = (c * ext tau m u k)%T.
Proof. unfold ext. ring. Qed.

Lemma ext_sum n (U : nat -> nat -> T) k :
  ext tau m (fun j => Tsum n (fun i => U i j)) k = Tsum n (fun i => ext tau m (U i) k).
Proof. unfold ext. rewrite <- Tsum_mul_l. reflexivity. Qed.

Lemma ext_shift t u k : ext tau m (shift tau m t u) k = ext tau m u (k - t).
Proof.
  unfold ext at 1. unfold shift.
  pose proof (Z.mod_pos_bound k (Z.of_nat m) ltac:(lia)).
  rewrite Z2Nat.id by lia.
  replace (k mod Z.of_nat m - t)%Z with ((k - t) + (- (k / Z.of_nat m)) * Z.of_nat m)%Z.
  2:{ pose proof (Z.div_mod k (Z.of_nat m) ltac:(lia)). lia. }
  rewrite ext_period.
  transitivity ((wpow (- tau * (k / Z.of_nat m)) * wpow (- tau * - (k / Z.of_nat m)))
                * ext tau m u (k - t))%T; [ring|].
  rewrite <- wpow_add.
  replace (- tau * (k / Z.of_nat m) + - tau * - (k / Z.of_nat m))%Z with 0%Z by lia.
  rewrite wpow_0. ring.
Qed.

Lemma shift_shift s t u j : shift tau m s (shift tau m t u) j = shift tau m (s + t) u j.
Proof.
  unfold shift at 1. rewrite ext_shift. unfold shift. f_equal. lia.
Qed.

Lemma shift_0 u j : j < m -> shift tau m 0 u j = u j.
Proof. intros H. unfold shift. rewrite Z.sub_0_r. apply ext_nat, H. Qed.

Lemma shift_period t q u j :
  shift tau m (t + q * Z.of_nat m) u j = (wpow (tau * q) * shift tau m t u j)%T.
Proof.
  unfold shift.
  replace (Z.of_nat j - (t + q * Z.of_nat m))%Z with ((Z.of_nat j - t) + (- q) * Z.of_nat m)%Z by lia.
  rewrite ext_period. f_equal. f_equal. lia.
Qed.

Lemma shift_congr t u v j :
  (forall i, i < m -> u i = v i) -> shift tau m t u j = shift tau m t v j.
Proof. intros H. unfold shift. apply ext_congr, H. Qed.

Lemma shift_add t u v j :
  shift tau m t (fun i => u i + v i)%T j = (shift tau m t u j + shift tau m t v j)%T.
Proof. unfold shift. apply ext_add. Qed.

Lemma shift_scale t c u j :
  shift tau m t (fun i => c * u i)%T j = (c * shift tau m t u j)%T.
Proof. unfold shift. apply ext_scale. Qed.

Lemma shift_sum t n (U : nat -> nat -> T) j :
  shift tau m t (fun i => Tsum n (fun l => U l i)) j = Tsum n (fun l => shift tau m t (U l) j).
Proof. unfold shift. apply ext_sum. Qed.

Lemma pmul_congr u u' v v' k :
  (forall j, j < m -> u j = u' j) -> (forall j, j < m -> v j = v' j) ->
  pmul tau m u v k = pmul tau m u' v' k.
Proof.
  intros Hu Hv. unfold pmul. apply Tsum_ext. intros i Hi.
  rewrite Hu by assumption. f_equal. apply ext_congr, Hv.
Qed.

Lemma ext_pmul u v k :
  ext tau m (pmul tau m u v) k
  = Tsum m (fun i => u i * ext tau m v (k - Z.of_nat i))%T.
Proof.
  unfold ext at 1. unfold pmul.
  pose proof (Z.mod_pos_bound k (Z.of_nat m) ltac:(lia)).
  rewrite Z2Nat.id by lia. rewrite <- Tsum_mul_l. apply Tsum_ext. intros i Hi.
  replace (k mod Z.of_nat m - Z.of_nat i)%Z
    with ((k - Z.of_nat i) + (- (k / Z.of_nat m)) * Z.of_nat m)%Z.
  2:{ pose proof (Z.div_mod k (Z.of_nat m) ltac:(lia)). lia. }
  rewrite ext_period.
  transitivity ((wpow (- tau * (k / Z.of_nat m)) * wpow (- tau * - (k / Z.of_nat m)))
                * (u i * ext tau m v (k - Z.of_nat i)))%T; [ring|].
  rewrite <- wpow_add.
  replace (- tau * (k / Z.of_nat m) + - tau * - (k / Z.of_nat m))%Z with 0%Z by lia.
  rewrite wpow_0. ring.
Qed.

Lemma pmul_shift_r t u v k :
  pmul tau m u (shift tau m t v) k = shift tau m t (pmul tau m u v) k.
Proof.
  unfold shift at 2. rewrite ext_pmul. unfold pmul. apply Tsum_ext. intros i Hi.
  rewrite ext_shift. f_equal. f_equal. lia.
Qed.

Lemma pmul_comm u v k : pmul tau m u v k = pmul tau m v u k.
Proof.
  set (F := fun x : Z => (ext tau m u x * ext tau m v (Z.of_nat k - x))%T).
  assert (HF : forall x, F (x + Z.of_nat m)%Z = F x).
  { intros x. unfold F.
    replace (x + Z.of_nat m)%Z with (x + 1 * Z.of_nat m)%Z by lia.
    replace (Z.of_nat k - (x + 1 * Z.of_nat m))%Z
      with ((Z.of_nat k - x) + (-1) * Z.of_nat m)%Z by lia.
    rewrite !ext_period.
    transitivity ((wpow (- tau * 1) * wpow (- tau * -1))
                  * (ext tau m u x * ext tau m v (Z.of_nat k - x)))%T; [ring|].
    rewrite <- wpow_add. replace (- tau * 1 + - tau * -1)%Z with 0%Z by lia.
    rewrite wpow_0. ring. }
  transitivity (Tsum m (fun i => F (Z.of_nat i))).
  - unfold pmul. apply Tsum_ext. intros i Hi. unfold F. rewrite ext_nat by assumption.
    reflexivity.
  - rewrite <- (Tsum_reflect m F HF (Z.of_nat k)).
    unfold pmul. apply Tsum_ext. intros i Hi. unfold F.
    replace (Z.of_nat k - (Z.of_nat k - Z.of_nat i))%Z with (Z.of_nat i) by lia.
    rewrite ext_nat by assumption. ring.
Qed.

Lemma pmul_shift_l t u v k :
  pmul tau m (shift tau m t u) v k = shift tau m t (pmul tau m u v) k.
Proof.
  rewrite pmul_comm, pmul_shift_r. apply shift_congr. intros i Hi. apply pmul_comm.
Qed.

Lemma pmul_add_l u u' v k :
  pmul tau m (fun j => u j + u' j)%T v k = (pmul tau m u v k + pmul tau m u' v k)%T.
Proof.
  unfold pmul. rewrite <- Tsum_add. apply Tsum_ext. intros. ring.
Qed.

Lemma pmul_scale_l c u v k :
  pmul tau m (fun j => c * u j)%T v k = (c * pmul tau m u v k)%T.
Proof.
  unfold pmul. rewrite <- Tsum_mul_l. apply Tsum_ext. intros. ring.
Qed.

Lemma pmul_sum_l n (U : nat -> nat -> T) v k :
  pmul tau m (fun j => Tsum n (fun i => U i j)) v k = Tsum n (fun i => pmul tau m (U i) v k).
Proof.
  unfold pmul. rewrite Tsum_swap. apply Tsum_ext. intros i Hi.
  rewrite Tsum_mul_r. reflexivity.
Qed.

Lemma pmul_add_r u v v' k :
  pmul tau m u (fun j => v j + v' j)%T k = (pmul tau m u v k + pmul tau m u v' k)%T.
Proof.
  unfold pmul. rewrite <- Tsum_add. apply Tsum_ext. intros. rewrite ext_add. ring.
Qed.

Lemma pmul_scale_r c u v k :
  pmul tau m u (fun j => c * v j)%T k = (c * pmul tau m u v k)%T.
Proof.
  unfold pmul. rewrite <- Tsum_mul_l. apply Tsum_ext. intros. rewrite ext_scale. ring.
Qed.

Lemma pmul_sum_r n u (V : nat -> nat -> T) k :
  pmul tau m u (fun j => Tsum n (fun i => V i j)) k = Tsum n (fun i => pmul tau m u (V i) k).
Proof.
  unfold pmul. rewrite Tsum_swap. apply Tsum_ext. intros i Hi.
  rewrite ext_sum, Tsum_mul_l. reflexivity.
Qed.

End Blocks.

Lemma ext_tau_mod tau tau' m u k :
  (tau mod 3 = tau' mod 3)%Z -> ext tau m u k = ext tau' m u k.
Proof.
  intros H. unfold ext. f_equal. apply wpow_mod.
  rewrite !(Z.mul_mod _ (k / Z.of_nat m)) by lia.
  rewrite <- (Z.mul_1_l tau), <- (Z.mul_1_l tau'), <- !Z.mul_opp_l.
  rewrite (Z.mul_mod (-1) tau), (Z.mul_mod (-1) tau') by lia. rewrite H. reflexivity.
Qed.

Lemma conj_ext tau m u k :
  conj (ext tau m u k) = ext (2 * tau) m (fun j => conj (u j)) k.
Proof.
  unfold ext. rewrite conj_mul, conj_wpow. f_equal. f_equal. lia.
Qed.

Lemma conj_pmul tau m u v k :
  conj (pmul tau m u v k) = pmul (2 * tau) m (fun j => conj (u j)) (fun j => conj (v j)) k.
Proof.
  unfold pmul. rewrite Tsum_conj. apply Tsum_ext. intros i Hi.
  rewrite conj_mul, conj_ext. reflexivity.
Qed.

Lemma pmul_tau_mod tau tau' m u v k :
  (tau mod 3 = tau' mod 3)%Z -> pmul tau m u v k = pmul tau' m u v k.
Proof.
  intros H. unfold pmul. apply Tsum_ext. intros. f_equal. apply ext_tau_mod, H.
Qed.


(** * Reasoning about memory and loops *)

Lemma upd_eq (M : mem) x v y : y = x -> upd M x v y = v.
Proof. intros ->. unfold upd. rewrite Nat.eqb_refl. reflexivity. Qed.

Lemma upd_neq (M : mem) x v y : y <> x -> upd M x v y = M y.
Proof. intros H. unfold upd. destruct (Nat.eqb_spec y x); [contradiction|reflexivity]. Qed.

Ltac upd_simpl :=
  repeat first [ rewrite upd_eq by lia | rewrite upd_neq by lia ].

Lemma for_loop_inv {A : Type} (I : nat -> A -> Prop) n body (s : A) :
  I 0 s ->
  (forall i s', i < n -> I i s' -> I (S i) (body i s')) ->
  I n (for_loop n body s).
Proof.
  intros H0 Hstep. induction n as [|n IH]; cbn; [assumption|].
  apply Hstep; [lia|]. apply IH. intros i s' Hi. apply Hstep. lia.
Qed.


Lemma for_loop_opt_inv {A : Type} (I : nat -> A -> Prop) n body (s : A) :
  I 0 s ->
  (forall i s', i < n -> I i s' -> exists s'', body i s' = Some s'' /\ I (S i) s'') ->
  exists s', for_loop_opt n body s = Some s' /\ I n s'.
Proof.
  intros H0 Hstep. induction n as [|n IH]; cbn.
  - exists s. auto.
  - destruct IH as [s' [E HI]].
    { intros i s' Hi. apply Hstep. lia. }
    rewrite E. apply Hstep; [lia|assumption].
Qed.

(** A loop whose j-th round writes one cell, [w j], with a value that does not
    depend on the cells written in earlier rounds. *)
Lemma for_loop_pointwise n (w : nat -> nat) (g : nat -> mem -> T) (v : nat -> T) (M : mem) :
  (forall i j, i < n -> j < n -> w i = w j -> i = j) ->
  (forall j M', j < n -> (forall x, (forall i, i < j -> x <> w i) -> M' x = M x) ->
                g j M' = v j) ->
  (forall j, j < n -> for_loop n (fun j M => upd M (w j) (g j M)) M (w j) = v j)
  /\ (forall x, (forall j, j < n -> x <> w j) ->
        for_loop n (fun j M => upd M (w j) (g j M)) M x = M x).
Proof.
  intros Hinj Hg.
  pose proof (for_loop_inv (fun k (M' : mem) =>
    (forall j, j < k -> M' (w j) = v j)
    /\ (forall x, (forall j, j < k -> x <> w j) -> M' x = M x)) n
    (fun j M => upd M (w j) (g j M)) M) as H.
  cbv beta in H. destruct H as [H1 H2].
  - split; [lia|auto].
  - intros i M' Hi [H1 H2]. split.
    + intros j Hji. destruct (Nat.eq_dec j i) as [->|Hne].
      * rewrite upd_eq by reflexivity. apply Hg; assumption.
      * rewrite upd_neq. { apply H1; lia. }
        intros E. apply Hne. apply Hinj; [lia|assumption|assumption].
    + intros x Hx. rewrite upd_neq by (apply Hx; lia). apply H2.
      intros j Hj. apply Hx. lia.
  - split; auto.
Qed.

Lemma for_range_pointwise lo hi (w : nat -> nat) (g : nat -> mem -> T) (v : nat -> T) (M : mem) :
  lo <= hi ->
  (forall i j, lo <= i < hi -> lo <= j < hi -> w i = w j -> i = j) ->
  (forall j M', lo <= j < hi -> (forall x, (forall i, lo <= i < j -> x <> w i) -> M' x = M x) ->
                g j M' = v j) ->
  (forall j, lo <= j < hi -> for_range lo hi (fun j M => upd M (w j) (g j M)) M (w j) = v j)
  /\ (forall x, (forall j, lo <= j < hi -> x <> w j) ->
        for_range lo hi (fun j M => upd M (w j) (g j M)) M x = M x).
Proof.
  intros Hle Hinj Hg. unfold for_range.
  destruct (for_loop_pointwise (hi - lo) (fun k => w (lo + k)) (fun k => g (lo + k))
              (fun k => v (lo + k)) M) as [H1 H2].
  - intros i j Hi Hj E. apply Hinj in E; lia.
  - intros j M' Hj HM. apply Hg; [lia|]. intros x Hx. apply HM.
    intros i Hi. apply Hx. lia.
  - split.
    + intros j Hj. specialize (H1 (j - lo) ltac:(lia)).
      replace (lo + (j - lo)) with j in H1 by lia. exact H1.
    + intros x Hx. apply H2. intros j Hj. apply Hx. lia.
Qed.

Lemma while_loop_some {A : Type} (mu : A -> nat) cond body :
  (forall s, cond s = true -> mu (body s) < mu s) ->
  forall fuel (s : A), mu s < fuel -> exists s', while_loop fuel cond body s = Some s'.
Proof.
  intros Hmu. induction fuel as [|f IH]; intros s H; [lia|]. cbn.
  destruct (cond s) eqn:E; [|eauto].
  apply IH. specialize (Hmu s E). lia.
Qed.

Lemma for_loop_ext {A : Type} n (body body' : nat -> A -> A) (s : A) :
  (forall i s', i < n -> body i s' = body' i s') ->
  for_loop n body s = for_loop n body' s.
Proof.
  intros H. induction n as [|n IH]; cbn; [reflexivity|].
  rewrite IH by (intros; apply H; lia). apply H. lia.
Qed.

Lemma for_loop_opt_ext {A : Type} n (body body' : nat -> A -> option A) (s : A) :
  (forall i s', i < n -> body i s' = body' i s') ->
  for_loop_opt n body s = for_loop_opt n body' s.
Proof.
  intros H. induction n as [|n IH]; cbn; [reflexivity|].
  rewrite IH by (intros; apply H; lia).
  destruct (for_loop_opt n body' s); [apply H; lia|reflexivity].
Qed.


(** * twiddle *)

Lemma ext_at tau m u k q j :
  0 < m -> k = (q * Z.of_nat m + Z.of_nat j)%Z -> j < m ->
  ext tau m u k = (wpow (- tau * q) * u j)%T.
Proof.
  intros Hm -> Hj. rewrite Z.add_comm, ext_period by assumption.
  rewrite ext_nat by assumption. reflexivity.
Qed.

Lemma twiddle_loops p m ts mult to M :
  ts <= m -> p + m <= to \/ to + m <= p ->
  let M2 := for_range ts m (fun j M => upd M (to + j) (M.[p + (j - ts)] * mult))
              (for_loop ts (fun j M => upd M (to + j) (M.[p + (m - ts + j)] * OMEGA * mult)) M) in
  (forall j, j < ts -> M2 (to + j) = (M.[p + (m - ts + j)] * OMEGA * mult)%T)
  /\ (forall j, ts <= j < m -> M2 (to + j) = (M.[p + (j - ts)] * mult)%T)
  /\ (forall x, ~ (to <= x < to + m) -> M2 x = M x).
Proof.
  intros Hts Hdis M2.
  destruct (for_loop_pointwise ts (fun j => to + j)
              (fun j M => M.[p + (m - ts + j)] * OMEGA * mult)%T
              (fun j => M.[p + (m - ts + j)] * OMEGA * mult)%T M) as [A1 A2].
  { intros; lia. }
  { intros j M' Hj HM. rewrite HM; [reflexivity|]. intros; lia. }
  set (M1 := for_loop ts _ M) in *.
  destruct (for_range_pointwise ts m (fun j => to + j)
              (fun j M => M.[p + (j - ts)] * mult)%T
              (fun j => M.[p + (j - ts)] * mult)%T M1) as [B1 B2].
  { assumption. }
  { intros; lia. }
  { intros j M' Hj HM. rewrite HM by (intros; lia). rewrite A2 by (intros; lia). reflexivity. }
  fold M2 in B1, B2. repeat split.
  - intros j Hj. rewrite B2 by (intros; lia). apply A1. assumption.
  - intros j Hj. apply B1. assumption.
  - intros x Hx. rewrite B2 by (intros; lia). apply A2. intros; lia.
Qed.

Lemma twiddle_spec p m t to M :
  t <= 3 * m -> p + m <= to \/ to + m <= p ->
  (forall j, j < m -> twiddle p m t to M (to + j) = shift 1 m (Z.of_nat t) (rd M p) j)
  /\ (forall x, ~ (to <= x < to + m) -> twiddle p m t to M x = M x).
Proof.
  intros Ht Hdis. unfold twiddle.
  destruct ((t =? 0) || (t =? 3 * m)) eqn:E.
  - destruct (for_loop_pointwise m (fun j => to + j) (fun j M => M.[p + j])
                (fun j => M.[p + j]) M) as [A1 A2].
    { intros; lia. }
    { intros j M' Hj HM. apply HM. intros; lia. }
    split.
    + intros j Hj. rewrite A1 by assumption.
      apply orb_true_iff in E. unfold shift, rd.
      destruct E as [E|E]; apply Nat.eqb_eq in E; subst t.
      * rewrite (ext_at 1 m _ _ 0 j); try lia. wpow_eval. ring.
      * rewrite (ext_at 1 m _ _ (-3) j); try lia. wpow_eval. T_omega.
    + intros x Hx. apply A2. intros; lia.
  - apply orb_false_iff in E. destruct E as [E0 E3].
    apply Nat.eqb_neq in E0, E3.
    assert (Hm : 0 < m) by lia.
    destruct (t <? m) eqn:C1; [apply Nat.ltb_lt in C1 | apply Nat.ltb_ge in C1].
    2: destruct (t <? 2 * m) eqn:C2; [apply Nat.ltb_lt in C2 | apply Nat.ltb_ge in C2].
    + destruct (twiddle_loops p m t T1 to M) as [A1 [A2 A3]]; try lia; try assumption.
      split; [|exact A3]. intros j Hj. unfold shift, rd.
      destruct (Nat.lt_ge_cases j t) as [Hjt|Hjt].
      * rewrite A1 by assumption.
        rewrite (ext_at 1 m _ _ (-1) (m - t + j)); try lia.
        wpow_eval. T_omega.
      * rewrite A2 by lia.
        rewrite (ext_at 1 m _ _ 0 (j - t)); try lia.
        wpow_eval. ring.
    + destruct (twiddle_loops p m (t - m) OMEGA to M) as [A1 [A2 A3]]; try lia; try assumption.
      split; [|exact A3]. intros j Hj. unfold shift, rd.
      destruct (Nat.lt_ge_cases j (t - m)) as [Hjt|Hjt].
      * rewrite A1 by assumption.
        rewrite (ext_at 1 m _ _ (-2) (m - (t - m) + j)); try lia.
        wpow_eval. T_omega.
      * rewrite A2 by lia.
        rewrite (ext_at 1 m _ _ (-1) (j - (t - m))); try lia.
        wpow_eval. T_omega.
    + destruct (twiddle_loops p m (t - 2 * m) OMEGA2 to M) as [A1 [A2 A3]]; try lia; try assumption.
      split; [|exact A3]. intros j Hj. unfold shift, rd.
      destruct (Nat.lt_ge_cases j (t - 2 * m)) as [Hjt|Hjt].
      * rewrite A1 by assumption.
        rewrite (ext_at 1 m _ _ (-3) (m - (t - 2 * m) + j)); try lia.
        wpow_eval. T_omega.
      * rewrite A2 by lia.
        rewrite (ext_at 1 m _ _ (-2) (j - (t - 2 * m))); try lia.
        wpow_eval. T_omega.
Qed.


(** * The two transforms as functions on buffers *)

Lemma div_block N d K : K < N -> (d * N + K) / N = d.
Proof. intros H. symmetry. apply (Nat.div_unique _ _ _ K); lia. Qed.

Lemma mod_block N d K : K < N -> (d * N + K) mod N = K.
Proof. intros H. symmetry. apply (Nat.mod_unique _ _ d); lia. Qed.

Lemma div_block' N d K : K < N -> (K + d * N) / N = d.
Proof. intros H. rewrite Nat.add_comm. apply div_block, H. Qed.

Lemma mod_block' N d K : K < N -> (K + d * N) mod N = K.
Proof. intros H. rewrite Nat.add_comm. apply mod_block, H. Qed.

Lemma div_mod_lt N r K : 0 < N -> K < r * N -> K / N < r /\ K mod N < N.
Proof.
  intros HN HK. split; [|apply Nat.mod_upper_bound; lia].
  apply Nat.Div0.div_lt_upper_bound. lia.
Qed.

Lemma div_mod_eq N K : K = K / N * N + K mod N.
Proof. pose proof (Nat.div_mod_eq K N). lia. Qed.

Lemma pow3_pos k : 0 < 3 ^ k.
Proof. induction k; cbn; lia. Qed.

Lemma pow3_div k : 3 * 3 ^ k / 3 = 3 ^ k.
Proof. rewrite Nat.mul_comm. apply Nat.div_mul. lia. Qed.

Section Transforms.
Variable m : nat.
Hypothesis m_pos : 0 < m.

Lemma mod_mod_block N K : (K mod (m * N)) mod m = K mod m.
Proof.
  destruct (Nat.eq_dec N 0) as [->|HN].
  - rewrite Nat.mul_0_r. cbn. reflexivity.
  - rewrite Nat.Div0.mod_mul_r. rewrite Nat.mul_comm, Nat.Div0.mod_add.
    apply Nat.Div0.mod_mod.
Qed.

Lemma dif_bfly_congr_block r X X' d i j :
  j < m ->
  (forall d' j', d' < 3 -> j' < m ->
     X (d' * (m * (r / 3)) + i * m + j') = X' (d' * (m * (r / 3)) + i * m + j')) ->
  dif_bfly m r X d (i * m + j) = dif_bfly m r X' d (i * m + j).
Proof.
  intros Hj H. unfold dif_bfly.
  rewrite div_block, mod_block by assumption.
  assert (E : forall j', j' < m ->
     X (i * m + j') = X' (i * m + j')
     /\ X (m * (r / 3) + i * m + j') = X' (m * (r / 3) + i * m + j')
     /\ X (2 * m * (r / 3) + i * m + j') = X' (2 * m * (r / 3) + i * m + j')).
  { intros j' Hj'. repeat split.
    - apply (H 0 j'); lia.
    - replace (m * (r / 3) + i * m + j') with (1 * (m * (r / 3)) + i * m + j') by lia.
      apply H; lia.
    - replace (2 * m * (r / 3) + i * m + j') with (2 * (m * (r / 3)) + i * m + j') by lia.
      apply H; lia. }
  destruct d as [|[|d]].
  - destruct (E _ Hj) as [-> [-> ->]]. reflexivity.
  - apply shift_congr; [assumption|]. intros j' Hj'. destruct (E _ Hj') as [-> [-> ->]]. reflexivity.
  - apply shift_congr; [assumption|]. intros j' Hj'. destruct (E _ Hj') as [-> [-> ->]]. reflexivity.
Qed.

Lemma dit_bfly_at r Z d i j :
  d < 3 -> i < r / 3 -> j < m ->
  dit_bfly m r Z (d * (m * (r / 3)) + (i * m + j))
  = let t0 := Z (i * m + j) in
    let t1 := shift 1 m (Z.of_nat (3 * m - 3 * i * m / r)) (fun j => Z (m * (r / 3) + i * m + j)) j in
    let t2 := shift 1 m (Z.of_nat (3 * m - 6 * i * m / r)) (fun j => Z (2 * m * (r / 3) + i * m + j)) j in
    match d with
    | 0 => (t0 + t1 + t2)%T
    | 1 => (t0 + OMEGA2 * t1 + OMEGA * t2)%T
    | _ => (t0 + OMEGA * t1 + OMEGA2 * t2)%T
    end.
Proof.
  intros Hd Hi Hj. unfold dit_bfly. cbv zeta.
  assert (HK : i * m + j < m * (r / 3)) by nia.
  rewrite div_block, mod_block by assumption.
  rewrite div_block by assumption.
  replace ((d * (m * (r / 3)) + (i * m + j)) mod m) with j.
  - reflexivity.
  - apply (Nat.mod_unique _ _ (d * (r / 3) + i)); [assumption|nia].
Qed.

Lemma dif_bfly_congr r X X' d K :
  0 < r / 3 -> d < 3 -> K < m * (r / 3) ->
  (forall x, x < 3 * (m * (r / 3)) -> X x = X' x) ->
  dif_bfly m r X d K = dif_bfly m r X' d K.
Proof.
  intros Hr Hd HK H. unfold dif_bfly.
  assert (Hi : K / m < r / 3).
  { apply Nat.Div0.div_lt_upper_bound. lia. }
  assert (E : forall j, j < m ->
     X (K / m * m + j) = X' (K / m * m + j)
     /\ X (m * (r / 3) + K / m * m + j) = X' (m * (r / 3) + K / m * m + j)
     /\ X (2 * m * (r / 3) + K / m * m + j) = X' (2 * m * (r / 3) + K / m * m + j)).
  { intros j Hj. repeat split; apply H; nia. }
  pose proof (Nat.mod_upper_bound K m ltac:(lia)) as Hj.
  destruct d as [|[|d]].
  - destruct (E _ Hj) as [-> [-> ->]]. reflexivity.
  - apply shift_congr; [assumption|]. intros j' Hj'. destruct (E _ Hj') as [-> [-> ->]]. reflexivity.
  - apply shift_congr; [assumption|]. intros j' Hj'. destruct (E _ Hj') as [-> [-> ->]]. reflexivity.
Qed.

Lemma dif_spec_congr k : forall X X' K,
  K < m * 3 ^ k ->
  (forall x, x < m * 3 ^ k -> X x = X' x) ->
  dif_spec k m X K = dif_spec k m X' K.
Proof.
  induction k as [|k IH]; intros X X' K HK H.
  - cbn. apply H. assumption.
  - cbn [dif_spec]. cbv zeta.
    pose proof (pow3_pos k) as Hp.
    assert (HN : 0 < m * 3 ^ k) by (apply Nat.mul_pos_pos; assumption).
    assert (Hd : K / (m * 3 ^ k) < 3).
    { apply Nat.Div0.div_lt_upper_bound. cbn [Nat.pow] in HK. lia. }
    apply IH.
    + apply Nat.mod_upper_bound. lia.
    + intros x Hx. apply dif_bfly_congr; rewrite ?pow3_div; try assumption.
      intros y Hy. apply H. cbn [Nat.pow]. lia.
Qed.

Lemma dit_bfly_congr r Z Z' K :
  0 < r / 3 -> K < 3 * (m * (r / 3)) ->
  (forall x, x < 3 * (m * (r / 3)) -> Z x = Z' x) ->
  dit_bfly m r Z K = dit_bfly m r Z' K.
Proof.
  intros Hr HK H. unfold dit_bfly.
  assert (HN : 0 < m * (r / 3)) by nia.
  assert (Hi : K mod (m * (r / 3)) / m < r / 3).
  { apply Nat.Div0.div_lt_upper_bound. apply Nat.mod_upper_bound. lia. }
  pose proof (Nat.mod_upper_bound K m ltac:(lia)) as Hj.
  set (i := K mod (m * (r / 3)) / m) in *.
  assert (E0 : Z (i * m + K mod m) = Z' (i * m + K mod m)) by (apply H; nia).
  assert (E1 : shift 1 m (Z.of_nat (3 * m - 3 * i * m / r)) (fun j => Z (m * (r / 3) + i * m + j)) (K mod m)
             = shift 1 m (Z.of_nat (3 * m - 3 * i * m / r)) (fun j => Z' (m * (r / 3) + i * m + j)) (K mod m)).
  { apply shift_congr; [assumption|]. intros j Hj'. apply H. nia. }
  assert (E2 : shift 1 m (Z.of_nat (3 * m - 6 * i * m / r)) (fun j => Z (2 * m * (r / 3) + i * m + j)) (K mod m)
             = shift 1 m (Z.of_nat (3 * m - 6 * i * m / r)) (fun j => Z' (2 * m * (r / 3) + i * m + j)) (K mod m)).
  { apply shift_congr; [assumption|]. intros j Hj'. apply H. nia. }
  rewrite E0, E1, E2. reflexivity.
Qed.

Lemma dit_spec_congr k : forall Y Y' K,
  K < m * 3 ^ k ->
  (forall x, x < m * 3 ^ k -> Y x = Y' x) ->
  dit_spec k m Y K = dit_spec k m Y' K.
Proof.
  induction k as [|k IH]; intros Y Y' K HK H.
  - cbn. apply H. assumption.
  - cbn [dit_spec]. cbv zeta.
    pose proof (pow3_pos k) as Hp.
    assert (HN : 0 < m * 3 ^ k) by (apply Nat.mul_pos_pos; assumption).
    cbn [Nat.pow] in HK, H.
    apply dit_bfly_congr; rewrite ?pow3_div; try lia.
    intros x Hx. apply IH.
    + apply Nat.mod_upper_bound. lia.
    + intros y Hy. apply H.
      assert (x / (m * 3 ^ k) < 3) by (apply Nat.Div0.div_lt_upper_bound; lia).
      nia.
Qed.

End Transforms.


Lemma twiddle_exp3 m c r i : 0 < r -> 3 * m = c * r -> 3 * i * m / r = c * i.
Proof.
  intros Hr H. replace (3 * i * m) with (c * i * r) by nia. apply Nat.div_mul. lia.
Qed.

Lemma twiddle_exp6 m c r i : 0 < r -> 3 * m = c * r -> 6 * i * m / r = 2 * c * i.
Proof.
  intros Hr H. replace (6 * i * m) with (2 * c * i * r) by nia. apply Nat.div_mul. lia.
Qed.

Section Inverse.
Variable m : nat.
Hypothesis m_pos : 0 < m.

Lemma shift_full t u j : j < m -> (t mod (3 * Z.of_nat m) = 0)%Z -> shift 1 m t u j = u j.
Proof.
  intros Hj Ht.
  assert (E : t = (0 + (3 * (t / (3 * Z.of_nat m))) * Z.of_nat m)%Z).
  { pose proof (Z.div_mod t (3 * Z.of_nat m) ltac:(lia)). lia. }
  rewrite E, shift_period by assumption. rewrite Z.mul_1_l, wpow_3, shift_0 by assumption.
  ring.
Qed.

(** One butterfly of [fftdit] undoes one butterfly of [fftdif], up to the
    factor 3. *)
Lemma dit_dif_bfly rr c s X W K :
  0 < rr -> 3 * m = c * (3 * rr) -> K < 3 * (m * rr) ->
  (forall d K', d < 3 -> K' < m * rr ->
     W.[d * (m * rr) + K'] = (s * dif_bfly m (3 * rr) X d K')%T) ->
  dit_bfly m (3 * rr) W K = (s * T3 * X K)%T.
Proof.
  intros Hrr Hc HK HW.
  assert (Hr3 : 3 * rr / 3 = rr) by (rewrite Nat.mul_comm; apply Nat.div_mul; lia).
  assert (Hm : m = c * rr) by lia.
  assert (HN : 0 < m * rr) by nia.
  unfold dit_bfly. rewrite Hr3. cbv zeta.
  set (d := K / (m * rr)). set (K0 := K mod (m * rr)).
  assert (Hd : d < 3) by (apply Nat.Div0.div_lt_upper_bound; lia).
  assert (HK0 : K0 < m * rr) by (apply Nat.mod_upper_bound; lia).
  assert (EK : K = d * (m * rr) + K0) by apply div_mod_eq.
  assert (Ej : K mod m = K0 mod m) by (symmetry; apply mod_mod_block; assumption).
  rewrite Ej.
  set (i := K0 / m). set (j := K0 mod m).
  assert (Hi : i < rr) by (apply Nat.Div0.div_lt_upper_bound; lia).
  assert (Hj : j < m) by (apply Nat.mod_upper_bound; lia).
  assert (EK0 : K0 = i * m + j) by apply div_mod_eq.
  assert (Hci : c * i < m) by nia.
  rewrite (twiddle_exp3 m c (3 * rr) i), (twiddle_exp6 m c (3 * rr) i) by lia.
  (* the three blocks that the butterfly of fftdif left *)
  assert (Edm : forall j', j' < m -> (i * m + j') / m = i /\ (i * m + j') mod m = j').
  { intros j' Hj'. split; [apply div_block|apply mod_block]; assumption. }
  assert (E0 : W.[i * m + j] = (s * (X.[i * m + j] + X.[m * rr + i * m + j]
                                      + X.[2 * m * rr + i * m + j]))%T).
  { specialize (HW 0 (i * m + j) ltac:(lia) ltac:(nia)).
    replace (0 * (m * rr) + (i * m + j)) with (i * m + j) in HW by lia.
    rewrite HW. unfold dif_bfly. rewrite Hr3. cbv zeta.
    destruct (Edm j Hj) as [-> ->]. reflexivity. }
  assert (E1 : shift 1 m (Z.of_nat (3 * m - c * i)) (fun j' => W.[m * rr + i * m + j']) j
             = (s * (X.[i * m + j] + OMEGA * X.[m * rr + i * m + j]
                     + OMEGA2 * X.[2 * m * rr + i * m + j]))%T).
  { transitivity (shift 1 m (Z.of_nat (3 * m - c * i))
       (fun j' => s * shift 1 m (Z.of_nat (c * i))
           (fun j => X.[i * m + j] + OMEGA * X.[m * rr + i * m + j]
                     + OMEGA2 * X.[2 * m * rr + i * m + j])%T j')%T j).
    { apply shift_congr; [assumption|]. intros j' Hj'.
      specialize (HW 1 (i * m + j') ltac:(lia) ltac:(nia)).
      replace (1 * (m * rr) + (i * m + j')) with (m * rr + i * m + j') in HW by lia.
      rewrite HW. unfold dif_bfly. rewrite Hr3. cbv zeta.
      destruct (Edm j' Hj') as [-> ->].
      rewrite (twiddle_exp3 m c (3 * rr) i) by lia. reflexivity. }
    rewrite shift_scale, shift_shift by assumption.
    rewrite shift_full; [reflexivity|assumption|].
    replace (Z.of_nat (3 * m - c * i) + Z.of_nat (c * i))%Z with (1 * (3 * Z.of_nat m))%Z by lia.
    apply Z.mod_mul. lia. }
  assert (E2 : shift 1 m (Z.of_nat (3 * m - 2 * c * i)) (fun j' => W.[2 * m * rr + i * m + j']) j
             = (s * (X.[i * m + j] + OMEGA2 * X.[m * rr + i * m + j]
                     + OMEGA * X.[2 * m * rr + i * m + j]))%T).
  { transitivity (shift 1 m (Z.of_nat (3 * m - 2 * c * i))
       (fun j' => s * shift 1 m (Z.of_nat (2 * c * i))
           (fun j => X.[i * m + j] + OMEGA2 * X.[m * rr + i * m + j]
                     + OMEGA * X.[2 * m * rr + i * m + j])%T j')%T j).
    { apply shift_congr; [assumption|]. intros j' Hj'.
      specialize (HW 2 (i * m + j') ltac:(lia) ltac:(nia)).
      replace (2 * (m * rr) + (i * m + j')) with (2 * m * rr + i * m + j') in HW by lia.
      rewrite HW. unfold dif_bfly. rewrite Hr3. cbv zeta.
      destruct (Edm j' Hj') as [-> ->].
      rewrite (twiddle_exp6 m c (3 * rr) i) by lia. reflexivity. }
    rewrite shift_scale, shift_shift by assumption.
    rewrite shift_full; [reflexivity|assumption|].
    replace (Z.of_nat (3 * m - 2 * c * i) + Z.of_nat (2 * c * i))%Z
      with (1 * (3 * Z.of_nat m))%Z by lia.
    apply Z.mod_mul. lia. }
  rewrite E0, E1, E2. unfold T3.
  destruct d as [|[|[|d]]]; try lia.
  - replace K with (i * m + j) by lia. T_omega.
  - replace K with (m * rr + i * m + j) by lia. T_omega.
  - replace K with (2 * m * rr + i * m + j) by lia. T_omega.
Qed.

(** [fftdit] after [fftdif] multiplies the buffer by the number of blocks. *)
Lemma dit_dif_spec k : forall c X K,
  3 * m = c * 3 ^ k -> K < m * 3 ^ k ->
  dit_spec k m (dif_spec k m X) K = (Tnat (3 ^ k) * X K)%T.
Proof.
  induction k as [|k IH]; intros c X K Hc HK.
  - cbn. change (Tnat 1) with T1. ring.
  - pose proof (pow3_pos k) as Hp.
    assert (HN : 0 < m * 3 ^ k) by (apply Nat.mul_pos_pos; assumption).
    cbn [Nat.pow] in Hc, HK.
    cbn [dit_spec]. cbv zeta.
    rewrite (dit_dif_bfly (3 ^ k) c (Tnat (3 ^ k)) X); try assumption; try lia.
    + cbn [Nat.pow]. rewrite (Nat.mul_comm 3), Tnat_mul.
      change (Tnat 3) with T3. reflexivity.
    + intros d K' Hd HK'.
      rewrite div_block, mod_block by assumption.
      transitivity (dit_spec k m (dif_spec k m (dif_bfly m (3 * 3 ^ k) X d)) K').
      * apply dit_spec_congr; [assumption|assumption|].
        intros x Hx. cbn [dif_spec]. cbv zeta.
        rewrite div_block, mod_block by assumption. reflexivity.
      * apply (IH (3 * c)); [lia|assumption].
Qed.

End Inverse.


(** * What [fftdif] computes *)

Lemma Tsum_three n F :
  Tsum (3 * n) F = Tsum n (fun i => F i + F (n + i)%nat + F (2 * n + i)%nat)%T.
Proof.
  replace (3 * n) with (n + (n + n)) by lia.
  rewrite !Tsum_app, !Tsum_add.
  replace (Tsum n (fun i => F (n + (n + i)))) with (Tsum n (fun i => F (2 * n + i))).
  - ring.
  - apply Tsum_ext. intros. f_equal. lia.
Qed.

Section Eval.
Variable m : nat.
Hypothesis m_pos : 0 < m.

Lemma shift_block_third c rr f d l i X j off :
  m = c * rr -> j < m -> off = l * m * rr ->
  shift 1 m (Z.of_nat (c * (3 * f + d)) * Z.of_nat (l * rr + i)) (blk m X (l * rr + i)) j
  = (wpow (Z.of_nat (d * l))
     * shift 1 m (Z.of_nat (c * (3 * f + d)) * Z.of_nat i)
         (fun j' => X.[off + i * m + j']) j)%T.
Proof.
  intros Hm Hj ->.
  replace (Z.of_nat (c * (3 * f + d)) * Z.of_nat (l * rr + i))%Z
    with (Z.of_nat (c * (3 * f + d)) * Z.of_nat i
          + (Z.of_nat (l * (3 * f + d))) * Z.of_nat m)%Z by nia.
  rewrite shift_period by assumption. f_equal.
  - apply wpow_mod. rewrite Z.mul_1_l.
    replace (Z.of_nat (l * (3 * f + d))) with (Z.of_nat (d * l) + Z.of_nat (l * f) * 3)%Z by nia.
    apply Z.mod_add. lia.
  - apply shift_congr; [assumption|]. intros j' Hj'. unfold blk. f_equal. nia.
Qed.

Lemma dif_spec_eval k : forall c X pos j,
  3 * m = c * 3 ^ k -> pos < 3 ^ k -> j < m ->
  dif_spec k m X (pos * m + j) = evalY m (3 ^ k) X (Z.of_nat (c * freq k pos)) j.
Proof.
  induction k as [|k IH]; intros c X pos j Hc Hpos Hj.
  - cbn in Hpos. assert (pos = 0) by lia. subst pos. cbn.
    rewrite Z.mul_0_r, shift_0 by assumption. unfold blk. cbn. ring.
  - pose proof (pow3_pos k) as Hp.
    cbn [Nat.pow] in Hc, Hpos. cbn [dif_spec freq Nat.pow]. cbv zeta.
    set (rr := 3 ^ k) in *.
    assert (HN : 0 < m * rr) by (apply Nat.mul_pos_pos; assumption).
    assert (Hr3 : 3 * rr / 3 = rr) by (rewrite Nat.mul_comm; apply Nat.div_mul; lia).
    assert (Hm : m = c * rr) by lia.
    set (d := pos / rr). set (pos' := pos mod rr).
    assert (Hd : d < 3) by (apply Nat.Div0.div_lt_upper_bound; lia).
    assert (Hpos' : pos' < rr) by (apply Nat.mod_upper_bound; lia).
    assert (Epos : pos = d * rr + pos') by apply div_mod_eq.
    assert (EK : pos * m + j = d * (m * rr) + (pos' * m + j)) by nia.
    rewrite EK, div_block, mod_block by nia.
    rewrite (IH (3 * c)); [|lia|assumption|assumption].
    unfold evalY. rewrite Tsum_three. apply Tsum_ext. intros i Hi.
    pose proof (shift_block_third c rr (freq k pos') d 1 i X j (m * rr) Hm Hj ltac:(lia)) as S1.
    pose proof (shift_block_third c rr (freq k pos') d 2 i X j (2 * m * rr) Hm Hj ltac:(lia)) as S2.
    replace (1 * rr + i) with (rr + i) in S1 by lia.
    rewrite S1, S2. clear S1 S2. unfold blk at 2.
    assert (Edm : forall j', j' < m -> (i * m + j') / m = i /\ (i * m + j') mod m = j').
    { intros j' Hj'. split; [apply div_block|apply mod_block]; assumption. }
    set (E := Z.of_nat (c * (3 * freq k pos' + d))).
    destruct d as [|[|[|d]]]; try lia.
    + transitivity (shift 1 m (E * Z.of_nat i)
        (fun j' => X.[i * m + j'] + X.[m * rr + i * m + j'] + X.[2 * m * rr + i * m + j'])%T j).
      { replace (Z.of_nat (3 * c * freq k pos')) with E by (unfold E; lia).
        apply shift_congr; [assumption|]. intros j' Hj'. unfold blk, dif_bfly.
        rewrite Hr3. cbv zeta. destruct (Edm j' Hj') as [-> ->]. reflexivity. }
      rewrite !shift_add. wpow_eval.
      ring.
    + transitivity (shift 1 m (Z.of_nat (3 * c * freq k pos') * Z.of_nat i)
        (shift 1 m (Z.of_nat (c * i))
          (fun j' => X.[i * m + j'] + OMEGA * X.[m * rr + i * m + j']
                     + OMEGA2 * X.[2 * m * rr + i * m + j'])%T) j).
      { apply shift_congr; [assumption|]. intros j' Hj'. unfold blk, dif_bfly.
        rewrite Hr3. cbv zeta. destruct (Edm j' Hj') as [-> ->].
        rewrite (twiddle_exp3 m c (3 * rr) i) by lia. reflexivity. }
      rewrite shift_shift by assumption.
      replace (Z.of_nat (3 * c * freq k pos') * Z.of_nat i + Z.of_nat (c * i))%Z
        with (E * Z.of_nat i)%Z by (unfold E; nia).
      rewrite !shift_add, !shift_scale. wpow_eval.
      ring.
    + transitivity (shift 1 m (Z.of_nat (3 * c * freq k pos') * Z.of_nat i)
        (shift 1 m (Z.of_nat (2 * c * i))
          (fun j' => X.[i * m + j'] + OMEGA2 * X.[m * rr + i * m + j']
                     + OMEGA * X.[2 * m * rr + i * m + j'])%T) j).
      { apply shift_congr; [assumption|]. intros j' Hj'. unfold blk, dif_bfly.
        rewrite Hr3. cbv zeta. destruct (Edm j' Hj') as [-> ->].
        rewrite (twiddle_exp6 m c (3 * rr) i) by lia. reflexivity. }
      rewrite shift_shift by assumption.
      replace (Z.of_nat (3 * c * freq k pos') * Z.of_nat i + Z.of_nat (2 * c * i))%Z
        with (E * Z.of_nat i)%Z by (unfold E; nia).
      rewrite !shift_add, !shift_scale.
      change (wpow (Z.of_nat (2 * 0))) with T1.
      change (wpow (Z.of_nat (2 * 1))) with OMEGA2.
      change (wpow (Z.of_nat (2 * 2))) with OMEGA.
      ring.
Qed.

End Eval.


(** * Products of polynomials in y with block coefficients *)

Section Conv.
Variable m r : nat.
Hypothesis m_pos : 0 < m.
Hypothesis r_pos : 0 < r.

Lemma rm_pos : 0 < r * m.
Proof. apply Nat.mul_pos_pos; assumption. Qed.

Lemma bext_eq sigma Y l j :
  j < m ->
  bext sigma m r Y l j
  = (wpow (- sigma * (l / Z.of_nat r)) * Y (Z.to_nat (l mod Z.of_nat r) * m + j)%nat)%T.
Proof.
  intros Hj. unfold bext.
  pose proof (Z.mod_pos_bound l (Z.of_nat r) ltac:(lia)) as Hb.
  pose proof (Z.div_mod l (Z.of_nat r) ltac:(lia)) as Hdm.
  rewrite (ext_at sigma (r * m) Y _ (l / Z.of_nat r) (Z.to_nat (l mod Z.of_nat r) * m + j)).
  - reflexivity.
  - apply rm_pos.
  - rewrite Nat2Z.inj_add, !Nat2Z.inj_mul, Z2Nat.id by lia. nia.
  - assert (Z.to_nat (l mod Z.of_nat r) < r) by lia. nia.
Qed.

Lemma bext_nat sigma Y l j : l < r -> j < m -> bext sigma m r Y (Z.of_nat l) j = Y (l * m + j).
Proof.
  intros Hl Hj. rewrite bext_eq by assumption.
  rewrite Z.div_small, Z.mod_small by lia. rewrite Z.mul_0_r, wpow_0, Nat2Z.id. ring.
Qed.

Lemma bext_period sigma Y l q j :
  bext sigma m r Y (l + q * Z.of_nat r) j = (wpow (- sigma * q) * bext sigma m r Y l j)%T.
Proof.
  unfold bext.
  replace ((l + q * Z.of_nat r) * Z.of_nat m + Z.of_nat j)%Z
    with ((l * Z.of_nat m + Z.of_nat j) + q * Z.of_nat (r * m))%Z by nia.
  apply ext_period. apply rm_pos.
Qed.

Lemma bext_congr sigma Y Y' l j :
  j < m -> (forall x, x < r * m -> Y x = Y' x) ->
  bext sigma m r Y l j = bext sigma m r Y' l j.
Proof. intros Hj H. unfold bext. apply ext_congr; [apply rm_pos|assumption]. Qed.

Lemma yconv_congr sigma tau X X' Y Y' K :
  (forall x, x < r * m -> X x = X' x) ->
  (forall x, x < r * m -> Y x = Y' x) ->
  yconv sigma tau m r X Y K = yconv sigma tau m r X' Y' K.
Proof.
  intros HX HY. unfold yconv. apply Tsum_ext. intros i Hi.
  apply pmul_congr; [assumption| |].
  - intros j Hj. unfold blk. apply HX. nia.
  - intros j Hj. apply bext_congr; assumption.
Qed.

Lemma blk_yconv sigma tau X Y k j :
  j < m ->
  blk m (yconv sigma tau m r X Y) k j
  = Tsum r (fun i => pmul tau m (blk m X i) (bext sigma m r Y (Z.of_nat k - Z.of_nat i)) j).
Proof.
  intros Hj. unfold blk, yconv. rewrite div_block, mod_block by assumption. reflexivity.
Qed.

Lemma evalY_congr X X' E j :
  (forall x, x < r * m -> X x = X' x) -> evalY m r X E j = evalY m r X' E j.
Proof.
  intros H. unfold evalY. apply Tsum_ext. intros i Hi.
  apply shift_congr; [assumption|]. intros j' Hj'. unfold blk. apply H. nia.
Qed.

(** The convolution theorem: evaluation at y = x^E, an r-th root of unity,
    turns the cyclic product in y into the product of blocks. *)
Lemma conv_thm P Q E q j :
  (E * Z.of_nat r = 3 * Z.of_nat m * q)%Z ->
  pmul 1 m (evalY m r P E) (evalY m r Q E) j = evalY m r (yconv 0 1 m r P Q) E j.
Proof.
  intros HE.
  transitivity (Tsum r (fun i => Tsum r (fun l =>
    shift 1 m (E * Z.of_nat i + E * Z.of_nat l) (pmul 1 m (blk m P i) (blk m Q l)) j))).
  { unfold evalY at 1. rewrite pmul_sum_l. apply Tsum_ext. intros i Hi.
    rewrite pmul_shift_l by assumption.
    transitivity (shift 1 m (E * Z.of_nat i)
      (fun j' => Tsum r (fun l =>
         shift 1 m (E * Z.of_nat l) (pmul 1 m (blk m P i) (blk m Q l)) j')) j).
    - apply shift_congr; [assumption|]. intros j' Hj'. unfold evalY.
      rewrite pmul_sum_r. apply Tsum_ext. intros l Hl. apply pmul_shift_r. assumption.
    - rewrite (shift_sum 1 m (E * Z.of_nat i) r
        (fun l => shift 1 m (E * Z.of_nat l) (pmul 1 m (blk m P i) (blk m Q l)))).
      apply Tsum_ext. intros l Hl. apply shift_shift. assumption. }
  transitivity (Tsum r (fun i => Tsum r (fun k =>
    shift 1 m (E * Z.of_nat k)
      (pmul 1 m (blk m P i) (bext 0 m r Q (Z.of_nat k - Z.of_nat i))) j))).
  2:{ unfold evalY. rewrite Tsum_swap. apply Tsum_ext. intros k Hk.
      rewrite <- (shift_sum 1 m (E * Z.of_nat k) r
        (fun i => pmul 1 m (blk m P i) (bext 0 m r Q (Z.of_nat k - Z.of_nat i)))).
      apply shift_congr; [assumption|]. intros j' Hj'.
      symmetry. apply blk_yconv. assumption. }
  apply Tsum_ext. intros i Hi.
  set (G := fun k : Z => shift 1 m (E * k)
              (pmul 1 m (blk m P i) (bext 0 m r Q (k - Z.of_nat i))) j).
  assert (HG : forall k, G (k + Z.of_nat r)%Z = G k).
  { intros k. unfold G.
    replace (E * (k + Z.of_nat r))%Z with (E * k + (3 * q) * Z.of_nat m)%Z by lia.
    rewrite shift_period by assumption. rewrite Z.mul_1_l, wpow_3.
    transitivity (shift 1 m (E * k)
      (pmul 1 m (blk m P i) (bext 0 m r Q (k + Z.of_nat r - Z.of_nat i))) j); [ring|].
    apply shift_congr; [assumption|]. intros j' Hj'.
    apply pmul_congr; [assumption|reflexivity|]. intros j'' Hj''.
    replace (k + Z.of_nat r - Z.of_nat i)%Z with ((k - Z.of_nat i) + 1 * Z.of_nat r)%Z by lia.
    rewrite bext_period. wpow_eval. ring. }
  transitivity (Tsum r (fun k => G (Z.of_nat k + Z.of_nat i)%Z)).
  - apply Tsum_ext. intros l Hl. unfold G.
    replace (E * (Z.of_nat l + Z.of_nat i))%Z with (E * Z.of_nat i + E * Z.of_nat l)%Z by lia.
    apply shift_congr; [assumption|]. intros j' Hj'.
    apply pmul_congr; [assumption|reflexivity|]. intros j'' Hj''.
    replace (Z.of_nat l + Z.of_nat i - Z.of_nat i)%Z with (Z.of_nat l) by lia.
    rewrite bext_nat by assumption. reflexivity.
  - rewrite (Tsum_window r G HG). reflexivity.
Qed.

Lemma blk_twist c X i j : j < m -> blk m (twist m c X) i j = shift 1 m (c * Z.of_nat i) (blk m X i) j.
Proof.
  intros Hj. unfold blk at 1. unfold twist. rewrite div_block, mod_block by assumption.
  reflexivity.
Qed.

Lemma twist_conv c sigma P Q k j :
  (c * Z.of_nat r = sigma * Z.of_nat m)%Z -> k < r -> j < m ->
  shift 1 m (- c * Z.of_nat k) (blk m (yconv 0 1 m r (twist m c P) (twist m c Q)) k) j
  = yconv sigma 1 m r P Q (k * m + j).
Proof.
  intros Hc Hk Hj.
  rewrite (shift_congr 1 m m_pos _ _
    (fun j' => Tsum r (fun i => pmul 1 m (blk m (twist m c P) i)
                 (bext 0 m r (twist m c Q) (Z.of_nat k - Z.of_nat i)) j'))).
  2:{ intros j' Hj'. apply blk_yconv. assumption. }
  rewrite (shift_sum 1 m (- c * Z.of_nat k) r
    (fun i => pmul 1 m (blk m (twist m c P) i)
                 (bext 0 m r (twist m c Q) (Z.of_nat k - Z.of_nat i)))).
  unfold yconv. rewrite div_block, mod_block by assumption.
  apply Tsum_ext. intros i Hi.
  set (l := (Z.of_nat k - Z.of_nat i)%Z).
  pose proof (Z.mod_pos_bound l (Z.of_nat r) ltac:(lia)) as Hb.
  pose proof (Z.div_mod l (Z.of_nat r) ltac:(lia)) as Hdm.
  set (l0 := Z.to_nat (l mod Z.of_nat r)).
  assert (Hl0 : l0 < r) by (unfold l0; lia).
  transitivity (shift 1 m (- c * Z.of_nat k)
    (pmul 1 m (shift 1 m (c * Z.of_nat i) (blk m P i))
              (shift 1 m (c * Z.of_nat l0) (blk m Q l0))) j).
  { apply shift_congr; [assumption|]. intros j' Hj'.
    apply pmul_congr; [assumption| |].
    - intros j'' Hj''. apply blk_twist. assumption.
    - intros j'' Hj''. rewrite bext_eq by assumption. fold l0.
      change (- 0)%Z with 0%Z. rewrite Z.mul_0_l, wpow_0.
      change (twist m c Q (l0 * m + j'')) with (blk m (twist m c Q) l0 j'').
      rewrite blk_twist by assumption. ring. }
  rewrite (shift_congr 1 m m_pos _ _
    (shift 1 m (c * Z.of_nat i + c * Z.of_nat l0) (pmul 1 m (blk m P i) (blk m Q l0)))).
  2:{ intros j' Hj'. rewrite pmul_shift_l by assumption.
      rewrite <- (shift_shift 1 m m_pos). apply shift_congr; [assumption|].
      intros j'' Hj''. apply pmul_shift_r. assumption. }
  rewrite shift_shift by assumption.
  replace (- c * Z.of_nat k + (c * Z.of_nat i + c * Z.of_nat l0))%Z
    with (0 + (- sigma * (l / Z.of_nat r)) * Z.of_nat m)%Z.
  2:{ unfold l0. rewrite Z2Nat.id by lia. nia. }
  rewrite shift_period, shift_0 by assumption.
  rewrite <- pmul_scale_r. apply pmul_congr; [assumption|reflexivity|].
  intros j' Hj'. rewrite bext_eq by assumption. fold l0. unfold blk.
  f_equal. f_equal. lia.
Qed.

End Conv.


(** * Low and high halves of block products, and Chinese remaindering *)

Lemma hi_congr m u v v' j :
  j < m -> (forall x, x < m -> v x = v' x) -> hi m u v j = hi m u v' j.
Proof.
  intros Hj H. unfold hi. apply Tsum_ext. intros i Hi.
  destruct (Nat.leb_spec i j); [reflexivity|]. rewrite H by lia. reflexivity.
Qed.

Lemma hi_scale m c u v j : hi m u (fun x => c * v x)%T j = (c * hi m u v j)%T.
Proof.
  unfold hi. rewrite <- Tsum_mul_l. apply Tsum_ext. intros i Hi.
  destruct (Nat.leb_spec i j); ring.
Qed.

Section Halves.
Variable m : nat.
Hypothesis m_pos : 0 < m.

Lemma pmul_lo_hi tau u v j :
  j < m -> pmul tau m u v j = (lo m u v j + wpow tau * hi m u v j)%T.
Proof.
  intros Hj. unfold pmul, lo, hi. rewrite <- Tsum_mul_l, <- Tsum_add.
  apply Tsum_ext. intros i Hi. destruct (Nat.leb_spec i j) as [Hij|Hij].
  - rewrite (ext_at tau m v _ 0 (j - i)); try lia. rewrite Z.mul_0_r, wpow_0. ring.
  - rewrite (ext_at tau m v _ (-1) (j + m - i)); try lia.
    replace (- tau * -1)%Z with tau by lia. ring.
Qed.

Variable r : nat.
Hypothesis r_pos : 0 < r.

Lemma yconv_halves sigma tau X Y k j :
  k < r -> j < m ->
  yconv sigma tau m r X Y (k * m + j)
  = (Lsum sigma m r X Y (Z.of_nat k) j + wpow tau * Hsum sigma m r X Y (Z.of_nat k) j)%T.
Proof.
  intros Hk Hj. unfold yconv, Lsum, Hsum.
  rewrite div_block, mod_block by assumption.
  rewrite <- Tsum_mul_l, <- Tsum_add. apply Tsum_ext. intros i Hi.
  apply pmul_lo_hi. assumption.
Qed.

(** The product modulo x^(r*m) - omega^sigma, cut into blocks. *)
Lemma pmul_halves sigma X Y k j :
  k < r -> j < m ->
  pmul sigma (r * m) X Y (k * m + j)
  = (Lsum sigma m r X Y (Z.of_nat k) j + Hsum sigma m r X Y (Z.of_nat k - 1) j)%T.
Proof.
  intros Hk Hj. unfold pmul. rewrite Tsum_flatten.
  unfold Lsum, Hsum. rewrite <- Tsum_add. apply Tsum_ext. intros i Hi.
  unfold lo, hi. rewrite <- Tsum_add. apply Tsum_ext. intros i' Hi'.
  unfold blk, bext. destruct (Nat.leb_spec i' j) as [Hij|Hij].
  - transitivity (X.[i * m + i'] * ext sigma (r * m) Y
       ((Z.of_nat k - Z.of_nat i) * Z.of_nat m + Z.of_nat (j - i')))%T; [|ring].
    f_equal. f_equal. nia.
  - transitivity (X.[i * m + i'] * ext sigma (r * m) Y
       ((Z.of_nat k - 1 - Z.of_nat i) * Z.of_nat m + Z.of_nat (j + m - i')))%T; [|ring].
    f_equal. f_equal. nia.
Qed.

Lemma Hsum_wrap sigma X Y j :
  j < m ->
  Hsum sigma m r X Y (-1) j = (wpow sigma * Hsum sigma m r X Y (Z.of_nat r - 1) j)%T.
Proof.
  intros Hj. unfold Hsum. rewrite <- Tsum_mul_l. apply Tsum_ext. intros i Hi.
  rewrite <- hi_scale. apply hi_congr; [assumption|]. intros x Hx.
  replace (-1 - Z.of_nat i)%Z with ((Z.of_nat r - 1 - Z.of_nat i) + (-1) * Z.of_nat r)%Z by lia.
  rewrite bext_period by assumption. f_equal. f_equal. lia.
Qed.

Lemma conj_bext sigma Y l j :
  conj (bext sigma m r Y l j) = bext (2 * sigma) m r (fun x => conj (Y x)) l j.
Proof. unfold bext. apply conj_ext. Qed.

Lemma conj_yconv sigma tau X Y K :
  conj (yconv sigma tau m r X Y K)
  = yconv (2 * sigma) (2 * tau) m r (fun x => conj (X x)) (fun x => conj (Y x)) K.
Proof.
  unfold yconv. rewrite Tsum_conj. apply Tsum_ext. intros i Hi.
  rewrite conj_pmul. apply pmul_congr; [assumption|reflexivity|].
  intros j Hj. apply conj_bext.
Qed.

Lemma yconv_tau_mod sigma sigma' tau tau' X Y K :
  (sigma mod 3 = sigma' mod 3)%Z -> (tau mod 3 = tau' mod 3)%Z ->
  yconv sigma tau m r X Y K = yconv sigma' tau' m r X Y K.
Proof.
  intros Hs Ht. unfold yconv. apply Tsum_ext. intros i Hi.
  rewrite (pmul_tau_mod tau tau') by assumption.
  apply pmul_congr; [assumption|reflexivity|]. intros j Hj.
  unfold bext. apply ext_tau_mod. assumption.
Qed.

End Halves.

(** The lift from the residues modulo x^m - omega and x^m - omega^2. *)
Lemma crt_low L H : ((1 - OMEGA) * (L + OMEGA * H) + (1 - OMEGA2) * (L + OMEGA2 * H))%T
                    = (T3 * L)%T.
Proof. unfold T3. T_omega. Qed.

Lemma crt_high L H : ((OMEGA2 - OMEGA) * ((L + OMEGA * H) - (L + OMEGA2 * H)))%T = (T3 * H)%T.
Proof. unfold T3. T_omega. Qed.

Lemma crt_high_wrap L H :
  ((1 - OMEGA2) * ((L + OMEGA * H) - (L + OMEGA2 * H)))%T = (T3 * (OMEGA * H))%T.
Proof. unfold T3. T_omega. Qed.

Lemma T3_INV3_cancel u : (T3 * u * INV3)%T = u.
Proof.
  transitivity (u * (T3 * INV3))%T; [ring|]. rewrite T3_INV3. ring.
Qed.


(** * fftdif and fftdit compute dif_spec and dit_spec *)

Section Butterflies.
Variables tmp p m pos1 pos2 i : nat.
Hypothesis m_pos : 0 < m.
Hypothesis Hpos2 : pos2 = 2 * pos1.
Hypothesis Hblock : i * m + m <= pos1.
Hypothesis Hdisj : tmp + 3 * m <= p \/ p + 3 * pos1 <= tmp.

Lemma dif_inner_spec (M : mem) :
  let M1 := for_loop m (fun j M =>
    let M := upd M (tmp + j)
      (M.[p + (i*m + j)] + M.[p + (pos1 + i*m + j)] + M.[p + (pos2 + i*m + j)]) in
    let M := upd M (tmp + (m + j))
      (M.[p + (i*m + j)] + OMEGA * M.[p + (pos1 + i*m + j)]
                         + OMEGA2 * M.[p + (pos2 + i*m + j)]) in
    let M := upd M (tmp + (2*m + j))
      (M.[p + (i*m + j)] + OMEGA2 * M.[p + (pos1 + i*m + j)]
                         + OMEGA * M.[p + (pos2 + i*m + j)]) in
    upd M (p + (i*m + j)) (M.[tmp + j])) M in
  (forall j, j < m ->
     M1 (tmp + (m + j)) = (M.[p + (i*m + j)] + OMEGA * M.[p + (pos1 + i*m + j)]
                            + OMEGA2 * M.[p + (pos2 + i*m + j)])%T
     /\ M1 (tmp + (2*m + j)) = (M.[p + (i*m + j)] + OMEGA2 * M.[p + (pos1 + i*m + j)]
                            + OMEGA * M.[p + (pos2 + i*m + j)])%T
     /\ M1 (p + (i*m + j)) = (M.[p + (i*m + j)] + M.[p + (pos1 + i*m + j)]
                            + M.[p + (pos2 + i*m + j)])%T)
  /\ (forall x, ~ (tmp <= x < tmp + 3 * m) -> ~ (p + i * m <= x < p + i * m + m) ->
        M1 x = M x).
Proof.
  cbv zeta.
  match goal with |- context [for_loop m ?body M] => set (body0 := body) end.
  pose proof (for_loop_inv (fun k (M' : mem) =>
    (forall j, j < k ->
     M' (tmp + (m + j)) = (M.[p + (i*m + j)] + OMEGA * M.[p + (pos1 + i*m + j)]
                            + OMEGA2 * M.[p + (pos2 + i*m + j)])%T
     /\ M' (tmp + (2*m + j)) = (M.[p + (i*m + j)] + OMEGA2 * M.[p + (pos1 + i*m + j)]
                            + OMEGA * M.[p + (pos2 + i*m + j)])%T
     /\ M' (p + (i*m + j)) = (M.[p + (i*m + j)] + M.[p + (pos1 + i*m + j)]
                            + M.[p + (pos2 + i*m + j)])%T)
    /\ (forall x, ~ (tmp <= x < tmp + k) -> ~ (tmp + m <= x < tmp + m + k) ->
          ~ (tmp + 2 * m <= x < tmp + 2 * m + k) -> ~ (p + i * m <= x < p + i * m + k) ->
          M' x = M x)) m body0 M) as H.
  cbv beta in H. destruct H as [H1 H2].
  - split; [lia|reflexivity].
  - intros k M' Hk [I1 I2]. unfold body0.
    assert (R0 : M' (p + (i*m + k)) = M (p + (i*m + k))) by (apply I2; lia).
    assert (R1 : M' (p + (pos1 + i*m + k)) = M (p + (pos1 + i*m + k))) by (apply I2; lia).
    assert (R2 : M' (p + (pos2 + i*m + k)) = M (p + (pos2 + i*m + k))) by (apply I2; lia).
    split.
    + intros j Hj. destruct (Nat.eq_dec j k) as [->|Hne].
      * upd_simpl. rewrite R0, R1, R2. auto.
      * upd_simpl. apply I1. lia.
    + intros x Ha Hb Hc Hd. upd_simpl. apply I2; lia.
  - split; [intros j Hj; apply H1; assumption|].
    intros x Ha Hb. apply H2; lia.
Qed.

End Butterflies.

Section DifButterfly.
Variables tmp p m r : nat.
Hypothesis m_pos : 0 < m.
Let rr := r / 3.
Hypothesis Hdisj : tmp + 3 * m <= p \/ p + 3 * (m * rr) <= tmp.

Lemma dif_butterfly_spec i (M : mem) :
  i < rr -> 3 * i * m / r <= 3 * m -> 6 * i * m / r <= 3 * m ->
  let M3 := dif_butterfly tmp p m r (m * rr) (2 * m * rr) i M in
  (forall d j, d < 3 -> j < m ->
     M3 (p + (d * (m * rr) + (i * m + j))) = dif_bfly m r (rd M p) d (i * m + j))
  /\ (forall x, ~ (tmp <= x < tmp + 3 * m) ->
        (forall d, d < 3 -> ~ (p + d * (m * rr) + i * m <= x < p + d * (m * rr) + i * m + m)) ->
        M3 x = M x).
Proof.
  intros Hi Ht1 Ht2 M3.
  assert (Hb : i * m + m <= m * rr) by nia.
  destruct (dif_inner_spec tmp p m (m * rr) (2 * m * rr) i m_pos ltac:(lia) Hb Hdisj M) as [I1 I2].
  unfold dif_butterfly in M3.
  match type of I2 with forall x, _ -> _ -> ?f x = _ => set (M1 := f) in * end.
  destruct (twiddle_spec (tmp + m) m (3 * i * m / r) (p + m * rr + i * m) M1 Ht1 ltac:(lia))
    as [A1 A2].
  set (M2 := twiddle (tmp + m) m (3 * i * m / r) (p + m * rr + i * m) M1) in *.
  destruct (twiddle_spec (tmp + 2 * m) m (6 * i * m / r) (p + 2 * m * rr + i * m) M2 Ht2 ltac:(lia))
    as [B1 B2].
  fold M3 in B1, B2.
  split.
  - intros d j Hd Hj. unfold dif_bfly. fold rr. cbv zeta.
    rewrite div_block, mod_block by assumption.
    destruct d as [|[|[|d]]]; try lia.
    + rewrite B2, A2 by lia.
      replace (p + (0 * (m * rr) + (i * m + j))) with (p + (i * m + j)) by lia.
      destruct (I1 j Hj) as [_ [_ E]]. rewrite E. reflexivity.
    + rewrite B2 by lia.
      replace (p + (1 * (m * rr) + (i * m + j))) with (p + m * rr + i * m + j) by lia.
      rewrite A1 by assumption.
      apply shift_congr; [assumption|]. intros j' Hj'. unfold rd.
      replace (tmp + m + j') with (tmp + (m + j')) by lia.
      destruct (I1 j' Hj') as [E [_ _]]. rewrite E. reflexivity.
    + replace (p + (2 * (m * rr) + (i * m + j))) with (p + 2 * m * rr + i * m + j) by lia.
      rewrite B1 by assumption.
      apply shift_congr; [assumption|]. intros j' Hj'. unfold rd.
      rewrite A2 by lia.
      replace (tmp + 2 * m + j') with (tmp + (2 * m + j')) by lia.
      destruct (I1 j' Hj') as [_ [E _]]. rewrite E. reflexivity.
  - intros x Hx Hblocks.
    pose proof (Hblocks 0 ltac:(lia)). pose proof (Hblocks 1 ltac:(lia)).
    pose proof (Hblocks 2 ltac:(lia)).
    rewrite B2, A2 by lia. apply I2; lia.
Qed.

End DifButterfly.

Ltac split3 d := destruct d as [|[|[|d]]]; try lia.

Lemma fftdif_loop_spec tmp p m rr c (M : mem) :
  0 < m -> 0 < rr -> 3 * m = c * (3 * rr) ->
  tmp + 3 * m <= p \/ p + 3 * (m * rr) <= tmp ->
  let M1 := for_loop rr (dif_butterfly tmp p m (3 * rr) (m * rr) (2 * m * rr)) M in
  (forall d K, d < 3 -> K < m * rr ->
     M1 (p + (d * (m * rr) + K)) = dif_bfly m (3 * rr) (rd M p) d K)
  /\ (forall x, ~ (p <= x < p + 3 * (m * rr)) -> ~ (tmp <= x < tmp + 3 * m) -> M1 x = M x).
Proof.
  intros Hm Hrr Hc Hdisj.
  assert (Hr3 : 3 * rr / 3 = rr) by (rewrite Nat.mul_comm; apply Nat.div_mul; lia).
  assert (Hmc : m = c * rr) by lia.
  pose proof (for_loop_inv (fun i (M' : mem) =>
    (forall i0 d j, i0 < i -> d < 3 -> j < m ->
       M' (p + (d * (m * rr) + (i0 * m + j))) = dif_bfly m (3 * rr) (rd M p) d (i0 * m + j))
    /\ (forall x, ~ (tmp <= x < tmp + 3 * m) ->
          (forall i0 d, i0 < i -> d < 3 ->
             ~ (p + d * (m * rr) + i0 * m <= x < p + d * (m * rr) + i0 * m + m)) ->
          M' x = M x)) rr (dif_butterfly tmp p m (3 * rr) (m * rr) (2 * m * rr)) M) as H.
  cbv beta in H. destruct H as [H1 H2].
  - split; [intros; lia|auto].
  - intros i M' Hi [J1 J2].
    pose proof (dif_butterfly_spec tmp p m (3 * rr) Hm) as HB. cbv zeta in HB.
    rewrite Hr3 in HB. specialize (HB Hdisj i M' Hi).
    rewrite (twiddle_exp3 m c (3 * rr) i), (twiddle_exp6 m c (3 * rr) i) in HB by lia.
    assert (Hci : c * i < m) by nia.
    destruct (HB ltac:(lia) ltac:(lia)) as [B1 B2]. clear HB.
    assert (Hb : i * m + m <= m * rr) by nia.
    split.
    + intros i0 d j Hi0 Hd Hj. destruct (Nat.eq_dec i0 i) as [->|Hne].
      * rewrite B1 by assumption.
        rewrite <- (Hr3) at 1 2.
        apply dif_bfly_congr_block; [assumption|assumption|].
        rewrite Hr3. intros d' j' Hd' Hj'. unfold rd. apply J2.
        -- split3 d'; lia.
        -- intros i1 d1 Hi1 Hd1. assert (i1 * m + m <= i * m) by nia.
           split3 d'; split3 d1; lia.
      * assert (i0 * m + m <= i * m) by nia.
        rewrite B2.
        -- apply J1; [lia|assumption|assumption].
        -- split3 d; lia.
        -- intros d1 Hd1. split3 d; split3 d1; lia.
    + intros x Hx Hblocks. rewrite B2.
      * apply J2; [assumption|]. intros i0 d Hi0 Hd. apply Hblocks; lia.
      * assumption.
      * intros d Hd. apply Hblocks; lia.
  - split.
    + intros d K Hd HK.
      assert (HK' : K / m < rr /\ K mod m < m) by (apply div_mod_lt; [assumption|lia]).
      rewrite (div_mod_eq m K) at 1 2. apply H1; lia.
    + intros x Hx Ht. apply H2; [assumption|].
      intros i0 d Hi0 Hd. assert (i0 * m + m <= m * rr) by nia. split3 d; lia.
Qed.

Lemma pow3_neq1 k : (3 * 3 ^ k =? 1) = false.
Proof. pose proof (pow3_pos k). apply Nat.eqb_neq. lia. Qed.

Lemma fftdif_spec k : forall fuel tmp p m c M,
  0 < m -> 3 * m = c * 3 ^ k -> k < fuel ->
  tmp + 3 * m <= p \/ p + m * 3 ^ k <= tmp ->
  exists M', fftdif fuel tmp p m (3 ^ k) M = Some M'
    /\ (forall K, K < m * 3 ^ k -> M' (p + K) = dif_spec k m (rd M p) K)
    /\ (forall x, ~ (p <= x < p + m * 3 ^ k) -> ~ (tmp <= x < tmp + 3 * m) -> M' x = M x).
Proof.
  induction k as [|k IH]; intros fuel tmp p m c M Hm Hc Hfuel Hdisj.
  - destruct fuel as [|f]; [lia|]. exists M. cbn. auto.
  - destruct fuel as [|f]; [lia|].
    cbn [Nat.pow] in *. cbn [fftdif dif_spec]. rewrite pow3_neq1. cbv zeta.
    rewrite !pow3_div.
    pose proof (pow3_pos k) as Hp. set (rr := 3 ^ k) in *.
    set (N := m * rr) in *.
    destruct (fftdif_loop_spec tmp p m rr c M Hm Hp Hc ltac:(fold N; lia)) as [L1 L2].
    fold N in L1, L2.
    set (M1 := for_loop rr _ M) in *.
    destruct (IH f tmp p m (3 * c) M1 Hm ltac:(lia) ltac:(lia) ltac:(fold rr; fold N; lia))
      as [M2 [E2 [V2 F2]]].
    destruct (IH f tmp (p + N) m (3 * c) M2 Hm ltac:(lia) ltac:(lia) ltac:(fold rr; fold N; lia))
      as [M3 [E3 [V3 F3]]].
    destruct (IH f tmp (p + 2 * m * rr) m (3 * c) M3 Hm ltac:(lia) ltac:(lia)
                ltac:(fold rr; fold N; lia))
      as [M4 [E4 [V4 F4]]].
    fold rr in E2, E3, E4, V2, V3, V4, F2, F3, F4. fold N in V2, V3, V4, F2, F3, F4.
    replace (2 * m * rr) with (2 * N) in * by (unfold N; lia).
    rewrite E2, E3, E4. exists M4. split; [reflexivity|]. split.
    + intros K HK.
      assert (HN : 0 < N) by (apply Nat.mul_pos_pos; assumption).
      assert (HK' : K / N < 3 /\ K mod N < N) by (apply div_mod_lt; lia).
      destruct HK' as [Hd HK'].
      pose proof (div_mod_eq N K) as EK.
      set (d := K / N) in *. set (K' := K mod N) in *. rewrite EK.
      split3 d.
      * replace (p + (0 * N + K')) with (p + K') by lia.
        rewrite F4, F3, V2 by lia.
        apply dif_spec_congr; [assumption|assumption|].
        intros x Hx. unfold rd.
        replace (p + x) with (p + (0 * N + x)) by lia. apply L1; lia.
      * replace (p + (1 * N + K')) with (p + N + K') by lia.
        rewrite F4, V3 by lia.
        apply dif_spec_congr; [assumption|assumption|].
        intros x Hx. unfold rd. rewrite F2 by lia.
        replace (p + N + x) with (p + (1 * N + x)) by lia. apply L1; lia.
      * replace (p + (2 * N + K')) with (p + 2 * N + K') by lia.
        rewrite V4 by lia.
        apply dif_spec_congr; [assumption|assumption|].
        intros x Hx. unfold rd. rewrite F3, F2 by lia.
        replace (p + 2 * N + x) with (p + (2 * N + x)) by lia. apply L1; lia.
    + intros x Hx Ht. rewrite F4, F3, F2, L2 by lia. reflexivity.
Qed.

Section DitButterfly.
Variables tmp p m r : nat.
Hypothesis m_pos : 0 < m.
Let rr := r / 3.
Hypothesis Hdisj : tmp + 3 * m <= p \/ p + 3 * (m * rr) <= tmp.

Lemma dit_inner_spec i (M : mem) :
  i * m + m <= m * rr ->
  let M1 := for_loop m (fun j M =>
    let M := upd M (tmp + j) (M.[p + (i*m + j)]) in
    let M := upd M (p + (i*m + j))
      (M.[tmp + j] + M.[tmp + (m + j)] + M.[tmp + (2*m + j)]) in
    let M := upd M (p + (i*m + m * rr + j))
      (M.[tmp + j] + OMEGA2 * M.[tmp + (m + j)] + OMEGA * M.[tmp + (2*m + j)]) in
    upd M (p + (i*m + 2 * m * rr + j))
      (M.[tmp + j] + OMEGA * M.[tmp + (m + j)] + OMEGA2 * M.[tmp + (2*m + j)])) M in
  (forall j, j < m ->
     M1 (p + (i*m + j))
       = (M.[p + (i*m + j)] + M.[tmp + (m + j)] + M.[tmp + (2*m + j)])%T
     /\ M1 (p + (i*m + m * rr + j))
       = (M.[p + (i*m + j)] + OMEGA2 * M.[tmp + (m + j)] + OMEGA * M.[tmp + (2*m + j)])%T
     /\ M1 (p + (i*m + 2 * m * rr + j))
       = (M.[p + (i*m + j)] + OMEGA * M.[tmp + (m + j)] + OMEGA2 * M.[tmp + (2*m + j)])%T)
  /\ (forall x, ~ (tmp <= x < tmp + 3 * m) ->
        (forall d, d < 3 -> ~ (p + d * (m * rr) + i * m <= x < p + d * (m * rr) + i * m + m)) ->
        M1 x = M x).
Proof.
  intros Hb. cbv zeta.
  match goal with |- context [for_loop m ?body M] => set (body0 := body) end.
  pose proof (for_loop_inv (fun k (M' : mem) =>
    (forall j, j < k ->
     M' (p + (i*m + j))
       = (M.[p + (i*m + j)] + M.[tmp + (m + j)] + M.[tmp + (2*m + j)])%T
     /\ M' (p + (i*m + m * rr + j))
       = (M.[p + (i*m + j)] + OMEGA2 * M.[tmp + (m + j)] + OMEGA * M.[tmp + (2*m + j)])%T
     /\ M' (p + (i*m + 2 * m * rr + j))
       = (M.[p + (i*m + j)] + OMEGA * M.[tmp + (m + j)] + OMEGA2 * M.[tmp + (2*m + j)])%T)
    /\ (forall x, ~ (tmp <= x < tmp + k) ->
          (forall d, d < 3 -> ~ (p + d * (m * rr) + i * m <= x < p + d * (m * rr) + i * m + k)) ->
          M' x = M x)) m body0 M) as H.
  cbv beta in H. destruct H as [H1 H2].
  - split; [lia|reflexivity].
  - intros k M' Hk [I1 I2]. unfold body0.
    assert (R0 : M' (p + (i*m + k)) = M (p + (i*m + k))).
    { apply I2; [lia|]. intros d Hd. split3 d; lia. }
    assert (R1 : M' (tmp + (m + k)) = M (tmp + (m + k))).
    { apply I2; [lia|]. intros d Hd. split3 d; lia. }
    assert (R2 : M' (tmp + (2 * m + k)) = M (tmp + (2 * m + k))).
    { apply I2; [lia|]. intros d Hd. split3 d; lia. }
    split.
    + intros j Hj. destruct (Nat.eq_dec j k) as [->|Hne].
      * upd_simpl. rewrite R0, R1, R2. auto.
      * upd_simpl. apply I1. lia.
    + intros x Ha Hbl.
      pose proof (Hbl 0 ltac:(lia)). pose proof (Hbl 1 ltac:(lia)). pose proof (Hbl 2 ltac:(lia)).
      upd_simpl. apply I2; [lia|]. intros d Hd. split3 d; lia.
  - split; [intros j Hj; apply H1; assumption|].
    intros x Ha Hbl. apply H2; [lia|assumption].
Qed.

Lemma dit_butterfly_spec i (M : mem) :
  i < rr ->
  let M3 := dit_butterfly tmp p m r (m * rr) (2 * m * rr) i M in
  (forall d j, d < 3 -> j < m ->
     M3 (p + (d * (m * rr) + (i * m + j))) = dit_bfly m r (rd M p) (d * (m * rr) + (i * m + j)))
  /\ (forall x, ~ (tmp <= x < tmp + 3 * m) ->
        (forall d, d < 3 -> ~ (p + d * (m * rr) + i * m <= x < p + d * (m * rr) + i * m + m)) ->
        M3 x = M x).
Proof.
  intros Hi M3.
  assert (Hb : i * m + m <= m * rr) by nia.
  unfold dit_butterfly in M3.
  destruct (twiddle_spec (p + m * rr + i * m) m (3 * m - 3 * i * m / r) (tmp + m) M
              ltac:(lia) ltac:(lia)) as [A1 A2].
  set (M1 := twiddle (p + m * rr + i * m) m (3 * m - 3 * i * m / r) (tmp + m) M) in *.
  destruct (twiddle_spec (p + 2 * m * rr + i * m) m (3 * m - 6 * i * m / r) (tmp + 2 * m) M1
              ltac:(lia) ltac:(lia)) as [B1 B2].
  set (M2 := twiddle (p + 2 * m * rr + i * m) m (3 * m - 6 * i * m / r) (tmp + 2 * m) M1) in *.
  destruct (dit_inner_spec i M2 Hb) as [I1 I2]. fold M3 in I1, I2.
  assert (T0 : forall j, j < m -> M2 (p + (i * m + j)) = rd M p (i * m + j)).
  { intros j Hj. rewrite B2, A2 by lia. reflexivity. }
  assert (T1 : forall j, j < m -> M2 (tmp + (m + j))
     = shift 1 m (Z.of_nat (3 * m - 3 * i * m / r)) (fun j => rd M p (m * rr + i * m + j)) j).
  { intros j Hj. rewrite B2 by lia. replace (tmp + (m + j)) with (tmp + m + j) by lia.
    rewrite A1 by assumption. apply shift_congr; [assumption|].
    intros j' Hj'. unfold rd. f_equal. lia. }
  assert (T2 : forall j, j < m -> M2 (tmp + (2 * m + j))
     = shift 1 m (Z.of_nat (3 * m - 6 * i * m / r)) (fun j => rd M p (2 * m * rr + i * m + j)) j).
  { intros j Hj. replace (tmp + (2 * m + j)) with (tmp + 2 * m + j) by lia.
    rewrite B1 by assumption. apply shift_congr; [assumption|].
    intros j' Hj'. unfold rd. rewrite A2 by lia. f_equal. lia. }
  split.
  - intros d j Hd Hj. rewrite dit_bfly_at by assumption. fold rr. cbv zeta.
    destruct (I1 j Hj) as [E0 [E1 E2]].
    rewrite <- T0, <- T1, <- T2 by assumption.
    split3 d.
    + replace (p + (0 * (m * rr) + (i * m + j))) with (p + (i * m + j)) by lia. exact E0.
    + replace (p + (1 * (m * rr) + (i * m + j))) with (p + (i * m + m * rr + j)) by lia. exact E1.
    + replace (p + (2 * (m * rr) + (i * m + j))) with (p + (i * m + 2 * m * rr + j)) by lia.
      exact E2.
  - intros x Hx Hblocks. rewrite I2 by assumption.
    rewrite B2, A2 by lia. reflexivity.
Qed.

End DitButterfly.

Lemma fftdit_loop_spec tmp p m rr (M : mem) :
  0 < m -> 0 < rr ->
  tmp + 3 * m <= p \/ p + 3 * (m * rr) <= tmp ->
  let M1 := for_loop rr (dit_butterfly tmp p m (3 * rr) (m * rr) (2 * m * rr)) M in
  (forall K, K < 3 * (m * rr) -> M1 (p + K) = dit_bfly m (3 * rr) (rd M p) K)
  /\ (forall x, ~ (p <= x < p + 3 * (m * rr)) -> ~ (tmp <= x < tmp + 3 * m) -> M1 x = M x).
Proof.
  intros Hm Hrr Hdisj.
  assert (Hr3 : 3 * rr / 3 = rr) by (rewrite Nat.mul_comm; apply Nat.div_mul; lia).
  pose proof (for_loop_inv (fun i (M' : mem) =>
    (forall i0 d j, i0 < i -> d < 3 -> j < m ->
       M' (p + (d * (m * rr) + (i0 * m + j)))
       = dit_bfly m (3 * rr) (rd M p) (d * (m * rr) + (i0 * m + j)))
    /\ (forall x, ~ (tmp <= x < tmp + 3 * m) ->
          (forall i0 d, i0 < i -> d < 3 ->
             ~ (p + d * (m * rr) + i0 * m <= x < p + d * (m * rr) + i0 * m + m)) ->
          M' x = M x)) rr (dit_butterfly tmp p m (3 * rr) (m * rr) (2 * m * rr)) M) as H.
  cbv beta in H. destruct H as [H1 H2].
  - split; [intros; lia|auto].
  - intros i M' Hi [J1 J2].
    pose proof (dit_butterfly_spec tmp p m (3 * rr) Hm) as HB. cbv zeta in HB.
    rewrite Hr3 in HB. specialize (HB Hdisj i M' Hi).
    destruct HB as [B1 B2].
    assert (Hb : i * m + m <= m * rr) by nia.
    split.
    + intros i0 d j Hi0 Hd Hj. destruct (Nat.eq_dec i0 i) as [->|Hne].
      * rewrite B1 by assumption.
        pose proof (dit_bfly_at m Hm (3 * rr)) as AT. rewrite Hr3 in AT.
        rewrite !AT by assumption. clear AT. cbv zeta.
        assert (R : forall d' j', d' < 3 -> j' < m ->
                  rd M' p (d' * (m * rr) + i * m + j') = rd M p (d' * (m * rr) + i * m + j')).
        { intros d' j' Hd' Hj'. unfold rd. apply J2.
          - split3 d'; lia.
          - intros i1 d1 Hi1 Hd1. assert (i1 * m + m <= i * m) by nia.
            split3 d'; split3 d1; lia. }
        assert (R0 : rd M' p (i * m + j) = rd M p (i * m + j)).
        { apply (R 0 j); lia. }
        assert (R1 : shift 1 m (Z.of_nat (3 * m - 3 * i * m / (3 * rr)))
                       (fun j0 => rd M' p (m * rr + i * m + j0)) j
                   = shift 1 m (Z.of_nat (3 * m - 3 * i * m / (3 * rr)))
                       (fun j0 => rd M p (m * rr + i * m + j0)) j).
        { apply shift_congr; [assumption|]. intros j' Hj'.
          replace (m * rr + i * m + j') with (1 * (m * rr) + i * m + j') by lia.
          apply R; lia. }
        assert (R2 : shift 1 m (Z.of_nat (3 * m - 6 * i * m / (3 * rr)))
                       (fun j0 => rd M' p (2 * m * rr + i * m + j0)) j
                   = shift 1 m (Z.of_nat (3 * m - 6 * i * m / (3 * rr)))
                       (fun j0 => rd M p (2 * m * rr + i * m + j0)) j).
        { apply shift_congr; [assumption|]. intros j' Hj'.
          replace (2 * m * rr + i * m + j') with (2 * (m * rr) + i * m + j') by lia.
          apply R; lia. }
        rewrite R0, R1, R2. reflexivity.
      * assert (i0 * m + m <= i * m) by nia.
        rewrite B2.
        -- apply J1; [lia|assumption|assumption].
        -- split3 d; lia.
        -- intros d1 Hd1. split3 d; split3 d1; lia.
    + intros x Hx Hblocks. rewrite B2.
      * apply J2; [assumption|]. intros i0 d Hi0 Hd. apply Hblocks; lia.
      * assumption.
      * intros d Hd. apply Hblocks; lia.
  - split.
    + intros K HK.
      assert (HN : 0 < m * rr) by (apply Nat.mul_pos_pos; assumption).
      assert (HK' : K / (m * rr) < 3 /\ K mod (m * rr) < m * rr) by (apply div_mod_lt; lia).
      destruct HK' as [Hd HK'].
      pose proof (div_mod_eq (m * rr) K) as EK.
      set (d := K / (m * rr)) in *. set (K' := K mod (m * rr)) in *.
      assert (HK'' : K' / m < rr /\ K' mod m < m) by (apply div_mod_lt; [assumption|lia]).
      pose proof (div_mod_eq m K') as EK'.
      rewrite EK, EK'. apply H1; lia.
    + intros x Hx Ht. apply H2; [assumption|].
      intros i0 d Hi0 Hd. assert (i0 * m + m <= m * rr) by nia. split3 d; lia.
Qed.

Lemma fftdit_spec k : forall fuel tmp p m M,
  0 < m -> k < fuel ->
  tmp + 3 * m <= p \/ p + m * 3 ^ k <= tmp ->
  exists M', fftdit fuel tmp p m (3 ^ k) M = Some M'
    /\ (forall K, K < m * 3 ^ k -> M' (p + K) = dit_spec k m (rd M p) K)
    /\ (forall x, ~ (p <= x < p + m * 3 ^ k) -> ~ (tmp <= x < tmp + 3 * m) -> M' x = M x).
Proof.
  induction k as [|k IH]; intros fuel tmp p m M Hm Hfuel Hdisj.
  - destruct fuel as [|f]; [lia|]. exists M. cbn. auto.
  - destruct fuel as [|f]; [lia|].
    cbn [Nat.pow] in *. cbn [fftdit dit_spec]. rewrite pow3_neq1. cbv zeta.
    rewrite !pow3_div.
    pose proof (pow3_pos k) as Hp. set (rr := 3 ^ k) in *.
    set (N := m * rr) in *.
    assert (HN : 0 < N) by (apply Nat.mul_pos_pos; assumption).
    destruct (IH f tmp p m M Hm ltac:(lia) ltac:(fold rr; fold N; lia))
      as [M1 [E1 [V1 F1]]].
    destruct (IH f tmp (p + N) m M1 Hm ltac:(lia) ltac:(fold rr; fold N; lia))
      as [M2 [E2 [V2 F2]]].
    destruct (IH f tmp (p + 2 * m * rr) m M2 Hm ltac:(lia) ltac:(fold rr; fold N; lia))
      as [M3 [E3 [V3 F3]]].
    fold rr in E1, E2, E3, V1, V2, V3, F1, F2, F3. fold N in V1, V2, V3, F1, F2, F3.
    rewrite E1, E2, E3.
    destruct (fftdit_loop_spec tmp p m rr M3 Hm Hp ltac:(fold N; lia)) as [L1 L2].
    fold N in L1, L2.
    set (M4 := for_loop rr _ M3) in *.
    replace (2 * m * rr) with (2 * N) in * by (unfold N; lia).
    exists M4. split; [reflexivity|]. split.
    + intros K HK. rewrite L1 by lia.
      assert (Hr3 : 3 * rr / 3 = rr) by (rewrite Nat.mul_comm; apply Nat.div_mul; lia).
      apply dit_bfly_congr; rewrite ?Hr3; fold N; try lia.
      intros x Hx.
      assert (Hx' : x / N < 3 /\ x mod N < N) by (apply div_mod_lt; lia).
      destruct Hx' as [Hd Hx'].
      pose proof (div_mod_eq N x) as Ex.
      set (d := x / N) in *. set (x' := x mod N) in *.
      unfold rd at 1. rewrite Ex at 1.
      split3 d.
      * replace (p + (0 * N + x')) with (p + x') by lia.
        rewrite F3, F2, V1 by lia.
        apply dit_spec_congr; [assumption|assumption|].
        intros y Hy. reflexivity.
      * replace (p + (1 * N + x')) with (p + N + x') by lia.
        rewrite F3, V2 by lia.
        apply dit_spec_congr; [assumption|assumption|].
        intros y Hy. unfold rd. rewrite F1 by lia. f_equal. lia.
      * replace (p + (2 * N + x')) with (p + 2 * N + x') by lia.
        rewrite V3 by lia.
        apply dit_spec_congr; [assumption|assumption|].
        intros y Hy. unfold rd. rewrite F2, F1 by lia. f_equal. lia.
    + intros x Hx Ht. rewrite L2, F3, F2, F1 by lia. reflexivity.
Qed.

(** [fftdit] after [fftdif] on the same buffer. *)
Lemma fftdit_fftdif k fuel tmp p m c (M : mem) :
  0 < m -> 3 * m = c * 3 ^ k -> k < fuel ->
  tmp + 3 * m <= p \/ p + m * 3 ^ k <= tmp ->
  exists M1 M2,
    fftdif fuel tmp p m (3 ^ k) M = Some M1
    /\ fftdit fuel tmp p m (3 ^ k) M1 = Some M2
    /\ (forall K, K < m * 3 ^ k -> M2 (p + K) = (Tnat (3 ^ k) * M.[p + K])%T)
    /\ (forall x, ~ (p <= x < p + m * 3 ^ k) -> ~ (tmp <= x < tmp + 3 * m) -> M2 x = M x).
Proof.
  intros Hm Hc Hfuel Hdisj.
  destruct (fftdif_spec k fuel tmp p m c M Hm Hc Hfuel Hdisj) as [M1 [E1 [V1 F1]]].
  destruct (fftdit_spec k fuel tmp p m M1 Hm Hfuel Hdisj) as [M2 [E2 [V2 F2]]].
  exists M1, M2. repeat split; try assumption.
  - intros K HK. rewrite V2 by assumption.
    rewrite (dit_spec_congr m Hm k (rd M1 p) (dif_spec k m (rd M p))); try assumption.
    apply (dit_dif_spec m Hm k c (rd M p) K); assumption.
  - intros x Hx Ht. rewrite F2, F1 by assumption. reflexivity.
Qed.


(** * The loops that pick m and compute the inverse of r *)

Lemma pow3_lt a b : a < b -> 3 ^ a < 3 ^ b.
Proof. intros H. apply Nat.pow_lt_mono_r; lia. Qed.

Lemma pow3_le a b : a <= b -> 3 ^ a <= 3 ^ b.
Proof. intros H. apply Nat.pow_le_mono_r; lia. Qed.

Lemma pow3_sq j : 3 ^ j * 3 ^ j = 3 ^ (2 * j).
Proof. rewrite <- Nat.pow_add_r. f_equal. lia. Qed.

Lemma pow3_S j : 3 ^ j * 3 = 3 ^ S j.
Proof. cbn [Nat.pow]. lia. Qed.

(** [while (m*m < n) m *= 3] leaves m = 3^a' when n = 3^(a'+b), b <= a' <= b+1. *)
Lemma mul_m_loop_from a' b d : forall j fuel,
  b <= a' <= b + 1 -> j + d = a' -> d < fuel ->
  while_loop fuel (fun m => m * m <? 3 ^ (a' + b)) (fun m => m * 3) (3 ^ j) = Some (3 ^ a').
Proof.
  induction d as [|d IH]; intros j fuel Hab Hj Hfuel; (destruct fuel as [|f]; [lia|]);
    cbn [while_loop].
  - rewrite pow3_sq.
    assert (H : (3 ^ (2 * j) <? 3 ^ (a' + b)) = false).
    { apply Nat.ltb_ge. apply pow3_le. lia. }
    rewrite H. f_equal. f_equal. lia.
  - rewrite pow3_sq.
    assert (H : (3 ^ (2 * j) <? 3 ^ (a' + b)) = true).
    { apply Nat.ltb_lt. apply pow3_lt. lia. }
    rewrite H. rewrite pow3_S. apply IH; lia.
Qed.

Lemma mul_m_loop a' b fuel :
  b <= a' <= b + 1 -> a' < fuel ->
  while_loop fuel (fun m => m * m <? 3 ^ (a' + b)) (fun m => m * 3) 1 = Some (3 ^ a').
Proof. intros Hab H. apply (mul_m_loop_from a' b a' 0 fuel); lia. Qed.

(** [while (m*m <= n) m *= 3] leaves m = 3^(a'+1) when n = 3^(a'+b), a' <= b <= a'+1. *)
Lemma cyc_m_loop_from a' b d : forall j fuel,
  a' <= b <= a' + 1 -> j + d = a' + 1 -> d < fuel ->
  while_loop fuel (fun m => m * m <=? 3 ^ (a' + b)) (fun m => m * 3) (3 ^ j)
  = Some (3 ^ (a' + 1)).
Proof.
  induction d as [|d IH]; intros j fuel Hab Hj Hfuel; (destruct fuel as [|f]; [lia|]);
    cbn [while_loop].
  - rewrite pow3_sq.
    assert (H : (3 ^ (2 * j) <=? 3 ^ (a' + b)) = false).
    { apply Nat.leb_gt. apply pow3_lt. lia. }
    rewrite H. f_equal. f_equal. lia.
  - rewrite pow3_sq.
    assert (H : (3 ^ (2 * j) <=? 3 ^ (a' + b)) = true).
    { apply Nat.leb_le. apply pow3_le. lia. }
    rewrite H. rewrite pow3_S. apply IH; lia.
Qed.

Lemma cyc_m_loop a' b fuel :
  a' <= b <= a' + 1 -> a' + 1 < fuel ->
  while_loop fuel (fun m => m * m <=? 3 ^ (a' + b)) (fun m => m * 3) 1 = Some (3 ^ (a' + 1)).
Proof. intros Hab H. apply (cyc_m_loop_from a' b (a' + 1) 0 fuel); lia. Qed.

Lemma inv_pow_from b d : forall j fuel u,
  j + d = b -> d < fuel ->
  while_loop fuel (fun s : nat * T => fst s <? 3 ^ b)
    (fun s => (fst s * 3, Tmul_assign (snd s) INV3)) (3 ^ j, u)
  = Some (3 ^ b, (u * Tpow INV3 d)%T).
Proof.
  induction d as [|d IH]; intros j fuel u Hj Hfuel; (destruct fuel as [|f]; [lia|]);
    cbn [while_loop fst snd].
  - assert (H : (3 ^ j <? 3 ^ b) = false).
    { apply Nat.ltb_ge. apply pow3_le. lia. }
    rewrite H. f_equal. f_equal; [f_equal; lia|]. cbn. ring.
  - assert (H : (3 ^ j <? 3 ^ b) = true).
    { apply Nat.ltb_lt. apply pow3_lt. lia. }
    rewrite H. rewrite pow3_S, Tmul_assign_eq.
    rewrite (IH (S j) f) by lia. f_equal. f_equal. cbn [Tpow].
    induction d as [|d' IHd]; cbn [Tpow]; [ring|].
    transitivity ((u * INV3 * Tpow INV3 d') * INV3)%T; [ring|].
    clear IHd. ring.
Qed.

(** [inv_pow] returns 3^(-b) when r = 3^b. *)
Lemma inv_pow_spec b fuel : b < fuel -> inv_pow fuel (3 ^ b) = Some (Tpow INV3 b).
Proof.
  intros H. unfold inv_pow.
  pose proof (inv_pow_from b b 0 fuel T1 ltac:(lia) H) as E.
  change (3 ^ 0) with 1 in E. rewrite E. cbn [snd]. f_equal. ring.
Qed.

Lemma Tnat_pow3_inv b : (Tnat (3 ^ b) * Tpow INV3 b)%T = 1%T.
Proof.
  induction b as [|b IH]; [reflexivity|].
  cbn [Nat.pow Tpow]. rewrite Tnat_mul. change (Tnat 3) with T3.
  transitivity ((Tnat (3 ^ b) * Tpow INV3 b) * (T3 * INV3))%T; [ring|].
  rewrite IH, T3_INV3. ring.
Qed.


(** * mul: the grade-school branch *)

Lemma zero_loop_spec n to (M : mem) :
  let M' := for_loop n (fun i M => upd M (to + i) 0%T) M in
  (forall K, K < n -> M' (to + K) = 0%T)
  /\ (forall x, ~ (to <= x < to + n) -> M' x = M x).
Proof.
  destruct (for_loop_pointwise n (fun i => to + i) (fun _ _ => 0%T) (fun _ => 0%T) M) as [A1 A2].
  - intros; lia.
  - reflexivity.
  - split; [exact A1|]. intros x Hx. apply A2. intros; lia.
Qed.

Lemma mul_base_spec p q n to (M : mem) :
  p + n <= to \/ to + n <= p -> q + n <= to \/ to + n <= q ->
  (forall K, K < n -> mul_base p q n to M (to + K) = pmul 1 n (rd M p) (rd M q) K)
  /\ (forall x, ~ (to <= x < to + n) -> mul_base p q n to M x = M x).
Proof.
  intros Hp Hq. unfold mul_base.
  destruct (zero_loop_spec n to M) as [Z1 Z2]. cbv zeta in Z1, Z2.
  set (M0 := for_loop n (fun i M => upd M (to + i) 0%T) M) in *.
  match goal with |- context [for_loop n ?body M0] => set (body0 := body) end.
  pose proof (for_loop_inv (fun i (M' : mem) =>
    (forall K, K < n ->
       M' (to + K) = Tsum i (fun i' => M.[p + i'] * ext 1 n (rd M q) (Z.of_nat K - Z.of_nat i'))%T)
    /\ (forall x, ~ (to <= x < to + n) -> M' x = M x)) n body0 M0) as H.
  cbv beta in H. destruct H as [H1 H2].
  - split; [intros K HK; rewrite Z1 by assumption; reflexivity|exact Z2].
  - intros i M' Hi [I1 I2]. unfold body0.
    destruct (for_loop_pointwise (n - i) (fun j => to + (i + j))
      (fun j M'' => Tadd_assign (M''.[to + (i + j)]) (M''.[p + i] * M''.[q + j]))
      (fun j => M'.[to + (i + j)] + M.[p + i] * M.[q + j])%T M') as [A1 A2].
    { intros; lia. }
    { intros j M'' Hj HM. rewrite Tadd_assign_eq.
      rewrite !HM by (intros; lia). rewrite (I2 (p + i)), (I2 (q + j)) by lia. reflexivity. }
    set (M1 := for_loop (n - i) _ M') in *.
    destruct (for_range_pointwise (n - i) n (fun j => to + (i + j - n))
      (fun j M'' => Tadd_assign (M''.[to + (i + j - n)]) (M''.[p + i] * M''.[q + j] * OMEGA))
      (fun j => M'.[to + (i + j - n)] + M.[p + i] * M.[q + j] * OMEGA)%T M1) as [B1 B2].
    { lia. }
    { intros; lia. }
    { intros j M'' Hj HM. rewrite Tadd_assign_eq.
      rewrite !HM by (intros; lia). rewrite !A2 by (intros; lia).
      rewrite (I2 (p + i)), (I2 (q + j)) by lia. reflexivity. }
    set (M2 := for_range (n - i) n _ M1) in *.
    split.
    + intros K HK. cbn [Tsum]. rewrite <- I1 by assumption.
      assert (Hn : 0 < n) by lia.
      destruct (Nat.lt_ge_cases K i) as [HKi|HKi].
      * specialize (B1 (K + n - i) ltac:(lia)).
        replace (i + (K + n - i) - n) with K in B1 by lia.
        rewrite B1.
        rewrite (ext_at 1 n (rd M q) _ (-1) (K + n - i)); try lia.
        wpow_eval. unfold rd. ring.
      * rewrite B2 by (intros; lia).
        specialize (A1 (K - i) ltac:(lia)).
        replace (i + (K - i)) with K in A1 by lia.
        rewrite A1.
        rewrite (ext_at 1 n (rd M q) _ 0 (K - i)); try lia.
        wpow_eval. unfold rd. ring.
    + intros x Hx. rewrite B2, A2 by (intros; lia). apply I2. assumption.
  - split.
    + intros K HK. rewrite H1 by assumption. reflexivity.
    + exact H2.
Qed.

(** * Loops of twiddles over the blocks of a buffer *)

Lemma twiddle_loop_spec src dst m r (t : nat -> nat) (M : mem) :
  0 < m -> (forall i, i < r -> t i <= 3 * m) -> disj src (r * m) dst (r * m) ->
  let M' := for_loop r (fun i M => twiddle (src + m * i) m (t i) (dst + m * i) M) M in
  (forall i j, i < r -> j < m ->
     M' (dst + (i * m + j)) = shift 1 m (Z.of_nat (t i)) (blk m (rd M src) i) j)
  /\ (forall x, ~ (dst <= x < dst + r * m) -> M' x = M x).
Proof.
  intros Hm Ht Hd. unfold disj in Hd.
  pose proof (for_loop_inv (fun i (M' : mem) =>
    (forall i0 j, i0 < i -> j < m ->
       M' (dst + (i0 * m + j)) = shift 1 m (Z.of_nat (t i0)) (blk m (rd M src) i0) j)
    /\ (forall x, ~ (dst <= x < dst + i * m) -> M' x = M x)) r
    (fun i M => twiddle (src + m * i) m (t i) (dst + m * i) M) M) as H.
  cbv beta in H. destruct H as [H1 H2].
  - split; [intros; lia|auto].
  - intros i M' Hi [I1 I2].
    assert (Hb : i * m + m <= r * m) by nia.
    destruct (twiddle_spec (src + m * i) m (t i) (dst + m * i) M' (Ht i Hi) ltac:(lia))
      as [A1 A2].
    split.
    + intros i0 j Hi0 Hj. destruct (Nat.eq_dec i0 i) as [->|Hne].
      * replace (dst + (i * m + j)) with (dst + m * i + j) by lia.
        rewrite A1 by assumption. apply shift_congr; [assumption|].
        intros j' Hj'. unfold rd, blk. rewrite I2 by lia. f_equal. lia.
      * assert (i0 * m + m <= i * m) by nia.
        rewrite A2 by lia. apply I1; [lia|assumption].
    + intros x Hx. rewrite A2 by lia. apply I2. lia.
  - split; [intros; apply H1; assumption|exact H2].
Qed.

(** The loop that starts the first half of [mul]: two buffers are twisted
    into two others. *)
Lemma twiddle2_loop_spec s1 s2 d1 d2 m r (t : nat -> nat) (M : mem) :
  0 < m -> (forall i, i < r -> t i <= 3 * m) ->
  disj s1 (r * m) d1 (r * m) -> disj s1 (r * m) d2 (r * m) ->
  disj s2 (r * m) d1 (r * m) -> disj s2 (r * m) d2 (r * m) ->
  disj d1 (r * m) d2 (r * m) ->
  let M' := for_loop r (fun i M =>
      let M := twiddle (s1 + m * i) m (t i) (d1 + m * i) M in
      twiddle (s2 + m * i) m (t i) (d2 + m * i) M) M in
  (forall i j, i < r -> j < m ->
     M' (d1 + (i * m + j)) = shift 1 m (Z.of_nat (t i)) (blk m (rd M s1) i) j
     /\ M' (d2 + (i * m + j)) = shift 1 m (Z.of_nat (t i)) (blk m (rd M s2) i) j)
  /\ (forall x, ~ (d1 <= x < d1 + r * m) -> ~ (d2 <= x < d2 + r * m) -> M' x = M x).
Proof.
  intros Hm Ht D11 D12 D21 D22 Dd. unfold disj in *.
  pose proof (for_loop_inv (fun i (M' : mem) =>
    (forall i0 j, i0 < i -> j < m ->
       M' (d1 + (i0 * m + j)) = shift 1 m (Z.of_nat (t i0)) (blk m (rd M s1) i0) j
       /\ M' (d2 + (i0 * m + j)) = shift 1 m (Z.of_nat (t i0)) (blk m (rd M s2) i0) j)
    /\ (forall x, ~ (d1 <= x < d1 + i * m) -> ~ (d2 <= x < d2 + i * m) -> M' x = M x)) r
    (fun i M =>
      let M := twiddle (s1 + m * i) m (t i) (d1 + m * i) M in
      twiddle (s2 + m * i) m (t i) (d2 + m * i) M) M) as H.
  cbv beta in H. destruct H as [H1 H2].
  - split; [intros; lia|auto].
  - intros i M' Hi [I1 I2]. cbv zeta.
    assert (Hb : i * m + m <= r * m) by nia.
    destruct (twiddle_spec (s1 + m * i) m (t i) (d1 + m * i) M' (Ht i Hi) ltac:(lia))
      as [A1 A2].
    set (M1 := twiddle (s1 + m * i) m (t i) (d1 + m * i) M') in *.
    destruct (twiddle_spec (s2 + m * i) m (t i) (d2 + m * i) M1 (Ht i Hi) ltac:(lia))
      as [B1 B2].
    split.
    + intros i0 j Hi0 Hj. destruct (Nat.eq_dec i0 i) as [->|Hne].
      * split.
        -- rewrite B2 by lia.
           replace (d1 + (i * m + j)) with (d1 + m * i + j) by lia.
           rewrite A1 by assumption. apply shift_congr; [assumption|].
           intros j' Hj'. unfold rd, blk. rewrite I2 by lia. f_equal. lia.
        -- replace (d2 + (i * m + j)) with (d2 + m * i + j) by lia.
           rewrite B1 by assumption. apply shift_congr; [assumption|].
           intros j' Hj'. unfold rd, blk. rewrite A2, I2 by lia. f_equal. lia.
      * assert (i0 * m + m <= i * m) by nia.
        rewrite !B2, !A2 by lia. apply I1; [lia|assumption].
    + intros x Hx1 Hx2. rewrite B2, A2 by lia. apply I2; lia.
  - split; [intros; apply H1; assumption|exact H2].
Qed.

(** The loop that starts the second half of [mul]: p and q are conjugated in
    place, p is twisted into [to] and q into p. *)
Lemma conj_twiddle_loop_spec p q to m r (t : nat -> nat) (M : mem) :
  0 < m -> (forall i, i < r -> t i <= 3 * m) ->
  disj p (r * m) q (r * m) -> disj p (r * m) to (r * m) -> disj q (r * m) to (r * m) ->
  let M' := for_loop r (fun i M =>
      let M := for_loop m (fun j M =>
        let M := upd M (p + (m*i + j)) (conj (M.[p + (m*i + j)])) in
        upd M (q + (m*i + j)) (conj (M.[q + (m*i + j)]))) M in
      let M := twiddle (p + m*i) m (t i) (to + m*i) M in
      twiddle (q + m*i) m (t i) (p + m*i) M) M in
  (forall i j, i < r -> j < m ->
     M' (to + (i * m + j))
       = shift 1 m (Z.of_nat (t i)) (blk m (fun x => conj (rd M p x)) i) j
     /\ M' (p + (i * m + j))
       = shift 1 m (Z.of_nat (t i)) (blk m (fun x => conj (rd M q x)) i) j
     /\ M' (q + (i * m + j)) = conj (M (q + (i * m + j))))
  /\ (forall x, ~ (p <= x < p + r * m) -> ~ (q <= x < q + r * m) ->
        ~ (to <= x < to + r * m) -> M' x = M x).
Proof.
  intros Hm Ht Dpq Dpt Dqt. unfold disj in *.
  match goal with |- context [for_loop r ?body M] => set (body0 := body) end.
  pose proof (for_loop_inv (fun i (M' : mem) =>
    (forall i0 j, i0 < i -> j < m ->
       M' (to + (i0 * m + j))
         = shift 1 m (Z.of_nat (t i0)) (blk m (fun x => conj (rd M p x)) i0) j
       /\ M' (p + (i0 * m + j))
         = shift 1 m (Z.of_nat (t i0)) (blk m (fun x => conj (rd M q x)) i0) j
       /\ M' (q + (i0 * m + j)) = conj (M (q + (i0 * m + j))))
    /\ (forall x, ~ (p <= x < p + i * m) -> ~ (q <= x < q + i * m) ->
          ~ (to <= x < to + i * m) -> M' x = M x)) r body0 M) as H.
  cbv beta in H. destruct H as [H1 H2].
  - split; [intros; lia|auto].
  - intros i M' Hi [I1 I2]. unfold body0. cbv zeta.
    assert (Hb : i * m + m <= r * m) by nia.
    (* the conjugation of the two blocks *)
    match goal with |- context [for_loop m ?body M'] => set (body1 := body) end.
    pose proof (for_loop_inv (fun k (M'' : mem) =>
      (forall j, j < k -> M'' (p + (m*i + j)) = conj (M' (p + (m*i + j)))
                          /\ M'' (q + (m*i + j)) = conj (M' (q + (m*i + j))))
      /\ (forall x, ~ (p + m*i <= x < p + m*i + k) -> ~ (q + m*i <= x < q + m*i + k) ->
            M'' x = M' x)) m body1 M') as C.
    cbv beta in C. destruct C as [C1 C2].
    { split; [intros; lia|auto]. }
    { intros k M'' Hk [K1 K2]. unfold body1. split.
      - intros j Hj. destruct (Nat.eq_dec j k) as [->|Hne].
        + upd_simpl. rewrite !K2 by lia. auto.
        + upd_simpl. apply K1. lia.
      - intros x Hx1 Hx2. upd_simpl. apply K2; lia. }
    set (M1 := for_loop m body1 M') in *.
    destruct (twiddle_spec (p + m * i) m (t i) (to + m * i) M1 (Ht i Hi) ltac:(lia))
      as [A1 A2].
    set (M2 := twiddle (p + m * i) m (t i) (to + m * i) M1) in *.
    destruct (twiddle_spec (q + m * i) m (t i) (p + m * i) M2 (Ht i Hi) ltac:(lia))
      as [B1 B2].
    split.
    + intros i0 j Hi0 Hj. destruct (Nat.eq_dec i0 i) as [->|Hne].
      * repeat split.
        -- rewrite B2 by lia.
           replace (to + (i * m + j)) with (to + m * i + j) by lia.
           rewrite A1 by assumption. apply shift_congr; [assumption|].
           intros j' Hj'. unfold rd, blk.
           replace (p + m * i + j') with (p + (m * i + j')) by lia.
           destruct (C1 j' Hj') as [E _]. rewrite E, I2 by lia. f_equal. f_equal. lia.
        -- replace (p + (i * m + j)) with (p + m * i + j) by lia.
           rewrite B1 by assumption. apply shift_congr; [assumption|].
           intros j' Hj'. unfold rd, blk. rewrite A2 by lia.
           replace (q + m * i + j') with (q + (m * i + j')) by lia.
           destruct (C1 j' Hj') as [_ E]. rewrite E, I2 by lia. f_equal. f_equal. lia.
        -- rewrite B2, A2 by lia.
           replace (q + (i * m + j)) with (q + (m * i + j)) by lia.
           destruct (C1 j Hj) as [_ E]. rewrite E, I2 by lia. reflexivity.
      * assert (i0 * m + m <= i * m) by nia.
        rewrite !B2, !A2, !C2 by lia. apply I1; [lia|assumption].
    + intros x Hx1 Hx2 Hx3. rewrite B2, A2, C2 by lia. apply I2; lia.
  - split; [intros; apply H1; assumption|exact H2].
Qed.

(** * The accumulation loop of the Chinese remaindering *)

Section CrtLoop.
Variables n m r to : nat.
Variables g1 g2 g3 : nat -> nat -> mem -> T.
Variables f1 f2 f3 : nat -> nat -> T.
Variable M : mem.
Hypothesis Hn : n = r * m.
Hypothesis m_pos : 0 < m.
Hypothesis Hg : forall i j (M' : mem), i < r -> j < m ->
  (forall x, ~ (to <= x < to + n) -> M' x = M x) ->
  g1 i j M' = f1 i j /\ g2 i j M' = f2 i j /\ g3 i j M' = f3 i j.

Lemma crt_body_spec i j (M' : mem) :
  i < r -> j < m ->
  (forall x, ~ (to <= x < to + n) -> M' x = M x) ->
  (forall x, crt_body n m to g1 g2 g3 i j M' x = (M' x + crt_contrib n m to f1 f2 f3 i j x)%T)
  /\ (forall x, ~ (to <= x < to + n) -> crt_body n m to g1 g2 g3 i j M' x = M x).
Proof.
  intros Hi Hj HM.
  assert (Hb : i * m + m <= n) by nia.
  unfold crt_body. cbv zeta.
  destruct (Hg i j M' Hi Hj HM) as [E1 _].
  set (M1 := upd M' (to + (i*m + j)) (Tadd_assign (M'.[to + (i*m + j)]) (g1 i j M'))).
  assert (HM1 : forall x, ~ (to <= x < to + n) -> M1 x = M x).
  { intros x Hx. unfold M1. rewrite upd_neq by lia. apply HM, Hx. }
  destruct (Hg i j M1 Hi Hj HM1) as [_ [E2 E3]].
  assert (V1 : forall x, M1 x = (M' x + (if x =? to + (i*m + j) then f1 i j else 0))%T).
  { intros x. unfold M1, upd. rewrite Tadd_assign_eq, E1.
    destruct (Nat.eqb_spec x (to + (i*m + j))) as [->|]; ring. }
  unfold crt_contrib. destruct (i*m + m + j <? n) eqn:C; split.
  - intros x. unfold upd at 1. rewrite Tadd_assign_eq, E2.
    destruct (Nat.eqb_spec x (to + (i*m + m + j))) as [->|]; rewrite V1; ring.
  - intros x Hx. apply Nat.ltb_lt in C. rewrite upd_neq by lia. apply HM1, Hx.
  - intros x. unfold upd at 1. rewrite Tadd_assign_eq, E3.
    destruct (Nat.eqb_spec x (to + (i*m + m + j - n))) as [->|]; rewrite V1; ring.
  - intros x Hx. apply Nat.ltb_ge in C. rewrite upd_neq by lia. apply HM1, Hx.
Qed.

Lemma crt_loop_sum :
  let M' := for_loop r (fun i M => for_loop m (fun j M => crt_body n m to g1 g2 g3 i j M) M) M in
  (forall x, M' x = (M x + Tsum r (fun i => Tsum m (fun j => crt_contrib n m to f1 f2 f3 i j x)))%T)
  /\ (forall x, ~ (to <= x < to + n) -> M' x = M x).
Proof.
  pose proof (for_loop_inv (fun i (M' : mem) =>
    (forall x, M' x = (M x + Tsum i (fun i' => Tsum m (fun j => crt_contrib n m to f1 f2 f3 i' j x)))%T)
    /\ (forall x, ~ (to <= x < to + n) -> M' x = M x)) r
    (fun i M => for_loop m (fun j M => crt_body n m to g1 g2 g3 i j M) M) M) as H.
  cbv beta in H. apply H; clear H.
  - split; [intros x; cbn; ring|auto].
  - intros i M' Hi [I1 I2].
    pose proof (for_loop_inv (fun k (M'' : mem) =>
      (forall x, M'' x = (M' x + Tsum k (fun j => crt_contrib n m to f1 f2 f3 i j x))%T)
      /\ (forall x, ~ (to <= x < to + n) -> M'' x = M x)) m
      (fun j M => crt_body n m to g1 g2 g3 i j M) M') as J.
    cbv beta in J. destruct J as [J1 J2].
    + split; [intros x; cbn; ring|exact I2].
    + intros j M'' Hj [K1 K2].
      destruct (crt_body_spec i j M'' Hi Hj K2) as [B1 B2].
      split; [|exact B2].
      intros x. rewrite B1, K1. cbn [Tsum]. ring.
    + split; [|exact J2].
      intros x. rewrite J1, I1. cbn [Tsum]. ring.
Qed.

Lemma crt_contrib_sum k j :
  k < r -> j < m ->
  Tsum r (fun i => Tsum m (fun j' => crt_contrib n m to f1 f2 f3 i j' (to + (k * m + j))))
  = (f1 k j + (if k =? 0 then f3 (r - 1) j else f2 (k - 1) j))%T.
Proof.
  intros Hk Hj. unfold crt_contrib.
  rewrite (Tsum_ext r _ (fun i =>
    (if i =? k then f1 i j else 0)
    + (if i =? (if k =? 0 then r - 1 else k - 1)
       then (if k =? 0 then f3 i j else f2 i j) else 0))%T).
  - rewrite Tsum_add, !Tsum_delta by (destruct (Nat.eqb_spec k 0); lia).
    destruct (Nat.eqb_spec k 0); reflexivity.
  - intros i Hi. rewrite Tsum_add. f_equal.
    + destruct (Nat.eqb_spec i k) as [->|Hne].
      * rewrite <- (Tsum_delta m j (f1 k)) by assumption.
        apply Tsum_ext. intros j' Hj'.
        destruct (Nat.eqb_spec j' j) as [->|Hnj].
        -- rewrite Nat.eqb_refl. reflexivity.
        -- destruct (Nat.eqb_spec (to + (k * m + j)) (to + (k * m + j'))); [lia|reflexivity].
      * apply Tsum_zero. intros j' Hj'.
        destruct (Nat.eqb_spec (to + (k * m + j)) (to + (i * m + j'))); [nia|reflexivity].
    + assert (Hb : i * m + m <= n) by nia.
      destruct (Nat.eq_dec (i + 1) r) as [Hlast|Hnl].
      * (* the last block wraps around *)
        assert (En : i * m + m = n) by nia.
        destruct (Nat.eqb_spec k 0) as [->|Hk0].
        -- replace (i =? r - 1) with true by (symmetry; apply Nat.eqb_eq; lia).
           rewrite <- (Tsum_delta m j (f3 i)) by assumption.
           apply Tsum_ext. intros j' Hj'.
           replace (i * m + m + j' <? n) with false by (symmetry; apply Nat.ltb_ge; lia).
           destruct (Nat.eqb_spec j' j) as [->|Hnj].
           ++ replace (to + (0 * m + j) =? to + (i * m + m + j - n)) with true
                by (symmetry; apply Nat.eqb_eq; lia). reflexivity.
           ++ destruct (Nat.eqb_spec (to + (0 * m + j)) (to + (i * m + m + j' - n)));
                [lia|reflexivity].
        -- replace (i =? k - 1) with false by (symmetry; apply Nat.eqb_neq; lia).
           apply Tsum_zero. intros j' Hj'.
           replace (i * m + m + j' <? n) with false by (symmetry; apply Nat.ltb_ge; lia).
           destruct (Nat.eqb_spec (to + (k * m + j)) (to + (i * m + m + j' - n)));
             [nia|reflexivity].
      * assert (Hlt : i * m + m + m <= n) by nia.
        destruct (Nat.eqb_spec k 0) as [->|Hk0].
        -- replace (i =? r - 1) with false by (symmetry; apply Nat.eqb_neq; lia).
           apply Tsum_zero. intros j' Hj'.
           replace (i * m + m + j' <? n) with true by (symmetry; apply Nat.ltb_lt; lia).
           destruct (Nat.eqb_spec (to + (0 * m + j)) (to + (i * m + m + j')));
             [lia|reflexivity].
        -- destruct (Nat.eqb_spec i (k - 1)) as [->|Hne].
           ++ rewrite <- (Tsum_delta m j (f2 (k - 1))) by assumption.
              apply Tsum_ext. intros j' Hj'.
              replace ((k - 1) * m + m + j' <? n) with true by (symmetry; apply Nat.ltb_lt; lia).
              assert (Ek : (k - 1) * m + m = k * m) by nia.
              destruct (Nat.eqb_spec j' j) as [->|Hnj].
              ** replace (to + (k * m + j) =? to + ((k - 1) * m + m + j)) with true
                   by (symmetry; apply Nat.eqb_eq; lia). reflexivity.
              ** destruct (Nat.eqb_spec (to + (k * m + j)) (to + ((k - 1) * m + m + j')));
                   [lia|reflexivity].
           ++ apply Tsum_zero. intros j' Hj'.
              replace (i * m + m + j' <? n) with true by (symmetry; apply Nat.ltb_lt; lia).
              destruct (Nat.eqb_spec (to + (k * m + j)) (to + (i * m + m + j')));
                [nia|reflexivity].
Qed.

End CrtLoop.

(** * Transform, multiply block by block, transform back *)

Lemma half_up a : a <= 2 * ((a + 1) / 2) <= a + 1.
Proof.
  pose proof (Nat.div_mod_eq (a + 1) 2). pose proof (Nat.mod_upper_bound (a + 1) 2). lia.
Qed.

Lemma half_down a : a - 1 <= 2 * (a / 2) <= a.
Proof.
  pose proof (Nat.div_mod_eq a 2). pose proof (Nat.mod_upper_bound a 2). lia.
Qed.

Lemma mul_cells_pos a : 0 < 3 ^ a <= mul_cells a.
Proof.
  pose proof (pow3_pos a). unfold mul_cells. destruct (a <=? 3); lia.
Qed.

Lemma mul_cells_le a : mul_cells a <= 4 * 3 ^ a /\ mul_tmp_cells a <= 3 * 3 ^ a.
Proof.
  unfold mul_cells, mul_tmp_cells. pose proof (pow3_pos a).
  destruct (Nat.leb_spec a 3); [lia|].
  pose proof (half_up a).
  assert (3 ^ S ((a + 1) / 2) <= 3 ^ a) by (apply pow3_le; lia).
  cbn [Nat.pow] in *. lia.
Qed.

(** Block i of r blocks of m cells lies inside the r * m cells. *)
Lemma blk_end_le m r i : i < r -> i * m + m <= r * m.
Proof.
  intros Hi. change (i * m + m) with (i * m + m). rewrite Nat.add_comm.
  change (m + i * m) with (S i * m). apply Nat.mul_le_mono_r. lia.
Qed.

Lemma blk_idx_lt m r i j : i < r -> j < m -> i * m + j < r * m.
Proof.
  intros Hi Hj. pose proof (blk_end_le m r i Hi). lia.
Qed.

Section FftCore.
Variables a' b c fuel : nat.
Let m := 3 ^ a'.
Let r := 3 ^ b.
Let n := m * r.
Hypothesis Hc : 3 * m = c * r.
Hypothesis Hfuel : b < fuel.
Hypothesis Hmul : mul_ok a' fuel.

Lemma fft_core_spec tmp x y z (M : mem) :
  disj x n y n -> disj x n z (n + 3 * m) -> disj y n z (n + 3 * m) ->
  disj tmp (3 * m) x n -> disj tmp (3 * m) y n -> disj tmp (3 * m) z (n + 3 * m) ->
  exists M1 M2 M3 M4,
    fftdif fuel tmp x m r M = Some M1
    /\ fftdif fuel tmp y m r M1 = Some M2
    /\ for_loop_opt r (fun i M => mul fuel tmp (x + m * i) (y + m * i) m (z + m * i) M) M2
       = Some M3
    /\ fftdit fuel tmp z m r M3 = Some M4
    /\ (forall K, K < n -> M4 (z + K) = (Tnat r * yconv 0 1 m r (rd M x) (rd M y) K)%T)
    /\ (forall w, ~ (x <= w < x + n) -> ~ (y <= w < y + n) -> ~ (z <= w < z + (n + 3 * m)) ->
          ~ (tmp <= w < tmp + 3 * m) -> M4 w = M w).
Proof.
  intros Dxy Dxz Dyz Dtx Dty Dtz. unfold disj in *.
  assert (Hm : 0 < m) by apply pow3_pos.
  assert (Hr : 0 < r) by apply pow3_pos.
  assert (Hn : 0 < n) by (apply Nat.mul_pos_pos; assumption).
  assert (Hnr : n = r * m) by apply Nat.mul_comm.
  destruct (fftdif_spec b fuel tmp x m c M Hm Hc Hfuel ltac:(fold r; fold n; lia))
    as [M1 [E1 [V1 F1]]].
  destruct (fftdif_spec b fuel tmp y m c M1 Hm Hc Hfuel ltac:(fold r; fold n; lia))
    as [M2 [E2 [V2 F2]]].
  fold r in E1, E2, V1, V2, F1, F2. fold n in V1, V2, F1, F2.
  set (DX := dif_spec b m (rd M x)) in *.
  assert (V2' : forall K, K < n -> M2 (y + K) = dif_spec b m (rd M y) K).
  { intros K HK. rewrite V2 by assumption.
    apply dif_spec_congr; [assumption|assumption|].
    intros w Hw. unfold rd. apply F1; lia. }
  set (DY := dif_spec b m (rd M y)) in *.
  pose proof (mul_cells_le a') as [Hcells Htc]. fold m in Hcells, Htc.
  pose proof (mul_cells_pos a') as Hcp. fold m in Hcp.
  (* the products of the blocks *)
  destruct (for_loop_opt_inv (fun i (M' : mem) =>
    (forall i0 j, i0 < i -> j < m ->
       M' (z + (i0 * m + j)) = pmul 1 m (blk m DX i0) (blk m DY i0) j)
    /\ (forall i0 j, i <= i0 < r -> j < m ->
          M' (x + (i0 * m + j)) = DX (i0 * m + j) /\ M' (y + (i0 * m + j)) = DY (i0 * m + j))
    /\ (forall w, ~ (x <= w < x + n) -> ~ (y <= w < y + n) -> ~ (z <= w < z + (n + 3 * m)) ->
          ~ (tmp <= w < tmp + 3 * m) -> M' w = M w)) r
    (fun i M => mul fuel tmp (x + m * i) (y + m * i) m (z + m * i) M) M2)
    as [M3 [E3 [P1 [_ P3]]]].
  { split; [intros; lia|]. split.
    - intros i0 j Hi0 Hj.
      assert (i0 * m + j < n) by (rewrite Hnr; apply blk_idx_lt; lia).
      split; [rewrite F2 by lia; apply V1; assumption|apply V2'; assumption].
    - intros w Hx Hy Hz Ht. rewrite F2, F1 by lia. reflexivity. }
  { intros i M' Hi [I1 [I2 I3]].
    assert (Hb : i * m + m <= n) by (rewrite Hnr; apply blk_end_le; lia).
    destruct (Hmul tmp (x + m * i) (y + m * i) (z + m * i) M') as [M'' [E [V F]]];
      unfold sep; fold m; try lia.
    fold m in E, V, F.
    exists M''. split; [exact E|]. split; [|split].
    - intros i0 j Hi0 Hj. destruct (Nat.eq_dec i0 i) as [->|Hne].
      + replace (z + (i * m + j)) with (z + m * i + j) by lia.
        rewrite V by assumption. apply pmul_congr; [assumption| |].
        * intros j' Hj'. unfold rd, blk.
          replace (x + m * i + j') with (x + (i * m + j')) by lia.
          apply I2; lia.
        * intros j' Hj'. unfold rd, blk.
          replace (y + m * i + j') with (y + (i * m + j')) by lia.
          apply I2; lia.
      + assert (i0 * m + m <= i * m) by (apply blk_end_le; lia).
        rewrite F by lia. apply I1; [lia|assumption].
    - intros i0 j Hi0 Hj. assert (i * m + m <= i0 * m) by (apply blk_end_le; lia).
      assert (i0 * m + m <= n) by (rewrite Hnr; apply blk_end_le; lia).
      rewrite !F by lia. apply I2; [lia|assumption].
    - intros w Hx Hy Hz Ht. rewrite F by lia. apply I3; assumption. }
  destruct (fftdit_spec b fuel tmp z m M3 Hm Hfuel ltac:(fold r; fold n; lia))
    as [M4 [E4 [V4 F4]]].
  fold r in E4, V4, F4. fold n in V4, F4.
  exists M1, M2, M3, M4. repeat split; try assumption.
  - intros K HK. rewrite V4 by assumption.
    rewrite (dit_spec_congr m Hm b (rd M3 z)
               (dif_spec b m (yconv 0 1 m r (rd M x) (rd M y)))); [| assumption |].
    + apply (dit_dif_spec m Hm b c); assumption.
    + intros w Hw. fold r in Hw. fold n in Hw.
      assert (Hw' : w / m < r /\ w mod m < m) by (apply div_mod_lt; [assumption|lia]).
      destruct Hw' as [Hi Hj]. pose proof (div_mod_eq m w) as Ew.
      set (i := w / m) in *. set (j := w mod m) in *. rewrite Ew.
      unfold rd at 1. rewrite P1 by assumption.
      rewrite (dif_spec_eval m Hm b c) by assumption.
      rewrite <- (conv_thm m r Hm Hr (rd M x) (rd M y) _ (Z.of_nat (freq b i))) by nia.
      apply pmul_congr; [assumption| |].
      * intros j' Hj'. unfold blk, DX. apply (dif_spec_eval m Hm b c); assumption.
      * intros j' Hj'. unfold blk, DY. apply (dif_spec_eval m Hm b c); assumption.
  - intros w Hx Hy Hz Ht. rewrite F4 by lia. apply P3; assumption.
Qed.

End FftCore.


(** * mul: the recursive branch *)

Lemma scale_loop_spec z off n inv (M : mem) :
  let M' := for_loop n (fun i M =>
              upd M (z + (off + i)) (Tmul_assign (M.[z + (off + i)]) inv)) M in
  (forall K, K < n -> M' (z + off + K) = (M.[z + off + K] * inv)%T)
  /\ (forall x, ~ (z + off <= x < z + off + n) -> M' x = M x).
Proof.
  destruct (for_loop_pointwise n (fun i => z + (off + i))
    (fun i M' => Tmul_assign (M'.[z + (off + i)]) inv)
    (fun i => M.[z + (off + i)] * inv)%T M) as [A1 A2].
  - intros; lia.
  - intros j M' Hj HM. rewrite Tmul_assign_eq, HM by (intros; lia). reflexivity.
  - split.
    + intros K HK. replace (z + off + K) with (z + (off + K)) by lia. apply A1, HK.
    + intros x Hx. apply A2. intros; lia.
Qed.

Lemma inv3_loop_spec z n (M : mem) :
  let M' := for_loop n (fun i M => upd M (z + i) (Tmul_assign (M.[z + i]) INV3)) M in
  (forall K, K < n -> M' (z + K) = (M.[z + K] * INV3)%T)
  /\ (forall x, ~ (z <= x < z + n) -> M' x = M x).
Proof.
  destruct (for_loop_pointwise n (fun i => z + i)
    (fun i M' => Tmul_assign (M'.[z + i]) INV3)
    (fun i => M.[z + i] * INV3)%T M) as [A1 A2].
  - intros; lia.
  - intros j M' Hj HM. rewrite Tmul_assign_eq, HM by (intros; lia). reflexivity.
  - split; [exact A1|]. intros x Hx. apply A2. intros; lia.
Qed.

Lemma pow3_quot a' b : 3 ^ (a' + b) / 3 ^ a' = 3 ^ b.
Proof.
  rewrite Nat.pow_add_r, Nat.mul_comm. apply Nat.div_mul.
  pose proof (pow3_pos a'). lia.
Qed.

Lemma pow3_gt27 a : 3 < a -> (3 ^ a <=? 27) = false.
Proof.
  intros H. apply Nat.leb_gt. change 27 with (3 ^ 3). apply pow3_lt. assumption.
Qed.

Lemma pow3_le27 a : a <= 3 -> (3 ^ a <=? 27) = true.
Proof.
  intros H. apply Nat.leb_le. change 27 with (3 ^ 3). apply pow3_le. assumption.
Qed.

(** The buffer that [twist] stands for, block by block. *)
Lemma twist_blocks m r c (X F : nat -> T) :
  0 < m ->
  (forall i j, i < r -> j < m -> F (i * m + j) = shift 1 m (c * Z.of_nat i) (blk m X i) j) ->
  forall K, K < r * m -> F K = twist m c X K.
Proof.
  intros Hm H K HK.
  assert (HK' : K / m < r /\ K mod m < m) by (apply div_mod_lt; assumption).
  unfold twist. rewrite (div_mod_eq m K) at 1. apply H; lia.
Qed.

(** Undoing the twist after the cyclic product. *)
Lemma untwist_conv m r c1 sigma (P Q : nat -> T) i j :
  0 < m -> 0 < r -> i < r -> j < m ->
  (Z.of_nat c1 * Z.of_nat r = sigma * Z.of_nat m)%Z -> c1 * i <= 3 * m ->
  shift 1 m (Z.of_nat (3 * m - c1 * i))
    (blk m (yconv 0 1 m r (twist m (Z.of_nat c1) P) (twist m (Z.of_nat c1) Q)) i) j
  = yconv sigma 1 m r P Q (i * m + j).
Proof.
  intros Hm Hr Hi Hj Hc Hle.
  rewrite <- (twist_conv m r Hm Hr (Z.of_nat c1) sigma P Q i j Hc Hi Hj).
  replace (Z.of_nat (3 * m - c1 * i)) with (- Z.of_nat c1 * Z.of_nat i + 3 * Z.of_nat m)%Z by lia.
  rewrite shift_period by assumption. wpow_eval. ring.
Qed.

Lemma half_sum a' b : b <= a' <= b + 1 -> (a' + b + 1) / 2 = a'.
Proof.
  intros H. symmetry. apply (Nat.div_unique _ _ _ (a' + b + 1 - 2 * a')); lia.
Qed.

Lemma mul_cells_rec a' b :
  b <= a' <= b + 1 -> 2 <= b ->
  mul_cells (a' + b) = 3 * 3 ^ (a' + b) + 3 * 3 ^ a'
  /\ mul_tmp_cells (a' + b) = 3 * 3 ^ a'.
Proof.
  intros Hab Hb. unfold mul_cells, mul_tmp_cells.
  rewrite half_sum by assumption.
  destruct (Nat.leb_spec (a' + b) 3); [lia|]. split; reflexivity.
Qed.

(** One cyclic product in y: two transforms, the block products, the inverse
    transform, the scaling by 3^(-b), and the untwisting into [dst]. *)
Lemma phase_spec a' b f c c' sigma m r n tmp x y z dst (P Q : nat -> T) (M : mem) :
  b < f -> mul_ok a' f -> m = 3 ^ a' -> r = 3 ^ b -> n = m * r ->
  c * r = sigma * m -> sigma <= 3 -> 3 * m = c' * r ->
  disj x n y n -> disj x n z (n + 3 * m) -> disj y n z (n + 3 * m) ->
  disj tmp (3 * m) x n -> disj tmp (3 * m) y n -> disj tmp (3 * m) z (n + 3 * m) ->
  disj z (n + 3 * m) dst n ->
  (forall K, K < n -> M (x + K) = twist m (Z.of_nat c) P K) ->
  (forall K, K < n -> M (y + K) = twist m (Z.of_nat c) Q K) ->
  exists M1 M2 M3 M4,
    fftdif f tmp x m r M = Some M1
    /\ fftdif f tmp y m r M1 = Some M2
    /\ for_loop_opt r (fun i M => mul f tmp (x + m * i) (y + m * i) m (z + m * i) M) M2
       = Some M3
    /\ fftdit f tmp z m r M3 = Some M4
    /\ forall M5 : mem,
         (forall K, K < n -> M5 (z + K) = (M4.[z + K] * Tpow INV3 b)%T) ->
         (forall w, ~ (z <= w < z + n) -> M5 w = M4 w) ->
         let M6 := for_loop r (fun i M =>
                     twiddle (z + m * i) m (3 * m - c * i) (dst + m * i) M) M5 in
         (forall i j, i < r -> j < m ->
            M6 (dst + (i * m + j)) = yconv (Z.of_nat sigma) 1 m r P Q (i * m + j))
         /\ (forall w, ~ (x <= w < x + n) -> ~ (y <= w < y + n) ->
               ~ (z <= w < z + (n + 3 * m)) -> ~ (tmp <= w < tmp + 3 * m) ->
               ~ (dst <= w < dst + n) -> M6 w = M w).
Proof.
  intros Hf IH -> -> ->.
  set (m := 3 ^ a'). set (r := 3 ^ b). set (n := m * r).
  intros Hc Hs Hc' Dxy Dxz Dyz Dtx Dty Dtz Dzd HP HQ.
  assert (Hm : 0 < m) by apply pow3_pos.
  assert (Hr : 0 < r) by apply pow3_pos.
  assert (Hn : n = r * m) by apply Nat.mul_comm.
  destruct (fft_core_spec a' b c' f Hc' Hf IH tmp x y z M Dxy Dxz Dyz Dtx Dty Dtz)
    as (M1 & M2 & M3 & M4 & E1 & E2 & E3 & E4 & V4 & F4).
  change (3 ^ a') with m in E1, E2, E3, E4, V4, F4, Hc.
  change (3 ^ b) with r in E1, E2, E3, E4, V4, F4, Hc.
  change (m * r) with n in V4, F4.
  exists M1, M2, M3, M4. repeat (split; [assumption|]).
  intros M5 V5 F5.
  assert (Er : r = 3 ^ b) by reflexivity.
  clearbody n. clearbody r. clearbody m.
  assert (Hidx : forall i j, i < r -> j < m -> i * m + j < n).
  { intros i j Hi Hj. rewrite Hn. apply blk_idx_lt; assumption. }
  unfold disj in *.
  destruct (twiddle_loop_spec z dst m r (fun i => 3 * m - c * i) M5 Hm) as [V6 F6].
  - intros i Hi. lia.
  - unfold disj. lia.
  - cbv beta zeta in V6, F6. cbv zeta. split.
    + intros i j Hi Hj. rewrite V6 by assumption.
      rewrite <- (untwist_conv m r c (Z.of_nat sigma) P Q i j Hm Hr Hi Hj).
      * apply shift_congr; [assumption|]. intros j' Hj'. unfold blk, rd.
        rewrite V5 by (apply Hidx; assumption). rewrite V4 by (apply Hidx; assumption).
        rewrite (yconv_congr m r Hm Hr 0 1 (rd M x) (twist m (Z.of_nat c) P)
                   (rd M y) (twist m (Z.of_nat c) Q)).
        -- transitivity (yconv 0 1 m r (twist m (Z.of_nat c) P) (twist m (Z.of_nat c) Q)
                           (i * m + j') * (Tnat r * Tpow INV3 b))%T; [ring|].
           rewrite Er, Tnat_pow3_inv. ring.
        -- intros w Hw. unfold rd. apply HP. lia.
        -- intros w Hw. unfold rd. apply HQ. lia.
      * rewrite <- !Nat2Z.inj_mul. f_equal. exact Hc.
      * assert (c * i <= c * r) by (apply Nat.mul_le_mono_l; lia).
        assert (sigma * m <= 3 * m) by (apply Nat.mul_le_mono_r; lia). lia.
    + intros w H1 H2 H3 H4 H5. rewrite F6 by lia. rewrite F5 by lia. apply F4; lia.
Qed.

(** The last part of [mul]: from the products modulo x^m - omega (after
    [to + n]) and modulo x^m - omega^2 (the conjugate of what [q] holds) to
    the product modulo x^n - omega. *)
Lemma mul_crt_spec q n m r to (P Q : nat -> T) (MB : mem) :
  0 < m -> 0 < r -> n = r * m -> disj q n to n ->
  (forall i j, i < r -> j < m ->
     MB (to + (n + i * m + j)) = yconv 1 1 m r P Q (i * m + j)) ->
  (forall i j, i < r -> j < m ->
     conj (MB (q + (i * m + j))) = yconv 1 2 m r P Q (i * m + j)) ->
  let M' := mul_crt q n m r to MB in
  (forall K, K < n -> M' (to + K) = pmul 1 n P Q K)
  /\ (forall x, ~ (to <= x < to + n) -> M' x = MB x).
Proof.
  intros Hm Hr Hn Dq HA HB. unfold disj in Dq. unfold mul_crt. cbv zeta.
  destruct (zero_loop_spec n to MB) as [Z1 Z2]. cbv zeta in Z1, Z2.
  set (MC0 := for_loop n (fun i M => upd M (to + i) 0%T) MB) in *.
  set (g1 := fun (i j : nat) (M : mem) =>
    ((1 - OMEGA) * M.[to + (n + i * m + j)] + (1 - OMEGA2) * conj (M.[q + (i * m + j)]))%T).
  set (g2 := fun (i j : nat) (M : mem) =>
    ((OMEGA2 - OMEGA) * (M.[to + (n + i * m + j)] - conj (M.[q + (i * m + j)])))%T).
  set (g3 := fun (i j : nat) (M : mem) =>
    ((1 - OMEGA2) * (M.[to + (n + i * m + j)] - conj (M.[q + (i * m + j)])))%T).
  set (L := fun i j => Lsum 1 m r P Q (Z.of_nat i) j).
  set (H := fun i j => Hsum 1 m r P Q (Z.of_nat i) j).
  destruct (crt_loop_sum n m r to g1 g2 g3
              (fun i j => T3 * L i j)%T (fun i j => T3 * H i j)%T
              (fun i j => T3 * (OMEGA * H i j))%T MC0 Hn Hm) as [C1 C2].
  { intros i j M' Hi Hj HM'.
    assert (Hidx : i * m + j < n) by (rewrite Hn; apply blk_idx_lt; assumption).
    assert (EA : M' (to + (n + i * m + j)) = (L i j + OMEGA * H i j)%T).
    { rewrite HM' by lia. rewrite Z2 by lia. rewrite HA by assumption.
      rewrite (yconv_halves m Hm r) by assumption. rewrite wpow_1. reflexivity. }
    assert (EB : conj (M' (q + (i * m + j))) = (L i j + OMEGA2 * H i j)%T).
    { rewrite HM' by lia. rewrite Z2 by lia. rewrite HB by assumption.
      rewrite (yconv_halves m Hm r) by assumption. rewrite wpow_2. reflexivity. }
    unfold g1, g2, g3. rewrite EA, EB.
    split; [apply crt_low|]. split; [apply crt_high|apply crt_high_wrap]. }
  cbv zeta in C1, C2.
  set (MC1 := for_loop r _ MC0) in C1, C2.
  change (for_loop r _ MC0) with MC1.
  destruct (inv3_loop_spec to n MC1) as [I1 I2]. cbv zeta in I1, I2.
  split.
  - intros K HK. rewrite I1 by assumption. rewrite C1, Z1 by assumption.
    rewrite Hn in HK.
    destruct (div_mod_lt m r K Hm HK) as [Hk Hj].
    rewrite (div_mod_eq m K).
    set (k := K / m) in *. set (j := K mod m) in *. clearbody k j.
    rewrite (crt_contrib_sum n m r to _ _ _ Hn Hm _ _ Hk Hj).
    rewrite Hn.
    rewrite (pmul_halves m Hm r Hr 1 P Q _ _ Hk Hj).
    unfold L, H. destruct (Nat.eqb_spec k 0) as [E0|E0].
    + rewrite E0. change (Z.of_nat 0 - 1)%Z with (-1)%Z.
      rewrite (Hsum_wrap m Hm r Hr) by assumption. rewrite wpow_1.
      replace (Z.of_nat (r - 1)) with (Z.of_nat r - 1)%Z by lia.
      set (LL := Lsum _ _ _ _ _ _ _). set (HH := Hsum _ _ _ _ _ _ _).
      transitivity (T3 * (LL + OMEGA * HH) * INV3)%T; [ring|apply T3_INV3_cancel].
    + replace (Z.of_nat (k - 1)) with (Z.of_nat k - 1)%Z by lia.
      set (LL := Lsum _ _ _ _ _ _ _). set (HH := Hsum _ _ _ _ _ _ _).
      transitivity (T3 * (LL + HH) * INV3)%T; [ring|apply T3_INV3_cancel].
  - intros x Hx. rewrite I2, C2, Z2 by assumption. reflexivity.
Qed.

Lemma mul_split_spec a' b fuel :
  b <= a' <= b + 1 -> a' < fuel ->
  mul_split fuel (3 ^ (a' + b)) = Some (3 ^ a', 3 ^ b, Tpow INV3 b).
Proof.
  intros Hab Hf. unfold mul_split. rewrite mul_m_loop by lia.
  cbv beta iota zeta. rewrite pow3_quot. rewrite inv_pow_spec by lia. reflexivity.
Qed.

Lemma mul_step a' b f :
  b <= a' <= b + 1 -> 2 <= b -> a' < f -> mul_ok a' f -> mul_ok (a' + b) (S f).
Proof.
  intros Hab Hb Hf IH tmp p q to M Spq Spt Sqt Stp Stq Stt.
  destruct (mul_cells_rec a' b Hab Hb) as [Ec Et]. rewrite Ec, Et in *. clear Ec Et.
  cbn [mul]. rewrite pow3_gt27 by lia.
  rewrite (mul_split_spec a' b f) by lia. cbv beta iota.
  assert (En : 3 ^ (a' + b) = 3 ^ a' * 3 ^ b) by apply Nat.pow_add_r.
  assert (Em : 3 ^ a' = 3 ^ (a' - b) * 3 ^ b).
  { rewrite <- Nat.pow_add_r. f_equal. lia. }
  assert (Hc1 : 1 <= 3 ^ (a' - b) <= 3).
  { pose proof (pow3_pos (a' - b)). pose proof (pow3_le (a' - b) 1 ltac:(lia)).
    cbn in *. lia. }
  assert (Hr9 : 9 <= 3 ^ b).
  { pose proof (pow3_le 2 b Hb). cbn in *. lia. }
  rewrite En in *. clear En.
  remember (3 ^ (a' - b)) as c1 eqn:Ec1. clear Ec1.
  remember (3 ^ a') as m eqn:Em0. remember (3 ^ b) as r eqn:Er0.
  remember (m * r) as n eqn:En0.
  assert (Hdiv : m / r = c1).
  { rewrite Em. apply Nat.div_mul. lia. }
  assert (Hdiv2 : 2 * m / r = 2 * c1).
  { rewrite Em. replace (2 * (c1 * r)) with (2 * c1 * r) by lia. apply Nat.div_mul. lia. }
  rewrite Hdiv, Hdiv2. clear Hdiv Hdiv2.
  assert (Hm : 0 < m) by lia. assert (Hr : 0 < r) by lia.
  assert (Hn : n = r * m) by lia.
  assert (Hmr : r <= m) by (rewrite Em; nia).
  assert (H3m : 9 * m <= n) by (rewrite Hn; apply Nat.mul_le_mono_r; lia).
  assert (Hidx : forall i j, i < r -> j < m -> i * m + j < n).
  { intros i j Hi Hj. rewrite Hn. apply blk_idx_lt; assumption. }
  assert (Hfb : b < f) by lia.
  destruct Spq as [Spq|[Spq|Spq]]; [exfalso; lia|exfalso; lia|].
  destruct Spt as [Spt|[Spt|Spt]]; [exfalso; lia|exfalso; lia|].
  destruct Sqt as [Sqt|[Sqt|Sqt]]; [exfalso; lia|exfalso; lia|].
  destruct Stp as [Stp|[Stp|Stp]]; [exfalso; lia|exfalso; lia|].
  destruct Stq as [Stq|[Stq|Stq]]; [exfalso; lia|exfalso; lia|].
  destruct Stt as [Stt|[Stt|Stt]]; [exfalso; lia|exfalso; lia|].
  clear Hab Hb Hf.
  (* the twist of both operands *)
  destruct (twiddle2_loop_spec p q to (to + n) m r (fun i => c1 * i) M Hm)
    as [A0v A0f]; try (unfold disj; lia).
  { intros i Hi. assert (c1 * i <= c1 * r) by (apply Nat.mul_le_mono_l; lia). lia. }
  cbv beta zeta in A0v, A0f.
  set (MA0 := for_loop r _ M) in *.
  assert (HP0 : forall K, K < n -> MA0 (to + K) = twist m (Z.of_nat c1) (rd M p) K).
  { intros K HK. rewrite Hn in HK. revert K HK.
    apply (twist_blocks m r (Z.of_nat c1) (rd M p) (fun K => MA0 (to + K)) Hm).
    intros i j Hi Hj. rewrite <- Nat2Z.inj_mul. apply A0v; assumption. }
  assert (HQ0 : forall K, K < n -> MA0 (to + n + K) = twist m (Z.of_nat c1) (rd M q) K).
  { intros K HK. rewrite Hn in HK. revert K HK.
    apply (twist_blocks m r (Z.of_nat c1) (rd M q) (fun K => MA0 (to + n + K)) Hm).
    intros i j Hi Hj. rewrite <- Nat2Z.inj_mul. apply A0v; assumption. }
  clearbody MA0.
  (* the product modulo x^m - omega *)
  destruct (phase_spec a' b f c1 (3 * c1) 1 m r n tmp to (to + n) (to + 2 * n) (to + n)
              (rd M p) (rd M q) MA0 Hfb IH Em0 Er0 En0)
    as (MA1 & MA2 & MA3 & MA4 & E1 & E2 & E3 & E4 & A5);
    try assumption; try (unfold disj; lia).
  rewrite E1. cbv beta iota. rewrite E2. cbv beta iota.
  rewrite E3. cbv beta iota. rewrite E4. cbv beta iota.
  clear E1 E2 E3 E4.
  destruct (scale_loop_spec to (2 * n) n (Tpow INV3 b) MA4) as [S1 S2].
  cbv zeta in S1, S2.
  set (MA5 := for_loop n _ MA4) in *. clearbody MA5.
  specialize (A5 MA5 S1 S2). cbv zeta in A5. destruct A5 as [A6v A6f].
  change (Z.of_nat 1) with 1%Z in A6v.
  set (MA6 := for_loop r _ MA5) in *. clearbody MA6.
  clear S1 S2 HP0 HQ0 MA1 MA2 MA3.
  assert (A6p : forall x, ~ (to <= x < to + (3 * n + 3 * m)) -> ~ (tmp <= x < tmp + 3 * m) ->
                  MA6 x = M x).
  { intros x H1 H2. rewrite A6f by lia. apply A0f; lia. }
  clear A6f A0f A0v MA0 MA4 MA5.
  (* the product modulo x^m - omega^2, through the conjugates *)
  destruct (conj_twiddle_loop_spec p q to m r (fun i => 2 * c1 * i) MA6 Hm)
    as [B0v B0f]; try (unfold disj; lia).
  { intros i Hi. assert (c1 * i <= c1 * r) by (apply Nat.mul_le_mono_l; lia). lia. }
  cbv beta zeta in B0v, B0f.
  set (MB0 := for_loop r _ MA6) in *. clearbody MB0.
  assert (HP1 : forall K, K < n ->
            MB0 (to + K) = twist m (Z.of_nat (2 * c1)) (fun x => conj (rd M p x)) K).
  { intros K HK. rewrite Hn in HK. revert K HK.
    apply (twist_blocks m r (Z.of_nat (2 * c1)) (fun x => conj (rd M p x))
             (fun K => MB0 (to + K)) Hm).
    intros i j Hi Hj. cbv beta. rewrite <- Nat2Z.inj_mul.
    destruct (B0v i j Hi Hj) as [V _]. rewrite V.
    apply shift_congr; [assumption|]. intros j' Hj'. unfold blk, rd.
    pose proof (Hidx i j' Hi Hj'). rewrite A6p by lia. reflexivity. }
  assert (HQ1 : forall K, K < n ->
            MB0 (p + K) = twist m (Z.of_nat (2 * c1)) (fun x => conj (rd M q x)) K).
  { intros K HK. rewrite Hn in HK. revert K HK.
    apply (twist_blocks m r (Z.of_nat (2 * c1)) (fun x => conj (rd M q x))
             (fun K => MB0 (p + K)) Hm).
    intros i j Hi Hj. cbv beta. rewrite <- Nat2Z.inj_mul.
    destruct (B0v i j Hi Hj) as [_ [V _]]. rewrite V.
    apply shift_congr; [assumption|]. intros j' Hj'. unfold blk, rd.
    pose proof (Hidx i j' Hi Hj'). rewrite A6p by lia. reflexivity. }
  destruct (phase_spec a' b f (2 * c1) (3 * c1) 2 m r n tmp to p (to + 2 * n) q
              (fun x => conj (rd M p x)) (fun x => conj (rd M q x)) MB0 Hfb IH Em0 Er0 En0)
    as (MB1 & MB2 & MB3 & MB4 & E1 & E2 & E3 & E4 & B5);
    try assumption; try (unfold disj; lia).
  rewrite E1. cbv beta iota. rewrite E2. cbv beta iota.
  rewrite E3. cbv beta iota. rewrite E4. cbv beta iota.
  clear E1 E2 E3 E4.
  destruct (scale_loop_spec to (2 * n) n (Tpow INV3 b) MB4) as [S1 S2].
  cbv zeta in S1, S2.
  set (MB5 := for_loop n _ MB4) in *. clearbody MB5.
  specialize (B5 MB5 S1 S2). cbv zeta in B5. destruct B5 as [B6v B6f].
  change (Z.of_nat 2) with 2%Z in B6v.
  set (MB6 := for_loop r _ MB5) in *. clearbody MB6.
  clear S1 S2 HP1 HQ1 MB1 MB2 MB3.
  (* Chinese remaindering *)
  destruct (mul_crt_spec q n m r to (rd M p) (rd M q) MB6 Hm Hr Hn) as [C1 C2].
  { unfold disj; lia. }
  { intros i j Hi Hj. pose proof (Hidx i j Hi Hj).
    rewrite B6f by lia. rewrite B0f by lia.
    replace (to + (n + i * m + j)) with (to + n + (i * m + j)) by lia.
    apply A6v; assumption. }
  { intros i j Hi Hj. rewrite B6v by assumption.
    rewrite (conj_yconv m Hm r).
    rewrite (yconv_tau_mod m Hm r _ 1 _ 2) by reflexivity.
    apply (yconv_congr m r Hm Hr); intros x Hx; apply conj_conj. }
  cbv zeta in C1, C2.
  eexists. split; [reflexivity|]. split; [exact C1|].
  intros x H1 H2 H3 H4. rewrite C2 by lia. rewrite B6f by lia.
  rewrite B0f by lia. apply A6p; lia.
Qed.

(** [mul] computes the product modulo x^n - omega for every n = 3^a. *)
Lemma mul_spec f : forall a, a < f -> mul_ok a f.
Proof.
  induction f as [|f IHf]; intros a Ha; [lia|].
  destruct (Nat.le_gt_cases a 3) as [H3|H3].
  - intros tmp p q to M Spq Spt Sqt Stp Stq Stt.
    unfold mul_cells, mul_tmp_cells in *.
    destruct (Nat.leb_spec a 3) as [_|]; [|lia].
    pose proof (pow3_pos a) as Hn.
    cbn [mul]. rewrite pow3_le27 by assumption.
    unfold sep in *.
    destruct (mul_base_spec p q (3 ^ a) to M) as [V F]; [lia|lia|].
    eexists. split; [reflexivity|]. split; [exact V|].
    intros x H1 H2 H4 H5. apply F. assumption.
  - pose proof (half_up a) as Hu. pose proof (half_down a) as Hd.
    assert (E : a = (a + 1) / 2 + a / 2) by lia.
    rewrite E. apply mul_step; try lia. apply IHf. lia.
Qed.


(** * The cyclic product of [multiply_cyclic_raw] *)

(** The last part of [multiply_cyclic_raw]: [pp] holds the product modulo
    x^m - omega, its conjugate is the product modulo x^m - omega^2. *)
Lemma cyclic_crt_spec pp n m r to (P Q : nat -> T) (MB : mem) :
  0 < m -> 0 < r -> n = r * m -> disj pp n to n ->
  (forall i j, i < r -> j < m ->
     MB (pp + (i * m + j)) = yconv 0 1 m r P Q (i * m + j)) ->
  (forall i j, i < r -> j < m ->
     conj (MB (pp + (i * m + j))) = yconv 0 2 m r P Q (i * m + j)) ->
  let M' := cyclic_crt pp n m r to MB in
  (forall K, K < n -> M' (to + K) = (T3 * pmul 0 n P Q K)%T)
  /\ (forall x, ~ (to <= x < to + n) -> M' x = MB x).
Proof.
  intros Hm Hr Hn Dq HA HB. unfold disj in Dq. unfold cyclic_crt. cbv zeta.
  destruct (zero_loop_spec n to MB) as [Z1 Z2]. cbv zeta in Z1, Z2.
  set (MC0 := for_loop n (fun i M => upd M (to + i) 0%T) MB) in *.
  set (g1 := fun (i j : nat) (M : mem) =>
    ((1 - OMEGA) * M.[pp + (i * m + j)] + (1 - OMEGA2) * conj (M.[pp + (i * m + j)]))%T).
  set (g2 := fun (i j : nat) (M : mem) =>
    ((OMEGA2 - OMEGA) * (M.[pp + (i * m + j)] - conj (M.[pp + (i * m + j)])))%T).
  set (L := fun i j => Lsum 0 m r P Q (Z.of_nat i) j).
  set (H := fun i j => Hsum 0 m r P Q (Z.of_nat i) j).
  destruct (crt_loop_sum n m r to g1 g2 g2
              (fun i j => T3 * L i j)%T (fun i j => T3 * H i j)%T
              (fun i j => T3 * H i j)%T MC0 Hn Hm) as [C1 C2].
  { intros i j M' Hi Hj HM'.
    assert (Hidx : i * m + j < n) by (rewrite Hn; apply blk_idx_lt; assumption).
    assert (EA : M' (pp + (i * m + j)) = (L i j + OMEGA * H i j)%T).
    { rewrite HM' by lia. rewrite Z2 by lia. rewrite HA by assumption.
      rewrite (yconv_halves m Hm r) by assumption. rewrite wpow_1. reflexivity. }
    assert (EB : conj (M' (pp + (i * m + j))) = (L i j + OMEGA2 * H i j)%T).
    { rewrite HM' by lia. rewrite Z2 by lia. rewrite HB by assumption.
      rewrite (yconv_halves m Hm r) by assumption. rewrite wpow_2. reflexivity. }
    unfold g1, g2. rewrite EB, EA.
    split; [apply crt_low|]. split; apply crt_high. }
  cbv zeta in C1, C2.
  set (MC1 := for_loop r _ MC0) in C1, C2.
  change (for_loop r _ MC0) with MC1.
  split.
  - intros K HK. rewrite C1, Z1 by assumption.
    rewrite Hn in HK.
    destruct (div_mod_lt m r K Hm HK) as [Hk Hj].
    rewrite (div_mod_eq m K).
    set (k := K / m) in *. set (j := K mod m) in *. clearbody k j.
    rewrite (crt_contrib_sum n m r to _ _ _ Hn Hm _ _ Hk Hj).
    rewrite Hn.
    rewrite (pmul_halves m Hm r Hr 0 P Q _ _ Hk Hj).
    unfold L, H. destruct (Nat.eqb_spec k 0) as [E0|E0].
    + rewrite E0. change (Z.of_nat 0 - 1)%Z with (-1)%Z.
      rewrite (Hsum_wrap m Hm r Hr) by assumption. rewrite wpow_0.
      replace (Z.of_nat (r - 1)) with (Z.of_nat r - 1)%Z by lia. ring.
    + replace (Z.of_nat (k - 1)) with (Z.of_nat k - 1)%Z by lia. ring.
  - intros x Hx. rewrite C2, Z2 by assumption. reflexivity.
Qed.

Lemma widen_spec n (p q : list u64) pp qq (M : mem) :
  disj pp n qq n ->
  let M' := for_loop n (fun i M =>
      let M := upd M (pp + i) (T_of (nth i p 0%u64)) in
      upd M (qq + i) (T_of (nth i q 0%u64))) M in
  (forall i, i < n -> M' (pp + i) = embed p i /\ M' (qq + i) = embed q i)
  /\ (forall x, ~ (pp <= x < pp + n) -> ~ (qq <= x < qq + n) -> M' x = M x).
Proof.
  intros D. unfold disj in D.
  pose proof (for_loop_inv (fun k (M' : mem) =>
    (forall i, i < k -> M' (pp + i) = embed p i /\ M' (qq + i) = embed q i)
    /\ (forall x, ~ (pp <= x < pp + n) -> ~ (qq <= x < qq + n) -> M' x = M x)) n
    (fun i M => upd (upd M (pp + i) (T_of (nth i p 0%u64))) (qq + i) (T_of (nth i q 0%u64)))
    M) as H.
  cbv beta in H. cbv zeta. apply H; clear H.
  - split; [intros; lia|auto].
  - intros k M' Hk [I1 I2]. split.
    + intros i Hi. destruct (Nat.eq_dec i k) as [->|Hne].
      * upd_simpl. split; reflexivity.
      * upd_simpl. apply I1. lia.
    + intros x H1 H2. upd_simpl. apply I2; assumption.
Qed.

Lemma copy_scaled_spec pp to n inv (M : mem) :
  disj pp n to n ->
  let M' := for_loop n (fun i M => upd M (pp + i) (M.[to + i] * inv)%T) M in
  (forall i, i < n -> M' (pp + i) = (M.[to + i] * inv)%T)
  /\ (forall x, ~ (pp <= x < pp + n) -> M' x = M x).
Proof.
  intros D. unfold disj in D. cbv zeta.
  destruct (for_loop_pointwise n (fun i => pp + i) (fun i M => M.[to + i] * inv)%T
              (fun i => M.[to + i] * inv)%T M) as [A1 A2].
  - intros; lia.
  - intros j M' Hj HM'. cbv beta. rewrite HM'; [reflexivity|]. intros; lia.
  - split; [exact A1|]. intros x Hx. apply A2. intros; lia.
Qed.

Lemma conj_embed l i : conj (embed l i) = embed l i.
Proof. unfold embed. apply conj_T_of. Qed.

Lemma pow3_third a' : 3 ^ (a' + 1) / 3 = 3 ^ a'.
Proof. rewrite Nat.add_1_r. cbn [Nat.pow]. apply pow3_div. Qed.

(** [multiply_cyclic_raw] for n = 3^(a'+b), a' <= b <= a'+1: it picks
    m = 3^a' and r = 3^b, and leaves three times the cyclic product in [to]. *)
Lemma multiply_cyclic_mem_spec a' b fuel (p q : list u64) :
  a' <= b <= a' + 1 -> b + 1 < fuel ->
  exists M, multiply_cyclic_mem fuel p q (3 ^ (a' + b)) = Some (2 * 3 ^ (a' + b), M)
    /\ (forall K, K < 3 ^ (a' + b) ->
         M (2 * 3 ^ (a' + b) + K) = (T3 * pmul 0 (3 ^ (a' + b)) (embed p) (embed q) K)%T)
    /\ (forall x, 3 * 3 ^ (a' + b) + 6 * 3 ^ a' <= x -> M x = T0).
Proof.
  intros Hab Hf. unfold multiply_cyclic_mem.
  rewrite cyc_m_loop by lia. cbv beta iota zeta.
  rewrite pow3_third, pow3_quot. rewrite inv_pow_spec by lia. cbv beta iota.
  assert (IH : mul_ok a' fuel) by (apply mul_spec; lia).
  assert (Hfb : b < fuel) by lia.
  assert (En : 3 ^ (a' + b) = 3 ^ a' * 3 ^ b) by apply Nat.pow_add_r.
  assert (Hc : 3 * 3 ^ a' = 3 ^ (a' + 1 - b) * 3 ^ b).
  { rewrite <- Nat.pow_add_r. replace (a' + 1 - b + b) with (S a') by lia. reflexivity. }
  rewrite En in *. clear En.
  remember (3 ^ (a' + 1 - b)) as c eqn:Ec. clear Ec.
  pose proof (fft_core_spec a' b c fuel Hc Hfb IH) as FC. cbv zeta in FC.
  pose proof (pow3_pos a') as Hm. pose proof (pow3_pos b) as Hr.
  pose proof (Tnat_pow3_inv b) as Hinv.
  remember (3 ^ a') as m eqn:Em0 in *. remember (3 ^ b) as r eqn:Er0 in *.
  remember (m * r) as n eqn:En0 in *.
  assert (Hn : n = r * m) by lia.
  assert (Hidx : forall i j, i < r -> j < m -> i * m + j < n).
  { intros i j Hi Hj. rewrite Hn. apply blk_idx_lt; assumption. }
  assert (Hn0 : 0 < n) by (rewrite Hn; apply Nat.mul_pos_pos; assumption).
  assert (H3m : 3 * m = c * r) by exact Hc.
  assert (Hcm : m <= n) by (rewrite Hn; nia).
  clear Em0 Er0 En0 Hab Hf Hc.
  destruct (widen_spec n p q 0 (0 + n) (fun _ => T0)) as [W1 W2]; [unfold disj; lia|].
  cbv zeta in W1, W2.
  match type of W2 with context [for_loop n ?F ?I] =>
    set (M0 := for_loop n F I) in * end.
  clearbody M0.
  destruct (FC (0 + 3 * n + 3 * m) 0 (0 + n) (0 + 2 * n) M0)
    as (M1 & M2 & M3 & M4 & E1 & E2 & E3 & E4 & V4 & F4); try (unfold disj; lia).
  rewrite E1. cbv beta iota. rewrite E2. cbv beta iota.
  rewrite (for_loop_opt_ext r _ (fun i M => mul fuel (0 + 3 * n + 3 * m)
             (0 + m * i) (0 + n + m * i) m (0 + 2 * n + m * i) M)).
  2:{ intros i M' Hi. rewrite (Nat.mul_comm i m). reflexivity. }
  rewrite E3. cbv beta iota. rewrite E4. cbv beta iota.
  clear E1 E2 E3 E4 FC.
  destruct (copy_scaled_spec 0 (0 + 2 * n) n (Tpow INV3 b) M4) as [S1 S2];
    [unfold disj; lia|].
  cbv zeta in S1, S2.
  set (M5 := for_loop n _ M4) in *. clearbody M5.
  assert (V5 : forall i j, i < r -> j < m ->
            M5 (0 + (i * m + j)) = yconv 0 1 m r (embed p) (embed q) (i * m + j)).
  { intros i j Hi Hj. pose proof (Hidx i j Hi Hj). rewrite S1 by assumption.
    rewrite V4 by assumption.
    rewrite (yconv_congr m r Hm Hr 0 1 (rd M0 0) (embed p) (rd M0 (0 + n)) (embed q)).
    - set (Y := yconv _ _ _ _ _ _ _).
      transitivity (Y * (Tnat r * Tpow INV3 b))%T; [ring|]. rewrite Hinv. ring.
    - intros x Hx. unfold rd. apply W1. lia.
    - intros x Hx. unfold rd. apply W1. lia. }
  destruct (cyclic_crt_spec 0 n m r (0 + 2 * n) (embed p) (embed q) M5 Hm Hr Hn)
    as [C1 C2]; [unfold disj; lia|exact V5| |].
  { intros i j Hi Hj. rewrite V5 by assumption.
    rewrite (conj_yconv m Hm r).
    apply (yconv_congr m r Hm Hr); intros x Hx; apply conj_embed. }
  cbv zeta in C1, C2. eexists. split; [reflexivity|]. split; [exact C1|].
  intros x Hx. rewrite C2 by lia. rewrite S2 by lia. rewrite F4 by lia. apply W2; lia.
Qed.


(** * The wrapper [multiply] *)

Lemma T_of_0 : T_of 0%u64 = 0%T.
Proof. reflexivity. Qed.

Lemma T_of_add x y : T_of (x + y)%u64 = (T_of x + T_of y)%T.
Proof. unfold T_of, Tadd; cbn [a b]. f_equal; try ring. Qed.

Lemma T_of_mul x y : T_of (x * y)%u64 = (T_of x * T_of y)%T.
Proof. unfold T_of, Tmul; cbn [a b]. f_equal; try ring. Qed.

Lemma u64_of_add x y : u64_of (x + y) = (u64_of x + u64_of y)%u64.
Proof. apply Zmod.of_Z_add. Qed.

Lemma u64_of_mul x y : u64_of (x * y) = (u64_of x * u64_of y)%u64.
Proof. apply Zmod.of_Z_mul. Qed.

Lemma Tsum_T_of n (f : nat -> Z) :
  Tsum n (fun i => T_of (u64_of (f i))) = T_of (u64_of (Zsum n f)).
Proof.
  induction n as [|n IH]; cbn [Tsum Zsum]; [reflexivity|].
  rewrite IH, u64_of_add, T_of_add. reflexivity.
Qed.

Lemma Tsum_prefix n k (g : nat -> T) :
  k <= n -> Tsum n (fun i => if i <? k then g i else 0%T) = Tsum k g.
Proof.
  intros H. replace n with (k + (n - k)) by lia. rewrite Tsum_app.
  rewrite (Tsum_ext k _ g).
  - rewrite (Tsum_zero (n - k)); [ring|]. intros i Hi.
    destruct (Nat.ltb_spec (k + i) k); [lia|reflexivity].
  - intros i Hi. destruct (Nat.ltb_spec i k); [reflexivity|lia].
Qed.

(** [resize] *)
Lemma resize_length {A : Type} (d : A) n l : length (resize d n l) = n.
Proof.
  unfold resize. rewrite length_app, length_firstn, repeat_length. lia.
Qed.

Lemma nth_resize {A : Type} (d : A) n l i :
  nth i (resize d n l) d = if i <? n then nth i l d else d.
Proof.
  unfold resize. destruct (Nat.lt_ge_cases i (length (firstn n l))) as [H|H].
  - rewrite app_nth1 by assumption. apply nth_firstn.
  - rewrite app_nth2 by assumption. rewrite nth_repeat.
    rewrite length_firstn in H.
    destruct (Nat.ltb_spec i n); [|reflexivity].
    symmetry. apply nth_overflow. lia.
Qed.

Lemma embed_resize (p : list Z) n i :
  i < n -> embed (resize 0%u64 n (map u64_of p)) i = T_of (u64_of (nth i p 0%Z)).
Proof.
  intros H. unfold embed. rewrite nth_resize.
  destruct (Nat.ltb_spec i n); [|lia].
  change 0%u64 with (u64_of 0). rewrite map_nth. reflexivity.
Qed.

(** The cyclic product of the padded vectors is the product in Z[x] when the
    length n leaves room for all of its coefficients. *)
Lemma pmul_embed_lin n (p q : list Z) K :
  0 < length p -> 0 < length q -> length p + length q - 1 <= n ->
  K < length p + length q - 1 ->
  pmul 0 n (embed (resize 0%u64 n (map u64_of p))) (embed (resize 0%u64 n (map u64_of q))) K
  = T_of (u64_of (lin_conv p q K)).
Proof.
  intros Hp Hq Hn HK. unfold pmul, lin_conv.
  rewrite <- Tsum_T_of. rewrite <- (Tsum_prefix n (S K)) by lia.
  apply Tsum_ext. intros i Hi. rewrite embed_resize by assumption.
  destruct (Nat.ltb_spec i (S K)) as [Hle|Hgt].
  - rewrite (ext_at 0 n _ _ 0 (K - i)) by lia.
    rewrite embed_resize by lia.
    rewrite u64_of_mul, T_of_mul. wpow_eval. ring.
  - rewrite (ext_at 0 n _ _ (-1) (K + n - i)) by lia.
    rewrite embed_resize by lia.
    destruct (Nat.lt_ge_cases i (length p)) as [Hi'|Hi'].
    + rewrite (nth_overflow q) by lia. change (u64_of 0) with 0%u64.
      rewrite T_of_0. ring.
    + rewrite (nth_overflow p) by lia. change (u64_of 0) with 0%u64.
      rewrite T_of_0. ring.
Qed.

(** No power of three up to 3^40 wraps around. *)
Lemma pow3_Z_small j : j <= 40 -> (0 < 3 ^ Z.of_nat j < M64)%Z.
Proof.
  intros H. split; [apply Z.pow_pos_nonneg; lia|].
  apply Z.le_lt_trans with (3 ^ 40)%Z; [apply Z.pow_le_mono_r; lia|reflexivity].
Qed.

Lemma pow3_Z_nat j : Z.to_nat (3 ^ Z.of_nat j) = 3 ^ j.
Proof.
  change 3%Z with (Z.of_nat 3). rewrite <- Nat2Z.inj_pow. apply Nat2Z.id.
Qed.

(** [while (s < size) s *= 3] stops at a power of three that is at least size. *)
Lemma s_loop_from (sz : Z) d : forall j fuel,
  j + d = 36 -> d < fuel -> (sz <= 3 ^ 36)%Z ->
  exists k, j <= k <= 36
    /\ while_loop fuel (fun s => s <? sz)%Z (fun s => wrap64 (s * 3)) (3 ^ Z.of_nat j)%Z
       = Some (3 ^ Z.of_nat k)%Z
    /\ (sz <= 3 ^ Z.of_nat k)%Z.
Proof.
  induction d as [|d IH]; intros j fuel Hj Hfuel Hsz; (destruct fuel as [|f]; [lia|]);
    cbn [while_loop].
  - replace j with 36 by lia. change (Z.of_nat 36) with 36%Z.
    destruct (Z.ltb_spec (3 ^ 36) sz); [lia|]. exists 36. repeat split; lia.
  - destruct (Z.ltb_spec (3 ^ Z.of_nat j) sz) as [Hlt|Hge].
    + assert (E : wrap64 (3 ^ Z.of_nat j * 3) = (3 ^ Z.of_nat (S j))%Z).
      { rewrite Nat2Z.inj_succ, Z.pow_succ_r by lia.
        pose proof (pow3_Z_small (S j) ltac:(lia)) as B.
        rewrite Nat2Z.inj_succ, Z.pow_succ_r in B by lia.
        unfold wrap64. rewrite Z.mod_small by lia. lia. }
      rewrite E. destruct (IH (S j) f ltac:(lia) ltac:(lia) Hsz) as (k & Hk & Ek & Hs).
      exists k. repeat split; try lia; assumption.
    + exists j. repeat split; try lia.
Qed.

Lemma s_loop_spec (sz : Z) fuel :
  36 < fuel -> (sz <= 3 ^ 36)%Z ->
  exists k, k <= 36
    /\ while_loop fuel (fun s => s <? sz)%Z (fun s => wrap64 (s * 3)) 1%Z
       = Some (3 ^ Z.of_nat k)%Z
    /\ (sz <= 3 ^ Z.of_nat k)%Z.
Proof.
  intros Hf Hsz. destruct (s_loop_from sz 36 0 fuel ltac:(lia) Hf Hsz) as (k & Hk & E & Hs).
  exists k. repeat split; try lia; assumption.
Qed.

(** [multiply_cyclic_raw] writes the cyclic product into [target]. *)
Lemma multiply_cyclic_raw_spec a' b fuel (p q : list u64) :
  a' <= b <= a' + 1 -> b + 1 < fuel ->
  multiply_cyclic_raw fuel p q (3 ^ (a' + b))
  = Some (map (fun i => a (pmul 0 (3 ^ (a' + b)) (embed p) (embed q) i))
            (seq 0 (3 ^ (a' + b)))).
Proof.
  intros Hab Hf. unfold multiply_cyclic_raw.
  destruct (multiply_cyclic_mem_spec a' b fuel p q Hab Hf) as [M [E [V _]]].
  rewrite E. cbn [fst snd]. f_equal. apply map_ext_in. intros i Hi.
  apply in_seq in Hi. rewrite V by lia. rewrite T3_INV3_cancel. reflexivity.
Qed.

Lemma firstn_seq_le n : forall len s, n <= len -> firstn n (seq s len) = seq s n.
Proof.
  induction n as [|n IH]; intros len s H; [reflexivity|].
  destruct len as [|len]; [lia|]. cbn. f_equal. apply IH. lia.
Qed.

Lemma resize_map_seq (f : nat -> Z) sz n :
  sz <= n -> resize 0%Z sz (map f (seq 0 n)) = map f (seq 0 sz).
Proof.
  intros H. unfold resize. rewrite length_map, length_seq.
  replace (sz - n) with 0 by lia. cbn [repeat]. rewrite app_nil_r.
  rewrite firstn_map, firstn_seq_le by assumption. reflexivity.
Qed.

Lemma split_exponent k : k / 2 <= k - k / 2 <= k / 2 + 1 /\ k / 2 + (k - k / 2) = k.
Proof.
  pose proof (Nat.div_mod_eq k 2). pose proof (Nat.mod_upper_bound k 2). lia.
Qed.

(** [multiply] returns the product for vectors that are not empty and whose
    product has at most 3^36 coefficients. *)
Lemma multiply_closed fuel (p q : list Z) :
  p <> [] -> q <> [] ->
  (Z.of_nat (length p) + Z.of_nat (length q) - 1 <= 3 ^ 36)%Z ->
  40 <= fuel ->
  multiply fuel p q = Some (product p q).
Proof.
  intros Hp Hq Hsz Hf.
  assert (Lp : 0 < length p) by (destruct p; [contradiction|cbn; lia]).
  assert (Lq : 0 < length q) by (destruct q; [contradiction|cbn; lia]).
  unfold multiply, multiply_frame. cbv zeta. cbn [arg_p arg_q loc_pp loc_qq loc_res].
  assert (E1 : wrap64 (wrap64 (Z.of_nat (length p) + Z.of_nat (length q)) - 1)
               = Z.of_nat (length p + length q - 1)).
  { assert (3 ^ 36 < M64 - 1)%Z by reflexivity.
    unfold wrap64. rewrite (Z.mod_small (_ + _)) by lia. rewrite Z.mod_small by lia. lia. }
  rewrite E1. set (sz := length p + length q - 1) in *.
  destruct (s_loop_spec (Z.of_nat sz) fuel ltac:(lia) ltac:(lia)) as (k & Hk & Es & Hs).
  rewrite Es. rewrite pow3_Z_nat, resize_length, Nat2Z.id.
  assert (Hn : sz <= 3 ^ k).
  { apply Nat2Z.inj_le. rewrite Nat2Z.inj_pow. exact Hs. }
  destruct (split_exponent k) as [Hab Ek].
  rewrite <- Ek at 3.
  rewrite (multiply_cyclic_raw_spec (k / 2) (k - k / 2) fuel) by lia.
  rewrite Ek. cbn [arg_p arg_q loc_pp loc_qq loc_res].
  rewrite map_map, resize_map_seq by assumption. f_equal.
  unfold product. fold sz. apply map_ext_in. intros i Hi. apply in_seq in Hi.
  rewrite pmul_embed_lin by (fold sz; lia). reflexivity.
Qed.


(** * The product modulo x^n - omega, coefficient by coefficient *)

Lemma pmul_mulmod n (P Q : nat -> T) K : K < n -> pmul 1 n P Q K = mulmod n P Q K.
Proof.
  intros HK. unfold pmul, mulmod. apply Tsum_ext. intros i Hi.
  destruct (Nat.le_gt_cases i K) as [Hle|Hgt].
  - rewrite (ext_at 1 n Q _ 0 (K - i)) by lia.
    rewrite (Tsum_ext n _ (fun j => if j =? K - i then P i * Q j else 0)%T).
    + rewrite Tsum_delta by lia. wpow_eval. ring.
    + intros j Hj. destruct (Nat.eqb_spec (i + j) K); destruct (Nat.eqb_spec (i + j) (K + n));
        destruct (Nat.eqb_spec j (K - i)); try lia; ring.
  - rewrite (ext_at 1 n Q _ (-1) (K + n - i)) by lia.
    rewrite (Tsum_ext n _ (fun j => if j =? K + n - i then OMEGA * (P i * Q j) else 0)%T).
    + rewrite Tsum_delta by lia. wpow_eval. ring.
    + intros j Hj. destruct (Nat.eqb_spec (i + j) K); destruct (Nat.eqb_spec (i + j) (K + n));
        destruct (Nat.eqb_spec j (K + n - i)); try lia; ring.
Qed.

(** * Elements of R inside T *)

Lemma pure_T_of x : pure (T_of x).
Proof. reflexivity. Qed.

Lemma pure_0 : pure 0%T.
Proof. reflexivity. Qed.

Lemma pure_1 : pure 1%T.
Proof. reflexivity. Qed.

Lemma pure_eq u : pure u -> u = T_of (a u).
Proof. destruct u as [x y]. unfold pure, T_of. cbn [a b]. intros ->. reflexivity. Qed.

Lemma pure_add u v : pure u -> pure v -> pure (u + v)%T.
Proof.
  intros Hu Hv. rewrite (pure_eq u Hu), (pure_eq v Hv), <- T_of_add. apply pure_T_of.
Qed.

Lemma pure_mul u v : pure u -> pure v -> pure (u * v)%T.
Proof.
  intros Hu Hv. rewrite (pure_eq u Hu), (pure_eq v Hv), <- T_of_mul. apply pure_T_of.
Qed.

Lemma pure_Tsum n f : (forall i, i < n -> pure (f i)) -> pure (Tsum n f).
Proof.
  induction n as [|n IH]; intros H; cbn [Tsum]; [apply pure_0|].
  apply pure_add; [apply IH; intros; apply H; lia|apply H; lia].
Qed.

(** The cyclic product of two vectors of R is a vector of R. *)
Lemma pure_pmul_embed n (p q : list u64) K : pure (pmul 0 n (embed p) (embed q) K).
Proof.
  unfold pmul. apply pure_Tsum. intros i Hi. apply pure_mul; [apply pure_T_of|].
  unfold ext. apply pure_mul; [|apply pure_T_of].
  change (- 0)%Z with 0%Z. rewrite Z.mul_0_l. apply pure_1.
Qed.

(** * The product in Z[x] does not depend on the order of the factors *)

Lemma Zsum_ext n f g : (forall i, i < n -> f i = g i) -> Zsum n f = Zsum n g.
Proof.
  induction n as [|n IH]; intros H; cbn [Zsum]; [reflexivity|].
  rewrite IH, H by auto with arith. reflexivity.
Qed.

Lemma Zsum_S_l n f : Zsum (S n) f = (f 0%nat + Zsum n (fun i => f (S i)))%Z.
Proof.
  induction n as [|n IH]; [cbn; lia|].
  change (Zsum (S (S n)) f) with (Zsum (S n) f + f (S n))%Z. rewrite IH. cbn [Zsum]. lia.
Qed.

Lemma Zsum_rev n : forall f, Zsum n f = Zsum n (fun i => f (n - 1 - i)).
Proof.
  induction n as [|n IH]; intros f; [reflexivity|].
  rewrite Zsum_S_l. cbn [Zsum]. rewrite (IH (fun i => f (S i))).
  replace (S n - 1 - n) with 0 by lia.
  rewrite (Zsum_ext n (fun i => f (S n - 1 - i)) (fun i => f (S (n - 1 - i)))).
  - lia.
  - intros i Hi. f_equal. lia.
Qed.

Lemma lin_conv_comm p q k : lin_conv p q k = lin_conv q p k.
Proof.
  unfold lin_conv. rewrite Zsum_rev. apply Zsum_ext. intros i Hi.
  replace (S k - 1 - i) with (k - i) by lia.
  replace (k - (k - i)) with i by lia. lia.
Qed.

Lemma product_comm p q : product p q = product q p.
Proof.
  unfold product. rewrite (Nat.add_comm (length q)).
  apply map_ext. intros k. rewrite lin_conv_comm. reflexivity.
Qed.

Lemma nth_map_seq {A : Type} (f : nat -> A) n k d : k < n -> nth k (map f (seq 0 n)) d = f k.
Proof.
  intros H. rewrite (nth_indep _ d (f 0)) by (rewrite length_map, length_seq; exact H).
  rewrite map_nth, seq_nth by assumption. reflexivity.
Qed.

(** * [multiply] on two empty vectors *)

(** Starting from 1, [s *= 3] only visits values that are 1 or 3 modulo 8. *)
Lemma s_loop_diverges fuel : forall s,
  (0 <= s < M64)%Z -> (s mod 8 = 1 \/ s mod 8 = 3)%Z ->
  while_loop fuel (fun s => s <? 18446744073709551615)%Z (fun s => wrap64 (s * 3)) s = None.
Proof.
  induction fuel as [|f IH]; intros s Hs Hmod; [reflexivity|]. cbn [while_loop].
  unfold M64 in Hs.
  destruct (Z.ltb_spec s 18446744073709551615) as [Hlt|Hge].
  - apply IH; unfold wrap64, M64.
    + apply Z.mod_pos_bound. lia.
    + revert Hmod. Z.div_mod_to_equations. lia.
  - exfalso. assert (s = 18446744073709551615)%Z by lia. subst s.
    destruct Hmod as [H|H]; revert H; vm_compute; discriminate.
Qed.

(** * twiddle as the multiplication by a power of x *)

Lemma pmul_monomial m t (u : nat -> T) j :
  t < m -> j < m -> pmul 1 m (monomial t) u j = shift 1 m (Z.of_nat t) u j.
Proof.
  intros Ht Hj. unfold pmul, monomial.
  rewrite (Tsum_ext m _ (fun i =>
    if i =? t then ext 1 m u (Z.of_nat j - Z.of_nat i) else 0)%T).
  - rewrite Tsum_delta by assumption. reflexivity.
  - intros i Hi. destruct (Nat.eqb_spec i t); ring.
Qed.

(** [twiddle] by t multiplies by x^t = omega^(t/m) * x^(t mod m). *)
Lemma twiddle_mulmod m p to t (M : mem) j :
  t <= 3 * m -> disj p m to m -> j < m ->
  twiddle p m t to M (to + j)
  = (wpow (Z.of_nat (t / m)) * mulmod m (monomial (t mod m)) (rd M p) j)%T.
Proof.
  intros Ht Hd Hj. destruct (twiddle_spec p m t to M Ht Hd) as [V _].
  assert (Hm : 0 < m) by lia.
  rewrite V by assumption.
  rewrite <- pmul_mulmod by assumption.
  rewrite pmul_monomial by (try apply Nat.mod_upper_bound; lia).
  pose proof (Nat.div_mod_eq t m) as E.
  replace (Z.of_nat t)
    with (Z.of_nat (t mod m) + Z.of_nat (t / m) * Z.of_nat m)%Z at 1 by lia.
  rewrite shift_period by assumption. rewrite Z.mul_1_l. reflexivity.
Qed.

(** [twiddle] by 1 multiplies by x: the coefficients move up by one place and
    the last one comes back at x^0 with the factor omega. *)
Lemma twiddle_by_x m p to (M : mem) j :
  disj p m to m -> j < m ->
  twiddle p m 1 to M (to + j)
  = (if j =? 0 then OMEGA * M.[p + (m - 1)] else M.[p + (j - 1)])%T.
Proof.
  intros Hd Hj. destruct (twiddle_spec p m 1 to M ltac:(lia) Hd) as [V _].
  rewrite V by assumption. unfold shift, rd.
  destruct (Nat.eqb_spec j 0) as [->|Hne].
  - rewrite (ext_at 1 m _ _ (-1) (m - 1)) by lia. wpow_eval. reflexivity.
  - rewrite (ext_at 1 m _ _ 0 (j - 1)) by lia. wpow_eval. ring.
Qed.

(** The cyclic product of the padded vectors and the product in Z[x], for
    every coefficient below the padded length and for empty vectors too. *)
Lemma pmul_embed_lin_all n (p q : list Z) K :
  length p + length q - 1 <= n -> K < n ->
  pmul 0 n (embed (resize 0%u64 n (map u64_of p))) (embed (resize 0%u64 n (map u64_of q))) K
  = T_of (u64_of (lin_conv p q K)).
Proof.
  intros Hn HK. unfold pmul, lin_conv.
  rewrite <- Tsum_T_of. rewrite <- (Tsum_prefix n (S K)) by lia.
  apply Tsum_ext. intros i Hi. rewrite embed_resize by assumption.
  destruct (Nat.ltb_spec i (S K)) as [Hle|Hgt].
  - rewrite (ext_at 0 n _ _ 0 (K - i)) by lia.
    rewrite embed_resize by lia.
    rewrite u64_of_mul, T_of_mul. wpow_eval. ring.
  - rewrite (ext_at 0 n _ _ (-1) (K + n - i)) by lia.
    rewrite embed_resize by lia.
    destruct (Nat.lt_ge_cases i (length p)) as [Hi'|Hi'].
    + rewrite (nth_overflow q) by lia. change (u64_of 0) with 0%u64.
      rewrite T_of_0. ring.
    + rewrite (nth_overflow p) by lia. change (u64_of 0) with 0%u64.
      rewrite T_of_0. ring.
Qed.

(** [multiply] returns the product as soon as one of the vectors is not empty. *)
Lemma multiply_closed_all fuel (p q : list Z) :
  p <> [] \/ q <> [] ->
  (Z.of_nat (length p) + Z.of_nat (length q) - 1 <= 3 ^ 36)%Z ->
  40 <= fuel ->
  multiply fuel p q = Some (product p q).
Proof.
  intros Hpq Hsz Hf.
  assert (L : 0 < length p + length q).
  { destruct Hpq as [H|H]; [destruct p|destruct q]; try contradiction; cbn; lia. }
  unfold multiply, multiply_frame. cbv zeta. cbn [arg_p arg_q loc_pp loc_qq loc_res].
  assert (E1 : wrap64 (wrap64 (Z.of_nat (length p) + Z.of_nat (length q)) - 1)
               = Z.of_nat (length p + length q - 1)).
  { assert (3 ^ 36 < M64 - 1)%Z by reflexivity.
    unfold wrap64. rewrite (Z.mod_small (_ + _)) by lia. rewrite Z.mod_small by lia. lia. }
  rewrite E1. set (sz := length p + length q - 1) in *.
  destruct (s_loop_spec (Z.of_nat sz) fuel ltac:(lia) ltac:(lia)) as (k & Hk & Es & Hs).
  rewrite Es. rewrite pow3_Z_nat, resize_length, Nat2Z.id.
  assert (Hn : sz <= 3 ^ k).
  { apply Nat2Z.inj_le. rewrite Nat2Z.inj_pow. exact Hs. }
  destruct (split_exponent k) as [Hab Ek].
  rewrite <- Ek at 3.
  rewrite (multiply_cyclic_raw_spec (k / 2) (k - k / 2) fuel) by lia.
  rewrite Ek. cbn [arg_p arg_q loc_pp loc_qq loc_res].
  rewrite map_map, resize_map_seq by assumption. f_equal.
  unfold product. fold sz. apply map_ext_in. intros i Hi. apply in_seq in Hi.
  rewrite pmul_embed_lin_all by (fold sz; lia). reflexivity.
Qed.


(** * [multiply] on the heap: where the writes land *)

















(** * The claims *)

(** C1: for vectors p and q that are not empty, [multiply] returns a vector of
    length |p| + |q| - 1 whose k-th entry is congruent modulo 2^64 to the sum
    of p[i] * q[j] over i + j = k, and lies in the signed 64-bit range.  The
    product has at most 3^36 coefficients (more do not fit the address space
    together with the scratch buffer), and the fuel covers every loop. *)
Theorem multiply_correct fuel (p q : list Z) :
  p <> [] -> q <> [] ->
  (Z.of_nat (length p) + Z.of_nat (length q) - 1 <= 3 ^ 36)%Z ->
  40 <= fuel ->
  exists res, multiply fuel p q = Some res
    /\ length res = length p + length q - 1
    /\ forall k, k < length p + length q - 1 ->
         (nth k res 0 mod 2 ^ 64 = lin_conv p q k mod 2 ^ 64)%Z
         /\ (- 2 ^ 63 <= nth k res 0 < 2 ^ 63)%Z.
Proof.
  intros Hp Hq Hsz Hf. exists (product p q).
  split; [apply multiply_closed; assumption|].
  unfold product. split; [rewrite length_map, length_seq; reflexivity|].
  intros k Hk. rewrite nth_map_seq by assumption. split.
  - change (2 ^ 64)%Z with M64. rewrite Zmod.mod_signed. apply Zmod.unsigned_of_Z.
  - pose proof (Zmod.signed_pos_bound (u64_of (lin_conv p q k)) ltac:(reflexivity)) as B.
    set (x := Zmod.signed _) in *. clearbody x.
    unfold M64 in B. change (2 ^ 63)%Z with 9223372036854775808%Z. lia.
Qed.

Lemma multiply_correct_witness :
  exists res, multiply 40 [3; -1]%Z [1; 1; 1]%Z = Some res
    /\ length res = length [3; -1]%Z + length [1; 1; 1]%Z - 1
    /\ forall k, k < length [3; -1]%Z + length [1; 1; 1]%Z - 1 ->
         (nth k res 0 mod 2 ^ 64 = lin_conv [3; -1] [1; 1; 1] k mod 2 ^ 64)%Z
         /\ (- 2 ^ 63 <= nth k res 0 < 2 ^ 63)%Z.
Proof.
  apply (multiply_correct 40 [3; -1]%Z [1; 1; 1]%Z).
  - discriminate.
  - discriminate.
  - vm_compute. discriminate.
  - lia.
Defined.

(** C2: for n = 3^k, [mul] writes into [to[0..n)] the product of p and q
    reduced modulo x^n - omega.  The buffers do not overlap, [to] has
    [mul_cells k] cells and [tmp] has [mul_tmp_cells k] cells; cells outside
    p, q, [to] and [tmp] keep their value (p and q need not). *)
Theorem mul_correct k fuel tmp p q to (M : mem) :
  k < fuel ->
  sep p (3 ^ k) q (3 ^ k) -> sep p (3 ^ k) to (mul_cells k) -> sep q (3 ^ k) to (mul_cells k) ->
  sep tmp (mul_tmp_cells k) p (3 ^ k) -> sep tmp (mul_tmp_cells k) q (3 ^ k) ->
  sep tmp (mul_tmp_cells k) to (mul_cells k) ->
  exists M', mul fuel tmp p q (3 ^ k) to M = Some M'
    /\ (forall K, K < 3 ^ k -> M' (to + K) = mulmod (3 ^ k) (rd M p) (rd M q) K)
    /\ (forall x, ~ (p <= x < p + 3 ^ k) -> ~ (q <= x < q + 3 ^ k) ->
          ~ (to <= x < to + mul_cells k) -> ~ (tmp <= x < tmp + mul_tmp_cells k) ->
          M' x = M x).
Proof.
  intros Hf S1 S2 S3 S4 S5 S6.
  destruct (mul_spec fuel k Hf tmp p q to M S1 S2 S3 S4 S5 S6) as [M' [E [V F]]].
  exists M'. split; [exact E|]. split; [|exact F].
  intros K HK. rewrite V by assumption. apply pmul_mulmod. assumption.
Qed.

Lemma mul_correct_witness :
  exists M', mul 2 100 0 3 (3 ^ 1) 6 count_mem = Some M'
    /\ (forall K, K < 3 ^ 1 -> M' (6 + K) = mulmod (3 ^ 1) (rd count_mem 0) (rd count_mem 3) K)
    /\ (forall x, ~ (0 <= x < 0 + 3 ^ 1) -> ~ (3 <= x < 3 + 3 ^ 1) ->
          ~ (6 <= x < 6 + mul_cells 1) -> ~ (100 <= x < 100 + mul_tmp_cells 1) ->
          M' x = count_mem x).
Proof.
  apply (mul_correct 1 2 100 0 3 6 count_mem);
    unfold sep, mul_cells, mul_tmp_cells; simpl; lia.
Defined.

(** C3 (as the code has it): with n = 3^k, the head of the recursive branch of
    [mul] picks m = 3^ceil(k/2) and r = n/m = 3^floor(k/2), so that
    r <= m <= 3r, and inv = 3^(-floor(k/2)), the inverse of r in T. *)
Theorem mul_split_correct k fuel :
  k < fuel ->
  mul_split fuel (3 ^ k) = Some (3 ^ ((k + 1) / 2), 3 ^ (k / 2), Tpow INV3 (k / 2))
  /\ 3 ^ ((k + 1) / 2) * 3 ^ (k / 2) = 3 ^ k
  /\ 3 ^ (k / 2) <= 3 ^ ((k + 1) / 2) <= 3 * 3 ^ (k / 2)
  /\ (Tnat (3 ^ (k / 2)) * Tpow INV3 (k / 2))%T = 1%T.
Proof.
  intros Hf. pose proof (half_up k) as Hu. pose proof (half_down k) as Hd.
  assert (E : k = (k + 1) / 2 + k / 2) by lia.
  split; [|split; [|split]].
  - rewrite E at 1. apply mul_split_spec; lia.
  - rewrite <- Nat.pow_add_r. f_equal. lia.
  - split; [apply pow3_le; lia|].
    change (3 * 3 ^ (k / 2)) with (3 ^ S (k / 2)). apply pow3_le. lia.
  - apply Tnat_pow3_inv.
Qed.

Lemma mul_split_correct_witness :
  mul_split 10 (3 ^ 5) = Some (3 ^ ((5 + 1) / 2), 3 ^ (5 / 2), Tpow INV3 (5 / 2))
  /\ 3 ^ ((5 + 1) / 2) * 3 ^ (5 / 2) = 3 ^ 5
  /\ 3 ^ (5 / 2) <= 3 ^ ((5 + 1) / 2) <= 3 * 3 ^ (5 / 2)
  /\ (Tnat (3 ^ (5 / 2)) * Tpow INV3 (5 / 2))%T = 1%T.
Proof. apply (mul_split_correct 5 10). lia. Defined.

(** C3 as stated fails at n = 3^5 = 243: the code picks m = 27 and r = 9, not
    m = 3^floor(5/2) = 9; m <= r does not hold; and inv is the inverse of 9,
    that is 3^(-2), not 3^(-3). *)
Lemma mul_split_243 :
  mul_split 10 243 = Some (27, 9, (T1 * INV3 * INV3)%T)
  /\ 243 = 3 ^ 5 /\ 3 ^ (5 / 2) = 9 /\ (27 <=? 9) = false
  /\ (T_of (u64_of 9) * (T1 * INV3 * INV3))%T = T1
  /\ (T_of (u64_of 27) * (T1 * INV3 * INV3))%T = T_of (u64_of 3).
Proof. repeat split; vm_compute; reflexivity. Qed.

(** C4: for m = 3^j and r = 3^k with r <= 3m, [fftdif] followed by [fftdit]
    on a buffer of m * r elements multiplies every element by r.  [tmp] has
    3m cells apart from the buffer. *)
Theorem dit_inverts_dif j k fuel tmp p (M : mem) :
  k <= j + 1 -> k < fuel ->
  tmp + 3 * 3 ^ j <= p \/ p + 3 ^ j * 3 ^ k <= tmp ->
  exists M1 M2,
    fftdif fuel tmp p (3 ^ j) (3 ^ k) M = Some M1
    /\ fftdit fuel tmp p (3 ^ j) (3 ^ k) M1 = Some M2
    /\ forall K, K < 3 ^ j * 3 ^ k -> M2 (p + K) = (Tnat (3 ^ k) * M.[p + K])%T.
Proof.
  intros Hk Hf Hd.
  destruct (fftdit_fftdif k fuel tmp p (3 ^ j) (3 ^ (j + 1 - k)) M) as (M1 & M2 & E1 & E2 & V & _).
  - apply pow3_pos.
  - rewrite <- Nat.pow_add_r. replace (j + 1 - k + k) with (S j) by lia. reflexivity.
  - exact Hf.
  - exact Hd.
  - exists M1, M2. auto.
Qed.

Lemma dit_inverts_dif_witness :
  exists M1 M2,
    fftdif 3 0 9 (3 ^ 1) (3 ^ 2) count_mem = Some M1
    /\ fftdit 3 0 9 (3 ^ 1) (3 ^ 2) M1 = Some M2
    /\ forall K, K < 3 ^ 1 * 3 ^ 2 -> M2 (9 + K) = (Tnat (3 ^ 2) * count_mem.[9 + K])%T.
Proof. apply (dit_inverts_dif 1 2 3 0 9 count_mem); simpl; lia. Defined.

(** C5: in [multiply_cyclic_raw] with n = 3^k, after the Chinese remaindering
    every [to[i] * INV3], i < n, has no omega component, so [target[i]], its
    R component, determines it. *)
Theorem cyclic_result_pure k fuel (p q : list u64) :
  k + 1 < fuel ->
  exists to M target,
    multiply_cyclic_mem fuel p q (3 ^ k) = Some (to, M)
    /\ multiply_cyclic_raw fuel p q (3 ^ k) = Some target
    /\ forall i, i < 3 ^ k ->
         b (M.[to + i] * INV3)%T = 0%u64
         /\ T_of (nth i target 0%u64) = (M.[to + i] * INV3)%T.
Proof.
  intros Hf. destruct (split_exponent k) as [Hab Ek].
  destruct (multiply_cyclic_mem_spec (k / 2) (k - k / 2) fuel p q Hab ltac:(lia))
    as [M [E [V _]]].
  pose proof (multiply_cyclic_raw_spec (k / 2) (k - k / 2) fuel p q Hab ltac:(lia)) as R.
  rewrite Ek in E, V, R.
  exists (2 * 3 ^ k), M, (map (fun i => a (pmul 0 (3 ^ k) (embed p) (embed q) i)) (seq 0 (3 ^ k))).
  split; [exact E|]. split; [exact R|].
  intros i Hi. rewrite V by assumption. rewrite T3_INV3_cancel.
  split; [apply pure_pmul_embed|].
  rewrite nth_map_seq by assumption. symmetry. apply pure_eq, pure_pmul_embed.
Qed.

Lemma cyclic_result_pure_witness :
  exists to M target,
    multiply_cyclic_mem 4 [u64_of 5; u64_of 7; u64_of (-1)] [u64_of 2; u64_of 3; u64_of 4] (3 ^ 1)
      = Some (to, M)
    /\ multiply_cyclic_raw 4 [u64_of 5; u64_of 7; u64_of (-1)] [u64_of 2; u64_of 3; u64_of 4]
         (3 ^ 1) = Some target
    /\ forall i, i < 3 ^ 1 ->
         b (M.[to + i] * INV3)%T = 0%u64
         /\ T_of (nth i target 0%u64) = (M.[to + i] * INV3)%T.
Proof. apply (cyclic_result_pure 1 4). lia. Defined.

(** C6: [multiply] on two empty vectors does not return, whatever the fuel:
    the size |p| + |q| - 1 wraps around to 2^64 - 1, which s never reaches. *)
Theorem multiply_empty_diverges fuel : multiply fuel [] [] = None.
Proof.
  unfold multiply, multiply_frame. cbv zeta. cbn [arg_p arg_q length].
  change (wrap64 (wrap64 (Z.of_nat 0 + Z.of_nat 0) - 1)) with 18446744073709551615%Z.
  rewrite s_loop_diverges; [reflexivity|unfold M64; lia|left; reflexivity].
Qed.

(** C6: with one empty vector the size is |q| - 1, and [multiply] returns that
    many zeros instead of the empty vector. *)
Lemma multiply_one_empty :
  multiply 40 [] [1; 2]%Z = Some [0%Z] /\ multiply 40 [1; 2; 3]%Z [] = Some [0; 0]%Z.
Proof. split; vm_compute; reflexivity. Qed.

(** C7: [twiddle] is the action of x modulo x^m - omega.  For 0 <= t <= 3m it
    writes x^t * p, that is omega^(t/m) times the product of p with the
    monomial x^(t mod m) reduced modulo x^m - omega; [twiddle] by 1 moves
    every coefficient up by one place and brings the last one back at x^0
    with the factor omega.  So [twiddle] by 0 and by 3m copy the block, and
    [twiddle] by s followed by [twiddle] by t gives the block of one
    [twiddle] by (s + t) mod 3m.  A block and the block written from it do
    not overlap. *)
Theorem twiddle_group_action m p mid to to' s t (M : mem) :
  s <= 3 * m -> t <= 3 * m ->
  disj p m mid m -> disj mid m to m -> disj p m to m -> disj p m to' m ->
  forall j, j < m ->
    twiddle p m t to M (to + j)
    = (wpow (Z.of_nat (t / m)) * mulmod m (monomial (t mod m)) (rd M p) j)%T
    /\ twiddle p m 1 to M (to + j)
       = (if j =? 0 then OMEGA * M.[p + (m - 1)] else M.[p + (j - 1)])%T
    /\ twiddle p m 0 to M (to + j) = M (p + j)
    /\ twiddle p m (3 * m) to M (to + j) = M (p + j)
    /\ twiddle mid m t to (twiddle p m s mid M) (to + j)
       = twiddle p m ((s + t) mod (3 * m)) to' M (to' + j).
Proof.
  intros Hs Ht D1 D2 D3 D4 j Hj.
  split; [apply twiddle_mulmod; assumption|].
  split; [apply twiddle_by_x; assumption|].
  unfold disj in *.
  assert (Hm : 0 < m) by lia.
  destruct (twiddle_spec p m 0 to M ltac:(lia) D3) as [V0 _].
  destruct (twiddle_spec p m (3 * m) to M ltac:(lia) D3) as [V3 _].
  destruct (twiddle_spec p m s mid M Hs D1) as [V1 _].
  destruct (twiddle_spec mid m t to (twiddle p m s mid M) Ht D2) as [V2 _].
  assert (Hmod : (s + t) mod (3 * m) < 3 * m) by (apply Nat.mod_upper_bound; lia).
  destruct (twiddle_spec p m ((s + t) mod (3 * m)) to' M ltac:(lia) D4) as [V4 _].
  split; [|split].
  - rewrite V0 by assumption. change (Z.of_nat 0) with 0%Z.
    rewrite shift_0 by assumption. reflexivity.
  - rewrite V3 by assumption. rewrite shift_full; [reflexivity|assumption|assumption|].
    rewrite Nat2Z.inj_mul. apply Z.mod_same. lia.
  - rewrite V2, V4 by assumption.
    rewrite (shift_congr 1 m Hm _ (rd (twiddle p m s mid M) mid)
               (shift 1 m (Z.of_nat s) (rd M p))).
    2:{ intros i Hi. unfold rd at 1. apply V1. assumption. }
    rewrite shift_shift by assumption.
    pose proof (Nat.div_mod_eq (s + t) (3 * m)) as E.
    replace (Z.of_nat t + Z.of_nat s)%Z
      with (Z.of_nat ((s + t) mod (3 * m))
            + (3 * Z.of_nat ((s + t) / (3 * m))) * Z.of_nat m)%Z by nia.
    rewrite shift_period by assumption. rewrite Z.mul_1_l, wpow_3. ring.
Qed.

Lemma twiddle_group_action_witness :
  twiddle 0 2 5 4 count_mem (4 + 1)
  = (wpow (Z.of_nat (5 / 2)) * mulmod 2 (monomial (5 mod 2)) (rd count_mem 0) 1)%T
  /\ twiddle 0 2 1 4 count_mem (4 + 1)
     = (if 1 =? 0 then OMEGA * count_mem.[0 + (2 - 1)] else count_mem.[0 + (1 - 1)])%T
  /\ twiddle 0 2 0 4 count_mem (4 + 1) = count_mem (0 + 1)
  /\ twiddle 0 2 (3 * 2) 4 count_mem (4 + 1) = count_mem (0 + 1)
  /\ twiddle 2 2 5 4 (twiddle 0 2 3 2 count_mem) (4 + 1)
     = twiddle 0 2 ((3 + 5) mod (3 * 2)) 6 count_mem (6 + 1).
Proof.
  apply (twiddle_group_action 2 0 2 4 6 3 5 count_mem); unfold disj; simpl; lia.
Defined.

(** C8: [multiply] does not depend on the order of its arguments, for vectors
    that are not empty (and whose product has at most 3^36 coefficients). *)
Theorem multiply_comm fuel (p q : list Z) :
  p <> [] -> q <> [] ->
  (Z.of_nat (length p) + Z.of_nat (length q) - 1 <= 3 ^ 36)%Z ->
  40 <= fuel ->
  multiply fuel p q = multiply fuel q p /\ multiply fuel p q = Some (product p q).
Proof.
  intros Hp Hq Hsz Hf.
  rewrite (multiply_closed fuel p q) by assumption.
  rewrite (multiply_closed fuel q p) by (try assumption; lia).
  rewrite product_comm. split; reflexivity.
Qed.

Lemma multiply_comm_witness :
  multiply 40 [3; -1]%Z [1; 1; 1]%Z = multiply 40 [1; 1; 1]%Z [3; -1]%Z
  /\ multiply 40 [3; -1]%Z [1; 1; 1]%Z = Some (product [3; -1]%Z [1; 1; 1]%Z).
Proof.
  apply (multiply_comm 40 [3; -1]%Z [1; 1; 1]%Z).
  - discriminate.
  - discriminate.
  - vm_compute. discriminate.
  - lia.
Defined.

(** C9: INV3 = (12297829382473034411, 0) is the inverse of 3 in T:
    INV3 * T(3) = T(1), and 3 * 12297829382473034411 is 1 modulo 2^64. *)
Theorem INV3_inverse :
  INV3 = mkT (u64_of 12297829382473034411) 0%u64
  /\ (INV3 * T_of (u64_of 3))%T = T_of (u64_of 1)
  /\ (3 * 12297829382473034411 mod 2 ^ 64 = 1)%Z.
Proof. repeat split. Qed.




(** * Further properties of the routines *)

(** X1: with the operators of the source, T is a commutative ring with zero
    [T()] and one [T(1)], in which omega^2 + omega + 1 = 0 and every element
    is a + b * omega for its two fields a and b. *)
Theorem T_commutative_ring :
  (forall u v w : T, (u + v) + w = u + (v + w))%T
  /\ (forall u v : T, u + v = v + u)%T
  /\ (forall u : T, 0 + u = u)%T
  /\ (forall u : T, u + (- u) = 0)%T
  /\ (forall u v : T, u - v = u + (- v))%T
  /\ (forall u v w : T, (u * v) * w = u * (v * w))%T
  /\ (forall u v : T, u * v = v * u)%T
  /\ (forall u : T, 1 * u = u)%T
  /\ (forall u v w : T, (u + v) * w = u * w + v * w)%T
  /\ (OMEGA * OMEGA + OMEGA + 1 = 0)%T
  /\ OMEGA2 = (OMEGA * OMEGA)%T
  /\ (forall u : T, u = T_of (a u) + T_of (b u) * OMEGA)%T.
Proof.
  repeat split; intros; try ring; try reflexivity.
  destruct u as [x y]. unfold T_of, Tadd, Tmul, OMEGA; cbn [a b]. f_equal; ring.
Qed.

(** X2: [conj] is an involution that respects sums, differences and products,
    fixes the elements of R and exchanges OMEGA and OMEGA2. *)
Theorem conj_automorphism :
  (forall u : T, conj (conj u) = u)
  /\ (forall u v : T, conj (u + v) = conj u + conj v)%T
  /\ (forall u v : T, conj (u - v) = conj u - conj v)%T
  /\ (forall u v : T, conj (u * v) = conj u * conj v)%T
  /\ (forall x : u64, conj (T_of x) = T_of x)
  /\ conj OMEGA = OMEGA2 /\ conj OMEGA2 = OMEGA.
Proof.
  repeat split; intros.
  - apply conj_conj.
  - apply conj_add.
  - apply conj_sub.
  - apply conj_mul.
  - apply conj_T_of.
Qed.

(** X3: for two different objects u and v, the compound assignments
    [u += v], [u -= v] and [u *= v] leave in u what [u + v], [u - v] and
    [u * v] return and change nothing else; [x += x] and [x -= x] do so too.
    [x *= x] does not: it reads x.a after it has been overwritten and leaves
    (a^2 - b^2, b*(a^2 - b^2) + a*b - b^2), so (2, 1) becomes (3, 4) while
    (2, 1) * (2, 1) = (3, 3). *)
Theorem compound_assignments (M : mem) (u v : nat) :
  (u <> v ->
     Tadd_assign_at u v M u = (M u + M v)%T
     /\ Tsub_assign_at u v M u = (M u - M v)%T
     /\ Tmul_assign_at u v M u = (M u * M v)%T
     /\ Tadd_assign_at u v M u = Tadd_assign (M u) (M v)
     /\ Tsub_assign_at u v M u = Tsub_assign (M u) (M v)
     /\ Tmul_assign_at u v M u = Tmul_assign (M u) (M v))
  /\ (forall x, x <> u ->
        Tadd_assign_at u v M x = M x /\ Tsub_assign_at u v M x = M x
        /\ Tmul_assign_at u v M x = M x)
  /\ Tadd_assign_at u u M u = (M u + M u)%T
  /\ Tsub_assign_at u u M u = (M u - M u)%T
  /\ Tmul_assign_at u u M u
     = mkT (a (M u) * a (M u) - b (M u) * b (M u))%u64
           (b (M u) * (a (M u) * a (M u) - b (M u) * b (M u))
            + a (M u) * b (M u)
            - b (M u) * b (M u))%u64
  /\ Tmul_assign_at 0 0 (fun _ => mkT (u64_of 2) (u64_of 1)) 0 = mkT (u64_of 3) (u64_of 4)
  /\ (mkT (u64_of 2) (u64_of 1) * mkT (u64_of 2) (u64_of 1))%T = mkT (u64_of 3) (u64_of 3).
Proof.
  split; [|split].
  - intros Hne.
    unfold Tadd_assign_at, Tsub_assign_at, Tmul_assign_at, Tadd_assign, Tsub_assign,
      Tmul_assign, Tadd, Tsub, Tmul. cbv zeta.
    rewrite !upd_eq by reflexivity. rewrite !(upd_neq _ u _ v) by congruence.
    rewrite !upd_eq by reflexivity. cbn [a b]. repeat split.
  - intros x Hx. unfold Tadd_assign_at, Tsub_assign_at, Tmul_assign_at. cbv zeta.
    rewrite !upd_neq by assumption. repeat split.
  - unfold Tadd_assign_at, Tsub_assign_at, Tmul_assign_at, Tadd, Tsub. cbv zeta.
    rewrite !upd_eq by reflexivity. cbn [a b]. repeat split; reflexivity.
Qed.

(** ** twiddle *)

(** X4: for 0 <= t <= 3m, [twiddle] writes into [to[0..m)] the product of the
    block at p and the monomial x^t modulo x^m - omega, that is omega^(t/m)
    times the product with x^(t mod m), and changes no other cell. *)
Theorem twiddle_monomial m p to t (M : mem) :
  t <= 3 * m -> disj p m to m ->
  (forall j, j < m ->
     twiddle p m t to M (to + j)
     = (wpow (Z.of_nat (t / m)) * mulmod m (monomial (t mod m)) (rd M p) j)%T)
  /\ (forall x, ~ (to <= x < to + m) -> twiddle p m t to M x = M x).
Proof.
  intros Ht Hd. destruct (twiddle_spec p m t to M Ht Hd) as [V F].
  split; [|exact F].
  intros j Hj. assert (Hm : 0 < m) by lia.
  rewrite V by assumption.
  rewrite <- pmul_mulmod by assumption.
  rewrite pmul_monomial by (try apply Nat.mod_upper_bound; lia).
  pose proof (Nat.div_mod_eq t m) as E.
  replace (Z.of_nat t)
    with (Z.of_nat (t mod m) + Z.of_nat (t / m) * Z.of_nat m)%Z at 1 by lia.
  rewrite shift_period by assumption. rewrite Z.mul_1_l. reflexivity.
Qed.

Lemma twiddle_monomial_witness :
  (forall j, j < 2 ->
     twiddle 0 2 5 4 count_mem (4 + j)
     = (wpow (Z.of_nat (5 / 2)) * mulmod 2 (monomial (5 mod 2)) (rd count_mem 0) j)%T)
  /\ (forall x, ~ (4 <= x < 4 + 2) -> twiddle 0 2 5 4 count_mem x = count_mem x).
Proof. apply (twiddle_monomial 2 0 4 5 count_mem); unfold disj; simpl; lia. Defined.

(** ** fftdif *)

(** [freq k] reverses the k digits of a number in base 3. *)
Lemma freq_lt k : forall pos, pos < 3 ^ k -> freq k pos < 3 ^ k.
Proof.
  induction k as [|k IH]; intros pos H; [cbn; lia|].
  pose proof (pow3_pos k) as Hp. cbn [Nat.pow] in H. cbn [freq Nat.pow].
  pose proof (IH (pos mod 3 ^ k) ltac:(apply Nat.mod_upper_bound; lia)).
  assert (pos / 3 ^ k < 3) by (apply Nat.Div0.div_lt_upper_bound; lia).
  lia.
Qed.

Lemma freq_low k : forall q d,
  d < 3 -> q < 3 ^ k -> freq (S k) (3 * q + d) = d * 3 ^ k + freq k q.
Proof.
  induction k as [|k IH]; intros q d Hd Hq.
  - cbn in Hq. assert (q = 0) by lia. subst q.
    destruct d as [|[|[|d]]]; [reflexivity|reflexivity|reflexivity|lia].
  - pose proof (pow3_pos k) as Hp.
    assert (Hl : q mod 3 ^ k < 3 ^ k) by (apply Nat.mod_upper_bound; lia).
    pose proof (Nat.div_mod_eq q (3 ^ k)) as Eq.
    set (h := q / 3 ^ k) in *. set (l := q mod 3 ^ k) in *.
    change (freq (S (S k)) (3 * q + d))
      with (3 * freq (S k) ((3 * q + d) mod 3 ^ S k) + (3 * q + d) / 3 ^ S k).
    assert (E : 3 * q + d = 3 ^ S k * h + (3 * l + d)) by (cbn [Nat.pow]; lia).
    assert (Hs : 3 * l + d < 3 ^ S k) by (cbn [Nat.pow]; lia).
    rewrite <- (Nat.mod_unique (3 * q + d) (3 ^ S k) h (3 * l + d) Hs E).
    rewrite <- (Nat.div_unique (3 * q + d) (3 ^ S k) h (3 * l + d) Hs E).
    rewrite (IH l d Hd Hl).
    change (freq (S k) q) with (3 * freq k l + h). cbn [Nat.pow]. lia.
Qed.

Lemma freq_invol k : forall pos, pos < 3 ^ k -> freq k (freq k pos) = pos.
Proof.
  induction k as [|k IH]; intros pos H; [cbn in *; lia|].
  pose proof (pow3_pos k) as Hp. cbn [Nat.pow] in H.
  assert (Hl : pos mod 3 ^ k < 3 ^ k) by (apply Nat.mod_upper_bound; lia).
  assert (Hh : pos / 3 ^ k < 3) by (apply Nat.Div0.div_lt_upper_bound; lia).
  pose proof (Nat.div_mod_eq pos (3 ^ k)) as E.
  change (freq (S k) pos) with (3 * freq k (pos mod 3 ^ k) + pos / 3 ^ k).
  rewrite freq_low by (try apply freq_lt; assumption).
  rewrite IH by assumption. lia.
Qed.

(** X5: for m = 3^j and r = 3^k <= 3m, [fftdif] returns with the Fourier
    transform with respect to y in 3-reversed order: the block at position
    [freq k f] holds the value of sum_l X_l y^l at y = x^((3m/r) * f), for
    every frequency f < r.  Only the buffer and [tmp[0..3m)] change. *)
Theorem fftdif_transform j k fuel tmp p (M : mem) :
  k <= j + 1 -> k < fuel ->
  tmp + 3 * 3 ^ j <= p \/ p + 3 ^ j * 3 ^ k <= tmp ->
  exists M', fftdif fuel tmp p (3 ^ j) (3 ^ k) M = Some M'
    /\ (forall f i, f < 3 ^ k -> i < 3 ^ j ->
          M' (p + (freq k f * 3 ^ j + i))
          = evalY (3 ^ j) (3 ^ k) (rd M p) (Z.of_nat (3 ^ (j + 1 - k) * f)) i)
    /\ (forall x, ~ (p <= x < p + 3 ^ j * 3 ^ k) -> ~ (tmp <= x < tmp + 3 * 3 ^ j) ->
          M' x = M x).
Proof.
  intros Hk Hf Hd. pose proof (pow3_pos j) as Hm.
  assert (Hc : 3 * 3 ^ j = 3 ^ (j + 1 - k) * 3 ^ k).
  { rewrite <- Nat.pow_add_r. replace (j + 1 - k + k) with (S j) by lia. reflexivity. }
  destruct (fftdif_spec k fuel tmp p (3 ^ j) (3 ^ (j + 1 - k)) M Hm Hc Hf Hd)
    as [M' [E [V F]]].
  exists M'. split; [exact E|]. split; [|exact F].
  intros f i Hfr Hi. pose proof (freq_lt k f Hfr) as Hpos.
  rewrite V.
  - rewrite (dif_spec_eval (3 ^ j) Hm k (3 ^ (j + 1 - k))) by assumption.
    rewrite freq_invol by assumption. reflexivity.
  - rewrite (Nat.mul_comm (3 ^ j)). apply blk_idx_lt; assumption.
Qed.

Lemma fftdif_transform_witness :
  exists M', fftdif 3 0 9 (3 ^ 1) (3 ^ 2) count_mem = Some M'
    /\ (forall f i, f < 3 ^ 2 -> i < 3 ^ 1 ->
          M' (9 + (freq 2 f * 3 ^ 1 + i))
          = evalY (3 ^ 1) (3 ^ 2) (rd count_mem 9) (Z.of_nat (3 ^ (1 + 1 - 2) * f)) i)
    /\ (forall x, ~ (9 <= x < 9 + 3 ^ 1 * 3 ^ 2) -> ~ (0 <= x < 0 + 3 * 3 ^ 1) ->
          M' x = count_mem x).
Proof. apply (fftdif_transform 1 2 3 0 9 count_mem); simpl; lia. Defined.

(** ** Transform, multiply, transform back *)

(** X6: for m = 3^j and r = 3^k <= 3m, transforming the buffers x and y with
    [fftdif], multiplying them block by block with [mul] into z and applying
    [fftdit] to z leaves in z r times the product of x and y as polynomials in
    y over T[x]/(x^m - omega), modulo y^r - 1.  z has n + 3m cells, [tmp] 3m. *)
Theorem fft_product j k fuel tmp x y z (M : mem) :
  k <= j + 1 -> j < fuel -> k < fuel ->
  disj x (3 ^ j * 3 ^ k) y (3 ^ j * 3 ^ k) ->
  disj x (3 ^ j * 3 ^ k) z (3 ^ j * 3 ^ k + 3 * 3 ^ j) ->
  disj y (3 ^ j * 3 ^ k) z (3 ^ j * 3 ^ k + 3 * 3 ^ j) ->
  disj tmp (3 * 3 ^ j) x (3 ^ j * 3 ^ k) ->
  disj tmp (3 * 3 ^ j) y (3 ^ j * 3 ^ k) ->
  disj tmp (3 * 3 ^ j) z (3 ^ j * 3 ^ k + 3 * 3 ^ j) ->
  exists M1 M2 M3 M4,
    fftdif fuel tmp x (3 ^ j) (3 ^ k) M = Some M1
    /\ fftdif fuel tmp y (3 ^ j) (3 ^ k) M1 = Some M2
    /\ for_loop_opt (3 ^ k) (fun i M =>
         mul fuel tmp (x + 3 ^ j * i) (y + 3 ^ j * i) (3 ^ j) (z + 3 ^ j * i) M) M2 = Some M3
    /\ fftdit fuel tmp z (3 ^ j) (3 ^ k) M3 = Some M4
    /\ forall K, K < 3 ^ j * 3 ^ k ->
         M4 (z + K) = (Tnat (3 ^ k) * yconv 0 1 (3 ^ j) (3 ^ k) (rd M x) (rd M y) K)%T.
Proof.
  intros Hk Hj Hf D1 D2 D3 D4 D5 D6.
  assert (Hc : 3 * 3 ^ j = 3 ^ (j + 1 - k) * 3 ^ k).
  { rewrite <- Nat.pow_add_r. replace (j + 1 - k + k) with (S j) by lia. reflexivity. }
  destruct (fft_core_spec j k (3 ^ (j + 1 - k)) fuel Hc Hf (mul_spec fuel j Hj)
              tmp x y z M D1 D2 D3 D4 D5 D6)
    as (M1 & M2 & M3 & M4 & E1 & E2 & E3 & E4 & V & _).
  exists M1, M2, M3, M4. auto.
Qed.

Lemma fft_product_witness :
  exists M1 M2 M3 M4,
    fftdif 2 50 0 (3 ^ 1) (3 ^ 1) count_mem = Some M1
    /\ fftdif 2 50 9 (3 ^ 1) (3 ^ 1) M1 = Some M2
    /\ for_loop_opt (3 ^ 1) (fun i M =>
         mul 2 50 (0 + 3 ^ 1 * i) (9 + 3 ^ 1 * i) (3 ^ 1) (18 + 3 ^ 1 * i) M) M2 = Some M3
    /\ fftdit 2 50 18 (3 ^ 1) (3 ^ 1) M3 = Some M4
    /\ forall K, K < 3 ^ 1 * 3 ^ 1 ->
         M4 (18 + K)
         = (Tnat (3 ^ 1) * yconv 0 1 (3 ^ 1) (3 ^ 1) (rd count_mem 0) (rd count_mem 9) K)%T.
Proof. apply (fft_product 1 1 2 50 0 9 18 count_mem); unfold disj; simpl; lia. Defined.

(** ** mul *)

(** X7: the product that [mul] leaves in [to[0..n)] does not depend on the
    order of its two operands. *)
Theorem mul_symmetric k fuel tmp p q to (M : mem) :
  k < fuel ->
  sep p (3 ^ k) q (3 ^ k) -> sep p (3 ^ k) to (mul_cells k) -> sep q (3 ^ k) to (mul_cells k) ->
  sep tmp (mul_tmp_cells k) p (3 ^ k) -> sep tmp (mul_tmp_cells k) q (3 ^ k) ->
  sep tmp (mul_tmp_cells k) to (mul_cells k) ->
  exists M1 M2, mul fuel tmp p q (3 ^ k) to M = Some M1
    /\ mul fuel tmp q p (3 ^ k) to M = Some M2
    /\ forall K, K < 3 ^ k -> M1 (to + K) = M2 (to + K).
Proof.
  intros Hf S1 S2 S3 S4 S5 S6.
  assert (S1' : sep q (3 ^ k) p (3 ^ k)) by (unfold sep in *; lia).
  destruct (mul_spec fuel k Hf tmp p q to M S1 S2 S3 S4 S5 S6) as [M1 [E1 [V1 _]]].
  destruct (mul_spec fuel k Hf tmp q p to M S1' S3 S2 S5 S4 S6) as [M2 [E2 [V2 _]]].
  exists M1, M2. split; [exact E1|]. split; [exact E2|].
  intros K HK. rewrite V1, V2 by assumption. apply pmul_comm. apply pow3_pos.
Qed.

Lemma mul_symmetric_witness :
  exists M1 M2, mul 2 100 0 3 (3 ^ 1) 6 count_mem = Some M1
    /\ mul 2 100 3 0 (3 ^ 1) 6 count_mem = Some M2
    /\ forall K, K < 3 ^ 1 -> M1 (6 + K) = M2 (6 + K).
Proof.
  apply (mul_symmetric 1 2 100 0 3 6 count_mem);
    unfold sep, mul_cells, mul_tmp_cells; simpl; lia.
Defined.

(** ** multiply_cyclic_raw *)

Lemma T_of_usum n f : T_of (usum n f) = Tsum n (fun i => T_of (f i)).
Proof.
  induction n as [|n IH]; cbn [usum Tsum]; [reflexivity|].
  rewrite T_of_add, IH. reflexivity.
Qed.

Lemma mod_sum_eqb n i j K :
  i < n -> j < n -> K < n ->
  ((i + j) mod n =? K) = (j =? (if i <=? K then K - i else K + n - i)).
Proof.
  intros Hi Hj HK.
  assert (E : (i + j) mod n = if i + j <? n then i + j else i + j - n).
  { destruct (Nat.ltb_spec (i + j) n) as [H|H].
    - apply Nat.mod_small. assumption.
    - symmetry. apply (Nat.mod_unique _ _ 1); lia. }
  rewrite E.
  destruct (Nat.ltb_spec (i + j) n); destruct (Nat.leb_spec i K);
    destruct (Nat.eqb_spec j (K - i)); destruct (Nat.eqb_spec j (K + n - i));
    try (destruct (Nat.eqb_spec (i + j) K)); try (destruct (Nat.eqb_spec (i + j - n) K));
    try reflexivity; lia.
Qed.

Lemma pmul_embed_cyc n (p q : list u64) K :
  K < n -> pmul 0 n (embed p) (embed q) K = T_of (cyc_conv n p q K).
Proof.
  intros HK. unfold cyc_conv, pmul. rewrite T_of_usum. apply Tsum_ext. intros i Hi.
  rewrite T_of_usum.
  rewrite (Tsum_ext n _ (fun j =>
    if j =? (if i <=? K then K - i else K + n - i)
    then T_of (nth i p 0%u64 * nth j q 0%u64)%u64 else 0%T)).
  2:{ intros j Hj. rewrite mod_sum_eqb by assumption.
      destruct (j =? _); reflexivity. }
  destruct (Nat.leb_spec i K) as [Hle|Hgt].
  - rewrite Tsum_delta by lia.
    rewrite (ext_at 0 n _ _ 0 (K - i)) by lia.
    unfold embed. rewrite T_of_mul. wpow_eval. ring.
  - rewrite Tsum_delta by lia.
    rewrite (ext_at 0 n _ _ (-1) (K + n - i)) by lia.
    unfold embed. rewrite T_of_mul. wpow_eval. ring.
Qed.

(** X8: for n = 3^k and vectors p and q of n elements of R,
    [multiply_cyclic_raw] returns with [target[K]] the sum of p[i] * q[j] over
    i + j = K modulo n, for every K < n: the product modulo x^n - 1. *)
Theorem multiply_cyclic_raw_correct k fuel (p q : list u64) :
  k + 1 < fuel -> length p = 3 ^ k -> length q = 3 ^ k ->
  multiply_cyclic_raw fuel p q (3 ^ k) = Some (map (cyc_conv (3 ^ k) p q) (seq 0 (3 ^ k))).
Proof.
  intros Hf _ _. destruct (split_exponent k) as [Hab Ek].
  pose proof (multiply_cyclic_raw_spec (k / 2) (k - k / 2) fuel p q Hab ltac:(lia)) as R.
  rewrite Ek in R. rewrite R. f_equal. apply map_ext_in. intros K HK.
  apply in_seq in HK. rewrite pmul_embed_cyc by lia. reflexivity.
Qed.

Lemma multiply_cyclic_raw_correct_witness :
  multiply_cyclic_raw 3 [u64_of 5; u64_of 7; u64_of (-1)] [u64_of 2; u64_of 3; u64_of 4] (3 ^ 1)
  = Some (map (cyc_conv (3 ^ 1) [u64_of 5; u64_of 7; u64_of (-1)]
                 [u64_of 2; u64_of 3; u64_of 4]) (seq 0 (3 ^ 1))).
Proof.
  apply (multiply_cyclic_raw_correct 1 3); [lia|reflexivity|reflexivity].
Defined.



(** ** multiply *)

Lemma Zsum_zero n f : (forall i, i < n -> f i = 0%Z) -> Zsum n f = 0%Z.
Proof.
  induction n as [|n IH]; intros H; cbn [Zsum]; [reflexivity|].
  rewrite IH, H by auto with arith. reflexivity.
Qed.

Lemma map_const_seq {A : Type} (c : A) n s : map (fun _ => c) (seq s n) = repeat c n.
Proof.
  revert s. induction n as [|n IH]; intros s; cbn; [reflexivity|]. f_equal. apply IH.
Qed.

Lemma lin_conv_nil_l q k : lin_conv [] q k = 0%Z.
Proof.
  unfold lin_conv. apply Zsum_zero. intros i _. destruct i; reflexivity.
Qed.

(** X10: when exactly one of the two vectors is empty, [multiply] returns
    |q| - 1 zeros for the other vector q, not the empty vector (unless q has
    one element). *)
Theorem multiply_empty_operand fuel (q : list Z) :
  q <> [] -> (Z.of_nat (length q) - 1 <= 3 ^ 36)%Z -> 40 <= fuel ->
  multiply fuel [] q = Some (repeat 0%Z (length q - 1))
  /\ multiply fuel q [] = Some (repeat 0%Z (length q - 1)).
Proof.
  intros Hq Hsz Hf.
  assert (E : product [] q = repeat 0%Z (length q - 1)).
  { unfold product. cbn [length Nat.add].
    rewrite <- (map_const_seq 0%Z (length q - 1) 0). apply map_ext. intros k.
    rewrite lin_conv_nil_l. reflexivity. }
  split.
  - rewrite multiply_closed_all; [rewrite E; reflexivity|right; assumption| |assumption].
    cbn [length]. lia.
  - rewrite multiply_closed_all; [|left; assumption| |assumption].
    + rewrite product_comm, E. reflexivity.
    + cbn [length]. lia.
Qed.

Lemma multiply_empty_operand_witness :
  multiply 40 [] [4; 5; 6]%Z = Some (repeat 0%Z (length [4; 5; 6]%Z - 1))
  /\ multiply 40 [4; 5; 6]%Z [] = Some (repeat 0%Z (length [4; 5; 6]%Z - 1)).
Proof.
  apply (multiply_empty_operand 40 [4; 5; 6]%Z).
  - discriminate.
  - vm_compute. discriminate.
  - lia.
Defined.

Lemma map_nth_seq {A B : Type} (g : A -> B) (d : A) (l : list A) :
  map (fun k => g (nth k l d)) (seq 0 (length l)) = map g l.
Proof.
  induction l as [|x l IH]; [reflexivity|].
  cbn [length seq map nth]. f_equal.
  rewrite <- seq_shift, map_map. exact IH.
Qed.

Lemma lin_conv_single c q k : lin_conv [c] q k = (c * nth k q 0)%Z.
Proof.
  unfold lin_conv. rewrite Zsum_S_l. rewrite Zsum_zero.
  - cbn [nth]. rewrite Nat.sub_0_r. lia.
  - intros i _. cbn [nth]. destruct i; reflexivity.
Qed.

(** X11: multiplying by a vector with the single entry c multiplies every
    entry of q by c modulo 2^64; in particular [multiply] by the vector {1}
    returns q when the entries of q are in the signed 64-bit range. *)
Theorem multiply_constant fuel c (q : list Z) :
  q <> [] -> (Z.of_nat (length q) <= 3 ^ 36)%Z -> 40 <= fuel ->
  multiply fuel [c] q = Some (map (fun x => Zmod.signed (u64_of (c * x))) q)
  /\ ((forall x, In x q -> - 2 ^ 63 <= x < 2 ^ 63)%Z -> multiply fuel [1%Z] q = Some q).
Proof.
  intros Hq Hsz Hf.
  assert (E : forall c', multiply fuel [c'] q
                         = Some (map (fun x => Zmod.signed (u64_of (c' * x))) q)).
  { intros c'. rewrite multiply_closed; try assumption; [|discriminate|cbn [length]; lia].
    f_equal. unfold product. cbn [length].
    replace (1 + length q - 1) with (length q) by lia.
    rewrite <- (map_nth_seq (fun x => Zmod.signed (u64_of (c' * x))) 0%Z q).
    apply map_ext. intros k. rewrite lin_conv_single. reflexivity. }
  split; [apply E|].
  intros Hr. rewrite E. f_equal. rewrite <- (map_id q) at 2.
  apply map_ext_in. intros x Hx. specialize (Hr x Hx).
  rewrite Z.mul_1_l. apply Zmod.signed_of_Z_even_small; [reflexivity|].
  unfold M64. change (2 ^ 63)%Z with 9223372036854775808%Z in Hr. lia.
Qed.

Lemma multiply_constant_witness :
  multiply 40 [3]%Z [4; -5; 6]%Z
    = Some (map (fun x => Zmod.signed (u64_of (3 * x))) [4; -5; 6]%Z)
  /\ ((forall x, In x [4; -5; 6]%Z -> - 2 ^ 63 <= x < 2 ^ 63)%Z ->
      multiply 40 [1%Z] [4; -5; 6]%Z = Some [4; -5; 6]%Z).
Proof.
  apply (multiply_constant 40 3 [4; -5; 6]%Z).
  - discriminate.
  - vm_compute. discriminate.
  - lia.
Defined.

(** The product of blocks modulo x^m - omega^tau is associative. *)
Lemma pmul_assoc tau m (u v w : nat -> T) k :
  0 < m ->
  pmul tau m (pmul tau m u v) w k = pmul tau m u (pmul tau m v w) k.
Proof.
  intros Hm.
  transitivity (pmul tau m (fun j => Tsum m (fun i => u i * shift tau m (Z.of_nat i) v j)%T) w k);
    [reflexivity|].
  rewrite (pmul_sum_l tau m m (fun i j => u i * shift tau m (Z.of_nat i) v j)%T).
  unfold pmul at 2. apply Tsum_ext. intros i Hi.
  rewrite pmul_scale_l, pmul_shift_l by assumption. reflexivity.
Qed.

Lemma lin_conv_past p q K :
  length p + length q - 1 <= K -> p <> [] -> lin_conv p q K = 0%Z.
Proof.
  intros HK Hp. assert (0 < length p) by (destruct p; [contradiction|cbn; lia]).
  unfold lin_conv. apply Zsum_zero. intros i Hi.
  destruct (Nat.lt_ge_cases i (length p)).
  - rewrite (nth_overflow q) by lia. lia.
  - rewrite (nth_overflow p) by lia. lia.
Qed.

Lemma product_length p q : length (product p q) = length p + length q - 1.
Proof. unfold product. rewrite length_map, length_seq. reflexivity. Qed.

(** The padded result of [multiply] as a block: the cyclic product of the
    padded arguments. *)
Lemma embed_product n (p q : list Z) i :
  p <> [] -> length p + length q - 1 <= n -> i < n ->
  embed (resize 0%u64 n (map u64_of (product p q))) i
  = pmul 0 n (embed (resize 0%u64 n (map u64_of p))) (embed (resize 0%u64 n (map u64_of q))) i.
Proof.
  intros Hp Hn Hi. rewrite embed_resize by assumption.
  rewrite pmul_embed_lin_all by assumption.
  destruct (Nat.lt_ge_cases i (length p + length q - 1)) as [H|H].
  - unfold product. rewrite nth_map_seq by assumption.
    unfold u64_of at 1. rewrite Zmod.of_Z_signed. reflexivity.
  - rewrite nth_overflow by (rewrite product_length; assumption).
    rewrite lin_conv_past by assumption. reflexivity.
Qed.

Lemma product_assoc (p q r : list Z) :
  p <> [] -> q <> [] -> r <> [] ->
  product (product p q) r = product p (product q r).
Proof.
  intros Hp Hq Hr.
  assert (Lp : 0 < length p) by (destruct p; [contradiction|cbn; lia]).
  assert (Lq : 0 < length q) by (destruct q; [contradiction|cbn; lia]).
  assert (Lr : 0 < length r) by (destruct r; [contradiction|cbn; lia]).
  assert (Hpq : product p q <> []).
  { intros E. pose proof (product_length p q) as L. rewrite E in L. cbn in L. lia. }
  unfold product at 1 3. rewrite !product_length.
  replace (length p + (length q + length r - 1) - 1)
    with (length p + length q - 1 + length r - 1) by lia.
  set (n := length p + length q - 1 + length r - 1).
  apply map_ext_in. intros K HK. apply in_seq in HK.
  assert (Hn : 0 < n) by lia.
  f_equal.
  assert (E : T_of (u64_of (lin_conv (product p q) r K))
              = T_of (u64_of (lin_conv p (product q r) K))).
  { rewrite <- (pmul_embed_lin_all n (product p q) r K)
      by (rewrite ?product_length; unfold n; lia).
    rewrite <- (pmul_embed_lin_all n p (product q r) K)
      by (rewrite ?product_length; unfold n; lia).
    rewrite (pmul_congr 0 n Hn _
               (pmul 0 n (embed (resize 0%u64 n (map u64_of p)))
                         (embed (resize 0%u64 n (map u64_of q))))
               _ (embed (resize 0%u64 n (map u64_of r)))).
    2:{ intros i Hi. apply embed_product; [assumption|unfold n; lia|assumption]. }
    2:{ intros; reflexivity. }
    rewrite pmul_assoc by assumption.
    apply pmul_congr; [assumption|intros; reflexivity|].
    intros i Hi. symmetry. apply embed_product; [assumption|unfold n; lia|assumption]. }
  exact (f_equal a E).
Qed.

(** X13: [multiply] is associative: for three vectors that are not empty,
    multiplying p * q by r and p by q * r return the same vector. *)
Theorem multiply_assoc fuel (p q r : list Z) :
  p <> [] -> q <> [] -> r <> [] ->
  (Z.of_nat (length p) + Z.of_nat (length q) + Z.of_nat (length r) - 2 <= 3 ^ 36)%Z ->
  40 <= fuel ->
  exists pq qr res,
    multiply fuel p q = Some pq /\ multiply fuel q r = Some qr
    /\ multiply fuel pq r = Some res /\ multiply fuel p qr = Some res.
Proof.
  intros Hp Hq Hr Hsz Hf.
  assert (Lp : 0 < length p) by (destruct p; [contradiction|cbn; lia]).
  assert (Lq : 0 < length q) by (destruct q; [contradiction|cbn; lia]).
  assert (Lr : 0 < length r) by (destruct r; [contradiction|cbn; lia]).
  exists (product p q), (product q r), (product (product p q) r).
  split; [apply multiply_closed; try assumption; lia|].
  split; [apply multiply_closed; try assumption; lia|].
  split.
  - apply multiply_closed_all; [right; assumption| |assumption].
    rewrite product_length. lia.
  - rewrite product_assoc by assumption.
    apply multiply_closed_all; [left; assumption| |assumption].
    rewrite product_length. lia.
Qed.

Lemma multiply_assoc_witness :
  exists pq qr res,
    multiply 40 [1; 2]%Z [3; -1]%Z = Some pq /\ multiply 40 [3; -1]%Z [5; 0; 7]%Z = Some qr
    /\ multiply 40 pq [5; 0; 7]%Z = Some res /\ multiply 40 [1; 2]%Z qr = Some res.
Proof.
  apply (multiply_assoc 40 [1; 2]%Z [3; -1]%Z [5; 0; 7]%Z).
  - discriminate.
  - discriminate.
  - discriminate.
  - vm_compute. discriminate.
  - lia.
Defined.

